(** * The Quant's Cockpit: analytics module and dashboard guards

    A shallow embedding of [src/analytics/metrics.py] (the loader, the
    metrics calculator, the portfolio optimizer and the Monte Carlo
    simulator) and of the control skeleton of [src/app.py].

    Numbers.  The source computes on IEEE doubles held in pandas frames.
    The embedding keeps the special values the code can produce and test
    for (NaN, which pandas uses for a missing cell, and the two
    infinities) and takes arithmetic on finite values to be exact: a
    finite cell carries a real number.  There is no rounding, no
    overflow and a single zero. *)

From Stdlib Require Import Reals Lra Lia String Bool Arith ZArith List.
From Stdlib Require Import Sorted OrderedTypeEx.
Import ListNotations.

Open Scope R_scope.

(** ** Cells *)

Inductive cell : Type :=
| NaN
| Inf (neg : bool)
| Fin (x : R).

Definition Rneg (x : R) : bool := if Rlt_dec x 0 then true else false.
Definition Rzero (x : R) : bool := if Req_dec_T x 0 then true else false.

Definition notna (c : cell) : bool :=
  match c with NaN => false | _ => true end.

Definition isfinite (c : cell) : bool :=
  match c with Fin _ => true | _ => false end.

Definition cadd (a b : cell) : cell :=
  match a, b with
  | NaN, _ | _, NaN => NaN
  | Fin x, Fin y => Fin (x + y)
  | Inf s, Fin _ => Inf s
  | Fin _, Inf t => Inf t
  | Inf s, Inf t => if Bool.eqb s t then Inf s else NaN
  end.

Definition cneg (a : cell) : cell :=
  match a with
  | NaN => NaN
  | Inf s => Inf (negb s)
  | Fin x => Fin (- x)
  end.

Definition csub (a b : cell) : cell :=
  match a, b with
  | NaN, _ | _, NaN => NaN
  | Fin x, Fin y => Fin (x - y)
  | Inf s, Fin _ => Inf s
  | Fin _, Inf t => Inf (negb t)
  | Inf s, Inf t => if Bool.eqb s t then NaN else Inf s
  end.

Definition cmul (a b : cell) : cell :=
  match a, b with
  | NaN, _ | _, NaN => NaN
  | Fin x, Fin y => Fin (x * y)
  | Inf s, Fin y => if Rzero y then NaN else Inf (xorb s (Rneg y))
  | Fin x, Inf t => if Rzero x then NaN else Inf (xorb (Rneg x) t)
  | Inf s, Inf t => Inf (xorb s t)
  end.

(** The quotient of two finite cells is the exact real quotient: it does
    not overflow to an infinity nor underflow to zero, as a quotient of
    doubles can.  An infinity arises only from a division by zero or
    from an infinite operand. *)
Definition cdiv (a b : cell) : cell :=
  match a, b with
  | NaN, _ | _, NaN => NaN
  | Fin x, Fin y =>
      if Rzero y then (if Rzero x then NaN else Inf (Rneg x))
      else Fin (x / y)
  | Inf s, Fin y => Inf (xorb s (Rneg y))
  | Fin _, Inf _ => Fin 0
  | Inf _, Inf _ => NaN
  end.

Definition csqrt (a : cell) : cell :=
  match a with
  | NaN => NaN
  | Inf s => if s then NaN else Inf false
  | Fin x => if Rneg x then NaN else Fin (sqrt x)
  end.

(** ** Frames and series

    A frame is stored row by row: [index] labels the rows, [columns]
    labels the cells of every row.  A series is a labelled vector. *)

Record DataFrame (I L : Type) : Type := mkDF {
  index : list I;
  columns : list L;
  values : list (list cell)
}.
Arguments mkDF {I L} _ _ _.
Arguments index {I L} _.
Arguments columns {I L} _.
Arguments values {I L} _.

Definition Series (L : Type) : Type := list (L * cell).

Definition date : Type := Z.
Definition PriceMatrix : Type := DataFrame date string.

Definition nrows {I L} (df : DataFrame I L) : nat := length (index df).
Definition ncols {I L} (df : DataFrame I L) : nat := length (columns df).
Definition shape {I L} (df : DataFrame I L) : nat * nat := (nrows df, ncols df).

(** The shape invariant every pandas frame satisfies. *)
Definition wf {I L} (df : DataFrame I L) : Prop :=
  length (values df) = length (index df) /\
  Forall (fun r => length r = length (columns df)) (values df).

Definition no_missing {I L} (df : DataFrame I L) : bool :=
  forallb (forallb notna) (values df).

(** [df.iloc[t, j]]; out of range reads are NaN here and never used. *)
Definition cell_at {I L} (df : DataFrame I L) (t j : nat) : cell :=
  nth j (nth t (values df) []) NaN.

Definition col (j : nat) (rows : list (list cell)) : list cell :=
  map (fun r => nth j r NaN) rows.

(** A column-wise reduction, [df.agg(f)]: one entry per column label. *)
Definition agg {I L} (f : list cell -> cell) (df : DataFrame I L) : Series L :=
  combine (columns df)
          (map (fun j => f (col j (values df))) (seq 0 (length (columns df)))).

Definition smap {L} (f : cell -> cell) (s : Series L) : Series L :=
  map (fun kv => (fst kv, f (snd kv))) s.

(** *** [DataFrame.pct_change]

    [data / data.shift(1) - 1]: the first row has no predecessor and is
    NaN throughout; every later row is compared with the row before it.
    The frames it is applied to come out of [dropna], so the forward
    fill some pandas versions apply first has nothing to fill. *)

Definition pct (cur prev : cell) : cell := csub (cdiv cur prev) (Fin 1).

Definition pct_row (prev cur : list cell) : list cell :=
  map (fun pq => pct (fst pq) (snd pq)) (combine cur prev).

Fixpoint pct_rows (prev : list cell) (rows : list (list cell))
  : list (list cell) :=
  match rows with
  | [] => []
  | r :: rest => pct_row prev r :: pct_rows r rest
  end.

Definition pct_change {I L} (df : DataFrame I L) : DataFrame I L :=
  mkDF (index df) (columns df)
       match values df with
       | [] => []
       | r0 :: rest => map (fun _ => NaN) r0 :: pct_rows r0 rest
       end.

(** *** [DataFrame.dropna]: a row goes as soon as one cell is NaN. *)

Definition complete_row (r : list cell) : bool := forallb notna r.

Definition dropna {I L} (df : DataFrame I L) : DataFrame I L :=
  let kept := filter (fun ir => complete_row (snd ir))
                     (combine (index df) (values df)) in
  mkDF (map fst kept) (columns df) (map snd kept).

(** *** Reductions: [mean] and [std] with [skipna=True], [ddof=1] *)

Definition csum (xs : list cell) : cell := fold_left cadd xs (Fin 0).

Definition nanmean (xs : list cell) : cell :=
  let v := filter notna xs in
  match v with
  | [] => NaN
  | _ => cdiv (csum v) (Fin (INR (length v)))
  end.

Definition csquare (c : cell) : cell := cmul c c.

Definition nanvar (xs : list cell) : cell :=
  let v := filter notna xs in
  if (length v <=? 1)%nat then NaN
  else
    let avg := cdiv (csum v) (Fin (INR (length v))) in
    cdiv (csum (map (fun x => csquare (csub avg x)) v))
         (Fin (INR (length v - 1))).

Definition nanstd (xs : list cell) : cell := csqrt (nanvar xs).

Definition df_mean {I L} (df : DataFrame I L) : Series L := agg nanmean df.
Definition df_std {I L} (df : DataFrame I L) : Series L := agg nanstd df.
Definition series_mean {L} (s : Series L) : cell := nanmean (map snd s).

(** ** [calculate_metrics] *)

Definition sqrt252 : cell := csqrt (Fin 252).

Definition calculate_metrics {I L} (df : DataFrame I L)
  : DataFrame I L * Series L :=
  let returns := dropna (pct_change df) in
  let volatility := smap (fun s => cmul s sqrt252) (df_std returns) in
  (returns, volatility).

(** ** Exceptions

    A Python call either returns or raises. *)

Inductive exn : Type :=
| OperationalError   (* the database cannot be read *)
| ValueError
| KeyError
| IndexError
| ZeroDivisionError.

Inductive result (A : Type) : Type :=
| Ok (a : A)
| Raise (e : exn).
Arguments Ok {A} _.
Arguments Raise {A} _.

Definition rbind {A B} (r : result A) (k : A -> result B) : result B :=
  match r with
  | Ok a => k a
  | Raise e => Raise e
  end.

Notation "x <- r ;; k" := (rbind r (fun x => k))
  (at level 61, r at next level, right associativity).

Definition of_option {A} (e : exn) (o : option A) : result A :=
  match o with
  | Some a => Ok a
  | None => Raise e
  end.

(** ** [optimize_portfolio] *)

Definition dot (a b : list cell) : cell :=
  csum (map (fun xy => cmul (fst xy) (snd xy)) (combine a b)).

Definition matvec (m : list (list cell)) (w : list cell) : list cell :=
  map (fun row => dot row w) m.

(** [DataFrame.cov]: every pair of columns is compared on the rows where
    both are finite, with [ddof=1] and [min_periods=1]. *)

Definition pair_obs (xs ys : list cell) : list (cell * cell) :=
  filter (fun p => isfinite (fst p) && isfinite (snd p)) (combine xs ys).

Definition nancov (xs ys : list cell) : cell :=
  let obs := pair_obs xs ys in
  let n := length obs in
  if (n <? 1)%nat then NaN
  else
    let mx := cdiv (csum (map fst obs)) (Fin (INR n)) in
    let my := cdiv (csum (map snd obs)) (Fin (INR n)) in
    let cxy := csum (map (fun p => cmul (csub (fst p) mx) (csub (snd p) my))
                         obs) in
    if (n =? 1)%nat then NaN else cdiv cxy (Fin (INR n - 1)).

Definition df_cov {I L} (df : DataFrame I L) : list (list cell) :=
  let js := seq 0 (length (columns df)) in
  map (fun i => map (fun j => nancov (col i (values df)) (col j (values df)))
                    js) js.

Definition expected_returns {I L} (df : DataFrame I L) : Series L :=
  smap (fun m => cmul m (Fin 252)) (df_mean (pct_change df)).

Definition covariance {I L} (df : DataFrame I L) : list (list cell) :=
  map (map (fun c => cmul c (Fin 252))) (df_cov (pct_change df)).

Definition negative_sharpe {L} (mu : Series L) (S : list (list cell))
           (weights : list cell) : cell :=
  let p_ret := dot weights (map snd mu) in
  let p_vol := csqrt (dot weights (matvec S weights)) in
  cneg (cdiv p_ret p_vol).

(** What [scipy.optimize.minimize] is handed. *)

Inductive method : Type :=
| NelderMead | BFGS | LBFGSB | TNC | COBYLA | SLSQP | TrustConstr.

Inductive constraint_type : Type := EqZero | GeZero.

Record constraint : Type := mkConstraint {
  ctype : constraint_type;
  cfun : list cell -> cell
}.

Record problem : Type := mkProblem {
  objective : list cell -> cell;
  x0 : list cell;
  solver : method;
  bounds : list (cell * cell);
  constraints : list constraint
}.

(** [1. / num_assets] is a division of Python numbers: it raises on zero. *)
Definition py_div (x : R) (n : nat) : result cell :=
  match n with
  | O => Raise ZeroDivisionError
  | _ => Ok (Fin (x / INR n))
  end.

(** A Python dict keeps the position of a key's first insertion and the
    value of its last. *)
Definition dict : Type := list (string * cell).

Fixpoint dict_set (d : dict) (k : string) (v : cell) : dict :=
  match d with
  | [] => [(k, v)]
  | (k', v') :: d' =>
      if String.eqb k' k then (k', v) :: d' else (k', v') :: dict_set d' k v
  end.

Definition dict_of_pairs (ps : list (string * cell)) : dict :=
  fold_left (fun d kv => dict_set d (fst kv) (snd kv)) ps [].

Definition sharpe_problem {I} (df : DataFrame I string) : result problem :=
  let mu := expected_returns df in
  let S := covariance df in
  let num_assets := length (columns df) in
  let constraints :=
    [mkConstraint EqZero (fun x => csub (csum x) (Fin 1))] in
  let bounds := repeat (Fin 0, Fin 1) num_assets in
  g <- py_div 1 num_assets ;;
  let initial_guess := repeat g num_assets in
  Ok (mkProblem (negative_sharpe mu S) initial_guess SLSQP bounds constraints).

Definition optimize_portfolio {I} (minimize : problem -> list cell)
           (df : DataFrame I string) : result dict :=
  p <- sharpe_problem df ;;
  let result_x := minimize p in
  Ok (dict_of_pairs (combine (columns df) result_x)).

(** ** [run_monte_carlo]

    [np.random.normal] draws from the process-wide generator.  The
    generator is a state of some type [rng]; a draw returns the variate
    and the next state. *)

Definition SimFrame : Type := DataFrame nat nat.

Definition empty_frame : SimFrame := mkDF [] [] [].

Fixpoint position (x : nat) (ls : list nat) : option nat :=
  match ls with
  | [] => None
  | l :: ls' =>
      if (l =? x)%nat then Some O
      else match position x ls' with
           | Some j => Some (S j)
           | None => None
           end
  end.

Fixpoint replace_nth {A} (j : nat) (a : A) (l : list A) : list A :=
  match l, j with
  | [], _ => []
  | _ :: t, O => a :: t
  | h :: t, S j' => h :: replace_nth j' a t
  end.

(** [df[x] = vals] for a list [vals].  A frame with no rows takes its
    index from the value; otherwise the lengths must agree.  An existing
    label is overwritten, a new one is appended. *)
Definition set_column (df : SimFrame) (x : nat) (vals : list cell)
  : result SimFrame :=
  let place (row : list cell) (v : cell) : list cell :=
    match position x (columns df) with
    | Some j => replace_nth j v row
    | None => row ++ [v]
    end in
  let cols :=
    match position x (columns df) with
    | Some _ => columns df
    | None => columns df ++ [x]
    end in
  match index df, vals with
  | [], _ :: _ =>
      Ok (mkDF (seq 0 (length vals)) cols
               (map (fun v => place (repeat NaN (length (columns df))) v) vals))
  | _, _ =>
      if (length vals =? length (index df))%nat
      then Ok (mkDF (index df) cols
                    (map (fun rv => place (fst rv) (snd rv))
                         (combine (values df) vals)))
      else Raise ValueError
  end.

(** [df.iloc[-1]] raises on a frame without rows. *)
Definition iloc_last {I L} (df : DataFrame I L) : result (list cell) :=
  match values df with
  | [] => Raise IndexError
  | r :: rest => Ok (last rest r)
  end.

Definition last_price_of {I L} (df : DataFrame I L) : result cell :=
  r <- iloc_last df ;; Ok (nanmean r).

Definition daily_vol_of {I L} (df : DataFrame I L) : cell :=
  series_mean (df_std (dropna (pct_change df))).

Definition daily_return_of {I L} (df : DataFrame I L) : cell :=
  series_mean (df_mean (dropna (pct_change df))).

Section MonteCarlo.

Variable rng : Type.
Variable normal : cell -> cell -> rng -> cell * rng.

(** The inner loop [for y in range(days)], with the list and the
    counter it advances. *)
Fixpoint simulate_days (days : nat) (daily_return daily_vol : cell)
         (price_series : list cell) (count : nat) (g : rng)
  : result (list cell * rng) :=
  match days with
  | O => Ok (price_series, g)
  | S days' =>
      prev <- of_option IndexError (nth_error price_series count) ;;
      let (shock, g') := normal daily_return daily_vol g in
      let price := cmul prev (cadd (Fin 1) shock) in
      simulate_days days' daily_return daily_vol
                    (price_series ++ [price]) (count + 1) g'
  end.

(** One pass of the outer loop body, up to the column assignment. *)
Definition simulate_path (last_price daily_return daily_vol : cell)
           (days : nat) (g : rng) : result (list cell * rng) :=
  let count := O in
  let price_series := [] in
  let (shock, g') := normal (Fin 0) daily_vol g in
  let price := cmul last_price (cadd (Fin 1) shock) in
  let price_series := price_series ++ [price] in
  simulate_days days daily_return daily_vol price_series count g'.

(** The outer loop [for x in range(num_simulations)]. *)
Fixpoint simulate_all (xs : list nat)
         (last_price daily_return daily_vol : cell) (days : nat)
         (simulation_df : SimFrame) (g : rng) : result (SimFrame * rng) :=
  match xs with
  | [] => Ok (simulation_df, g)
  | x :: xs' =>
      sg <- simulate_path last_price daily_return daily_vol days g ;;
      simulation_df' <- set_column simulation_df x (fst sg) ;;
      simulate_all xs' last_price daily_return daily_vol days
                   simulation_df' (snd sg)
  end.

Definition run_monte_carlo {I L} (df : DataFrame I L)
           (num_simulations days : nat) (g : rng)
  : result (SimFrame * rng) :=
  last_price <- last_price_of df ;;
  let daily_vol := daily_vol_of df in
  let daily_return := daily_return_of df in
  let simulation_df := empty_frame in
  simulate_all (seq 0 num_simulations) last_price daily_return daily_vol
               days simulation_df g.

End MonteCarlo.

Arguments simulate_days {rng} normal _ _ _ _ _ _.
Arguments simulate_path {rng} normal _ _ _ _ _.
Arguments simulate_all {rng} normal _ _ _ _ _ _ _.
Arguments run_monte_carlo {rng} normal {I L} df num_simulations days g.

Definition default_num_simulations : nat := 200.
Definition default_days : nat := 252.

(** ** [load_data]

    The store holds the two tables of [database/models.py]; a store that
    cannot be opened, or whose tables were never created, makes
    [read_sql] raise. *)

Record StockRow : Type := mkStock {
  stock_key : Z;
  symbol : string;
  sector : string
}.

Record PriceRow : Type := mkPrice {
  stock_id : Z;
  price_date : date;
  close : cell          (* a NULL close is read as NaN *)
}.

Arguments mkStock _%_Z _%_string _%_string.
Arguments mkPrice _%_Z _%_Z _.

Inductive Store : Type :=
| Unavailable
| Tables (stocks : list StockRow) (stock_prices : list PriceRow).

(** One record of the query result: symbol, date, close.  Dates are
    held as the day numbers [pd.to_datetime] parses them to. *)
Definition QueryRow : Type := (string * date * cell)%type.

(** [SELECT stocks.symbol, stock_prices.date, stock_prices.close
     FROM stock_prices JOIN stocks ON stock_prices.stock_id = stocks.id] *)
Definition query (stocks : list StockRow) (prices : list PriceRow)
  : list QueryRow :=
  flat_map (fun p =>
    map (fun s => (symbol s, price_date p, close p))
        (filter (fun s => Z.eqb (stock_id p) (stock_key s)) stocks))
    prices.

Definition read_sql (db : Store) : result (list QueryRow) :=
  match db with
  | Unavailable => Raise OperationalError
  | Tables stocks prices => Ok (query stocks prices)
  end.

(** Sorted lists without repetition, for the labels of a pivot. *)
Fixpoint insert_uniq {A} (cmp : A -> A -> comparison) (a : A) (l : list A)
  : list A :=
  match l with
  | [] => [a]
  | b :: l' =>
      match cmp a b with
      | Lt => a :: l
      | Eq => l
      | Gt => b :: insert_uniq cmp a l'
      end
  end.

Definition sort_uniq {A} (cmp : A -> A -> comparison) (l : list A) : list A :=
  fold_right (insert_uniq cmp) [] l.

Definition same_key (a b : QueryRow) : bool :=
  String.eqb (fst (fst a)) (fst (fst b)) && Z.eqb (snd (fst a)) (snd (fst b)).

Fixpoint has_duplicate_key (rows : list QueryRow) : bool :=
  match rows with
  | [] => false
  | r :: rest => existsb (same_key r) rest || has_duplicate_key rest
  end.

Definition lookup_close (rows : list QueryRow) (d : date) (s : string) : cell :=
  match find (fun r => same_key r (s, d, NaN)) rows with
  | Some r => snd r
  | None => NaN
  end.

(** [df.pivot(index='date', columns='symbol', values='close')]: one row
    per date, one column per symbol, NaN where a symbol has no record on
    a date; two records for one date and symbol make it raise. *)
Definition pivot (rows : list QueryRow) : result PriceMatrix :=
  if has_duplicate_key rows then Raise ValueError
  else
    let dates := sort_uniq Z.compare (map (fun r => snd (fst r)) rows) in
    let symbols := sort_uniq String.compare (map (fun r => fst (fst r)) rows) in
    Ok (mkDF dates symbols
             (map (fun d => map (fun s => lookup_close rows d s) symbols)
                  dates)).

Definition load_data (db : Store) : result PriceMatrix :=
  df <- read_sql db ;;
  df_pivot <- pivot df ;;
  Ok (dropna df_pivot).

(** ** The dashboard script, [app.py]: loaders and selection

    The widgets of the sidebar (lines 54 to 116) are the script's
    input: given the loaded prices and sectors they fail or yield what
    the user has chosen.  The script itself, run top to bottom, is
    embedded further down, after the computations it makes inline. *)

Definition get_data (db : Store) : result PriceMatrix := load_data db.

Definition get_sector_map (db : Store) : result (list (string * string)) :=
  match db with
  | Unavailable => Raise OperationalError
  | Tables stocks _ => Ok (map (fun s => (symbol s, sector s)) stocks)
  end.

Record Sidebar : Type := mkSidebar {
  start_date : date;
  end_date : date;
  selected_tickers : list string;
  optimize_clicked : bool;
  simulate_clicked : bool;
  forecast_days : nat
}.

Definition database_error_msg : string :=
  "⚠️ Database Error. Run 'python -m database.ingest' first.".

Definition no_asset_msg : string := "Please select at least one asset.".

Fixpoint label_position (s : string) (ls : list string) : option nat :=
  match ls with
  | [] => None
  | l :: ls' =>
      if String.eqb l s then Some O
      else match label_position s ls' with
           | Some j => Some (S j)
           | None => None
           end
  end.

Fixpoint positions (sel cols : list string) : result (list nat) :=
  match sel with
  | [] => Ok []
  | s :: sel' =>
      j <- of_option KeyError (label_position s cols) ;;
      js <- positions sel' cols ;;
      Ok (j :: js)
  end.

(** [df_prices.loc[mask, selected_tickers]] with the date mask of line 123. *)
Definition loc (df : PriceMatrix) (d0 d1 : date) (sel : list string)
  : result PriceMatrix :=
  js <- positions sel (columns df) ;;
  let kept := filter (fun ir => Z.leb d0 (fst ir) && Z.leb (fst ir) d1)
                     (combine (index df) (values df)) in
  Ok (mkDF (map fst kept) sel
           (map (fun ir => map (fun j => nth j (snd ir) NaN) js) kept)).

(** ** The program the specification describes

    Written from the specification's words, for comparison with the
    embedding of the source above.  [ReturnsMatrix] is the frame of
    daily returns with the leading row removed. *)

Definition ReturnsMatrix {I L} (df : DataFrame I L) : list (list cell) :=
  values (fst (calculate_metrics df)).

(** Plain mean and sample covariance of complete observations; a sample
    covariance needs two observations. *)
Definition spec_mean (xs : list cell) : cell :=
  cdiv (csum xs) (Fin (INR (length xs))).

Definition spec_cov (xs ys : list cell) : cell :=
  if (length xs <? 2)%nat then NaN
  else
    let mx := spec_mean xs in
    let my := spec_mean ys in
    cdiv (csum (map (fun xy => cmul (csub (fst xy) mx) (csub (snd xy) my))
                    (combine xs ys)))
         (Fin (INR (length xs) - 1)).





(** What it means for a point to satisfy the bounds and constraints a
    problem carries. *)
Definition cle (a b : cell) : Prop :=
  match a, b with
  | NaN, _ | _, NaN => False
  | Fin x, Fin y => x <= y
  | Inf s, Inf t => s = true \/ t = false
  | Inf s, Fin _ => s = true
  | Fin _, Inf t => t = false
  end.

Definition nonneg (c : cell) : Prop := cle (Fin 0) c.

Definition satisfies (c : constraint) (w : list cell) : Prop :=
  match ctype c with
  | EqZero => cfun c w = Fin 0
  | GeZero => nonneg (cfun c w)
  end.

Definition feasible (p : problem) (w : list cell) : Prop :=
  Forall2 (fun wi b => cle (fst b) wi /\ cle wi (snd b)) w (bounds p) /\
  Forall (fun c => satisfies c w) (constraints p).

(** The random walk of one simulated path: each day's price is the
    previous day's price times one plus a fresh draw. *)
Section SpecWalk.

Variable rng : Type.
Variable normal : cell -> cell -> rng -> cell * rng.

Fixpoint spec_walk (days : nat) (mean_daily_return mean_daily_vol : cell)
         (price : cell) (g : rng) : list cell * rng :=
  match days with
  | O => ([], g)
  | S days' =>
      let (shock, g') := normal mean_daily_return mean_daily_vol g in
      let price' := cmul price (cadd (Fin 1) shock) in
      let (rest, g'') :=
        spec_walk days' mean_daily_return mean_daily_vol price' g' in
      (price' :: rest, g'')
  end.

Definition spec_path (start mean_daily_return mean_daily_vol : cell)
           (days : nat) (g : rng) : list cell * rng :=
  let (shock, g') := normal (Fin 0) mean_daily_vol g in
  let price := cmul start (cadd (Fin 1) shock) in
  let (rest, g'') :=
    spec_walk days mean_daily_return mean_daily_vol price g' in
  (price :: rest, g'').

(** [n] runs, one after the other on the same generator. *)
Fixpoint spec_paths (n : nat) (start mean_daily_return mean_daily_vol : cell)
         (days : nat) (g : rng) : list (list cell) * rng :=
  match n with
  | O => ([], g)
  | S n' =>
      let (path, g') :=
        spec_path start mean_daily_return mean_daily_vol days g in
      let (rest, g'') :=
        spec_paths n' start mean_daily_return mean_daily_vol days g' in
      (path :: rest, g'')
  end.

End SpecWalk.

Arguments spec_walk {rng} normal _ _ _ _ _.
Arguments spec_path {rng} normal _ _ _ _ _.
Arguments spec_paths {rng} normal _ _ _ _ _ _.

(** The frame that holds a list of paths of [days + 1] prices each: one
    column per path, one row per day. *)
Definition paths_frame (days : nat) (paths : list (list cell)) : SimFrame :=
  match paths with
  | [] => empty_frame
  | _ :: _ =>
      mkDF (seq 0 (S days)) (seq 0 (length paths))
           (map (fun t => map (fun path => nth t path NaN) paths)
                (seq 0 (S days)))
  end.

(** The scalars of the simulator: the mean over the tickers of each
    ticker's own mean, respectively standard deviation, of daily returns;
    and the mean of the latest prices. *)
Definition spec_per_ticker {I L} (f : list cell -> cell) (df : DataFrame I L)
  : list cell :=
  map (fun j => f (col j (ReturnsMatrix df))) (seq 0 (ncols df)).

Definition spec_mean_daily_return {I L} (df : DataFrame I L) : cell :=
  nanmean (spec_per_ticker nanmean df).

Definition spec_mean_daily_vol {I L} (df : DataFrame I L) : cell :=
  nanmean (spec_per_ticker nanstd df).

Definition spec_start_price {I L} (df : DataFrame I L) : cell :=
  nanmean (last (values df) []).

(** ** Properties of price matrices used below *)

(** The sum of a list of reals, to read a column of finite cells. *)
Definition Rsum (rs : list R) : R := fold_right Rplus 0 rs.

(** Two consecutive prices of one ticker whose quotient is undefined:
    both zero, or both infinite. *)
Definition degenerate (p q : cell) : Prop :=
  match p, q with
  | Fin x, Fin y => x = 0 /\ y = 0
  | Inf _, Inf _ => True
  | _, _ => False
  end.

Definition regular {I L} (df : DataFrame I L) : Prop :=
  forall t j, (S t < nrows df)%nat -> (j < ncols df)%nat ->
              ~ degenerate (cell_at df (S t) j) (cell_at df t j).

Definition positive_price (c : cell) : Prop :=
  exists x, c = Fin x /\ x <> 0.

(** Every price is a finite number other than zero. *)
Definition finite_nonzero {I L} (df : DataFrame I L) : Prop :=
  Forall (Forall positive_price) (values df).

(** ** Sample data *)

Definition flat_zero : PriceMatrix :=
  mkDF [1%Z; 2%Z] ["A"%string] [[Fin 0]; [Fin 0]].

Definition two_days : PriceMatrix :=
  mkDF [1%Z; 2%Z] ["A"%string] [[Fin 1]; [Fin 2]].

Definition three_days : PriceMatrix :=
  mkDF [1%Z; 2%Z; 3%Z] ["A"%string; "B"%string]
       [[Fin 100; Fin 50]; [Fin 110; Fin 50]; [Fin 121; Fin 50]].


Definition no_tickers : PriceMatrix := mkDF [1%Z] [] [[]].

Definition one_day : PriceMatrix := mkDF [1%Z] ["A"%string] [[Fin 1]].

Definition no_days : PriceMatrix := mkDF [] ["A"%string] [].

Definition sample_store : Store :=
  Tables [mkStock 1 "A" "Technology"; mkStock 2 "B" "Finance"]
         [mkPrice 1 1 (Fin 100); mkPrice 2 1 (Fin 50);
          mkPrice 1 2 (Fin 110);
          mkPrice 1 3 (Fin 121); mkPrice 2 3 NaN].

Definition other_store : Store :=
  Tables [mkStock 1 "A" "Technology"] [mkPrice 1 1 (Fin 100)].

Definition empty_store : Store := Tables [] [].

(** A generator that counts its draws: the k-th standard variate drawn
    is k, scaled and shifted as [normal] does. *)
Definition counting_normal (loc scale : cell) (g : nat) : cell * nat :=
  (cadd loc (cmul scale (Fin (INR g))), S g).

(** A solver that stops at once and reports its starting point. *)
Definition idle_minimize (p : problem) : list cell := x0 p.

(** ** Further properties of price matrices *)

(** Every ticker holds one finite, non-zero price on every row. *)
Definition flat_prices {I L} (df : DataFrame I L) : Prop :=
  exists base, Forall positive_price base /\
               Forall (fun r => r = base) (values df).

(** A cell that is zero or undefined. *)
Definition zero_or_nan (c : cell) : Prop := c = NaN \/ c = Fin 0.

(** A generator that also counts the draws made from it. *)
Definition counted {rng : Type} (normal : cell -> cell -> rng -> cell * rng)
  : cell -> cell -> rng * nat -> cell * (rng * nat) :=
  fun loc scale gk =>
    let (z, g') := normal loc scale (fst gk) in (z, (g', S (snd gk))).

(** Two tickers held at 100 over three days. *)
Definition flat_hundred : PriceMatrix :=
  mkDF [1%Z; 2%Z; 3%Z] ["A"%string; "B"%string]
       [[Fin 100; Fin 100]; [Fin 100; Fin 100]; [Fin 100; Fin 100]].

(** ** The content of the store, as [load_data]'s query reads it

    A close [c] is recorded for symbol [s] on date [d] when a row of
    [stock_prices] with that date and close refers to a row of [stocks]
    with that symbol. *)
Definition recorded (db : Store) (s : string) (d : date) (c : cell) : Prop :=
  match db with
  | Unavailable => False
  | Tables stocks prices =>
      exists p st, In p prices /\ In st stocks /\
                   stock_id p = stock_key st /\
                   symbol st = s /\ price_date p = d /\ close p = c
  end.

(** ** Further parts of the dashboard script, [app.py] *)

(** Python's [a > b] on floats: false as soon as one side is NaN. *)
Definition cgtb (a b : cell) : bool :=
  match a, b with
  | NaN, _ | _, NaN => false
  | Fin x, Fin y => if Rlt_dec y x then true else false
  | Inf s, Fin _ => negb s
  | Fin _, Inf t => t
  | Inf s, Inf t => negb s && t
  end.

(** [df.iloc[0]] *)
Definition iloc_first {I L} (df : DataFrame I L) : result (list cell) :=
  match values df with
  | [] => Raise IndexError
  | r :: _ => Ok r
  end.

(** Arithmetic of two series that carry the same labels in the same
    order, as the reductions of one frame do. *)
Definition series_zip {L} (f : cell -> cell -> cell) (a b : Series L)
  : Series L :=
  map (fun p => (fst (fst p), f (snd (fst p)) (snd (snd p)))) (combine a b).

(** Line 171:
    [sharpe = (returns.mean() * 252) / (returns.std() * np.sqrt(252))] *)
Definition sharpe_ratio {I L} (returns : DataFrame I L) : Series L :=
  series_zip cdiv (smap (fun m => cmul m (Fin 252)) (df_mean returns))
                  (smap (fun s => cmul s sqrt252) (df_std returns)).

(** Line 172:
    [momentum = (filtered_prices.iloc[-1] / filtered_prices.iloc[0]) - 1] *)
Definition momentum {I L} (filtered_prices : DataFrame I L)
  : result (Series L) :=
  last_row <- iloc_last filtered_prices ;;
  first_row <- iloc_first filtered_prices ;;
  Ok (combine (columns filtered_prices)
              (map (fun pq => csub (cdiv (fst pq) (snd pq)) (Fin 1))
                   (combine last_row first_row))).

(** One row of [ai_df]. *)
Record AiRow : Type := mkAiRow {
  Sharpe_Ratio : cell;
  Momentum : cell
}.

Definition get_rating (row : AiRow) : string * string :=
  let score := Sharpe_Ratio row in
  if cgtb score (Fin 2) then
    ("STRONG BUY ⭐"%string, "Exceptional risk-adjusted returns."%string)
  else if cgtb score (Fin 1) then
    ("BUY ✅"%string, "Solid performance with acceptable risk."%string)
  else if cgtb score (Fin 0) then
    ("HOLD ✋"%string, "Positive returns but high volatility."%string)
  else
    ("SELL ⚠️"%string, "Negative risk-adjusted performance."%string).

(** [ai_df = pd.DataFrame({'Sharpe Ratio': sharpe, 'Momentum': momentum})] *)
Definition ai_df {I L} (returns filtered_prices : DataFrame I L)
  : result (list (L * AiRow)) :=
  let sharpe := sharpe_ratio returns in
  momentum <- momentum filtered_prices ;;
  Ok (map (fun p => (fst (fst p), mkAiRow (snd (fst p)) (snd (snd p))))
          (combine sharpe momentum)).

(** The ratings tab, lines 171 to 185: one rating and its reason per
    selected ticker, from the returns of line 125. *)
Definition ratings {I L} (filtered_prices : DataFrame I L)
  : result (list (L * (string * string))) :=
  let returns := fst (calculate_metrics filtered_prices) in
  table <- ai_df returns filtered_prices ;;
  Ok (map (fun kv => (fst kv, get_rating (snd kv))) table).

(** Line 207: [clean_w = {k: v for k, v in opt_w.items() if v > 0.01}] *)
Definition clean_w (opt_w : dict) : dict :=
  filter (fun kv => cgtb (snd kv) (Fin (1 / 100))) opt_w.

(** Line 154: [norm_df = filtered_prices / filtered_prices.iloc[0] * 100] *)
Definition norm_df {I L} (filtered_prices : DataFrame I L)
  : result (DataFrame I L) :=
  base <- iloc_first filtered_prices ;;
  Ok (mkDF (index filtered_prices) (columns filtered_prices)
           (map (fun r => map (fun pq => cmul (cdiv (fst pq) (snd pq))
                                              (Fin 100))
                              (combine r base))
                (values filtered_prices))).

(** ** The ingestion job, [database/ingest.py]

    The job works on the two tables of [database/models.py] through one
    session; every change it makes is committed before the function
    that made it returns.  A database whose tables were never created
    makes every query raise.  What is printed to the console is left
    out. *)

(** A row of [stocks]. *)
Record Stock : Type := mkStockRecord {
  st_id : Z;
  st_symbol : string;
  st_name : string;
  st_sector : string
}.

(** A row of [stock_prices]; a float column holds a [cell], the volume
    an integer. *)
Record StockPrice : Type := mkStockPrice {
  sp_id : Z;
  sp_stock_id : Z;
  sp_date : date;
  sp_open : cell;
  sp_high : cell;
  sp_low : cell;
  sp_close : cell;
  sp_volume : Z
}.

Arguments mkStockRecord _%_Z _%_string _%_string _%_string.
Arguments mkStockPrice _%_Z _%_Z _%_Z _ _ _ _ _%_Z.

Inductive Database : Type :=
| NoTables
| Db (stocks : list Stock) (stock_prices : list StockPrice).

(** What [load_data] and [get_sector_map] read of the database. *)
Definition store_of (db : Database) : Store :=
  match db with
  | NoTables => Unavailable
  | Db stocks prices =>
      Tables (map (fun s => mkStock (st_id s) (st_symbol s) (st_sector s))
                  stocks)
             (map (fun p => mkPrice (sp_stock_id p) (sp_date p) (sp_close p))
                  prices)
  end.

(** One row of the frame [yf.download] returns: the day and its five
    columns.  Volumes are whole numbers; one the provider does not know
    is NaN, here [None]. *)
Record Bar : Type := mkBar {
  bar_date : date;
  bar_open : cell;
  bar_high : cell;
  bar_low : cell;
  bar_close : cell;
  bar_volume : option Z
}.

Arguments mkBar _%_Z _ _ _ _ _.

(** [create_database] of [database/models.py]: [create_all] creates the
    tables that do not exist and leaves existing ones as they are. *)
Definition create_database (db : Database) : Database :=
  match db with
  | NoTables => Db [] []
  | Db stocks prices => Db stocks prices
  end.

(** A function of the job: it returns or raises, and leaves the
    database as committed so far. *)
Definition job (A : Type) : Type := Database -> result A * Database.

Definition jbind {A B} (m : job A) (k : A -> job B) : job B :=
  fun db =>
    match m db with
    | (Ok a, db') => k a db'
    | (Raise e, db') => (Raise e, db')
    end.

(** The key SQLite gives to a row inserted without one: one more than
    the largest in use, 1 in an empty table. *)
Definition next_key (keys : list Z) : Z := (1 + fold_right Z.max 0 keys)%Z.

(** [session.query(Stock).filter_by(symbol=symbol).first()] *)
Definition find_stock (symbol : string) (stocks : list Stock) : option Stock :=
  find (fun s => String.eqb (st_symbol s) symbol) stocks.

Definition get_or_create_stock (symbol name sector : string) : job Stock :=
  fun db =>
    match db with
    | NoTables => (Raise OperationalError, db)
    | Db stocks prices =>
        match find_stock symbol stocks with
        | Some stock => (Ok stock, db)
        | None =>
            let stock := mkStockRecord (next_key (map st_id stocks))
                                       symbol name sector in
            (Ok stock, Db (stocks ++ [stock]) prices)
        end
    end.

(** [session.query(func.max(StockPrice.date)).filter_by(stock_id=...)
    .scalar()]: no row, no date. *)
Definition max_date (stock : Z) (prices : list StockPrice) : option date :=
  match map sp_date
            (filter (fun p => Z.eqb (sp_stock_id p) stock) prices) with
  | [] => None
  | d :: ds => Some (fold_left Z.max ds d)
  end.

(** [int(row['Volume'])] raises on NaN. *)
Definition int_of (v : option Z) : result Z := of_option ValueError v.

(** The loop of lines 59 to 70: one record per downloaded row, its key
    still to be given by the insert. *)
Fixpoint new_records (stock : Z) (data : list Bar)
  : result (list (Z -> StockPrice)) :=
  match data with
  | [] => Ok []
  | row :: data' =>
      volume <- int_of (bar_volume row) ;;
      let record := fun key =>
        mkStockPrice key stock (bar_date row) (bar_open row) (bar_high row)
                     (bar_low row) (bar_close row) volume in
      rest <- new_records stock data' ;;
      Ok (record :: rest)
  end.

(** [session.add_all(new_records); session.commit()] *)
Definition add_all (prices : list StockPrice) (records : list (Z -> StockPrice))
  : list StockPrice :=
  fold_left (fun ps record => ps ++ [record (next_key (map sp_id ps))])
            records prices.

Section Ingest.

(** The provider and the clock are outside the program:
    [download symbol start] is the frame [yf.download] returns, [now]
    the day the clock shows. *)
Variable download : string -> date -> list Bar.
Variable now : date.

Definition update_price_history (symbol : string) : job unit :=
  fun db =>
    match db with
    | NoTables => (Raise OperationalError, db)
    | Db stocks prices =>
        match find_stock symbol stocks with
        | None => (Ok tt, db)
        | Some stock =>
            let last_entry := max_date (st_id stock) prices in
            let start_date :=
              match last_entry with
              | Some d => (d + 1)%Z
              | None => (now - 365 * 5)%Z
              end in
            let data := download symbol start_date in
            match data with
            | [] => (Ok tt, db)
            | _ =>
                match new_records (st_id stock) data with
                | Raise e => (Raise e, db)
                | Ok records => (Ok tt, Db stocks (add_all prices records))
                end
            end
        end
    end.

(** The body of the loop of lines 96 to 99. *)
Definition ingest_symbol (sector symbol : string) : job unit :=
  jbind (get_or_create_stock symbol symbol sector)
        (fun _ => update_price_history symbol).

Fixpoint ingest_tickers (sector : string) (tickers : list string)
  : job unit :=
  match tickers with
  | [] => fun db => (Ok tt, db)
  | symbol :: rest =>
      jbind (ingest_symbol sector symbol)
            (fun _ => ingest_tickers sector rest)
  end.

(** The loop of lines 94 to 99 over the items of [sectors]. *)
Fixpoint ingest_sectors (sectors : list (string * list string)) : job unit :=
  match sectors with
  | [] => fun db => (Ok tt, db)
  | (sector, tickers) :: rest =>
      jbind (ingest_tickers sector tickers)
            (fun _ => ingest_sectors rest)
  end.

End Ingest.

(** The assets the job is run for, lines 81 to 90. *)
Definition sectors : list (string * list string) :=
  [("Technology", ["AAPL"; "MSFT"; "GOOGL"; "NVDA"; "AMD"; "INTC"; "CRM";
                   "ORCL"]);
   ("Finance", ["JPM"; "BAC"; "GS"; "MS"; "V"; "MA"; "BLK"]);
   ("Healthcare", ["JNJ"; "PFE"; "UNH"; "LLY"; "MRK"]);
   ("Consumer", ["AMZN"; "TSLA"; "WMT"; "PG"; "KO"; "PEP"; "MCD"]);
   ("Energy/Industrial", ["XOM"; "CVX"; "BA"; "CAT"; "GE"]);
   ("Indices/ETFs", ["SPY"; "QQQ"; "IWM"; "GLD"; "SLV"; "TLT"; "VNQ"]);
   ("Crypto", ["BTC-USD"; "ETH-USD"; "SOL-USD"]);
   ("Forex", ["EURUSD=X"; "GBPUSD=X"; "JPY=X"])]%string.

Definition main (download : string -> date -> list Bar) (now : date)
  : job unit :=
  ingest_sectors download now sectors.

(** The start date [update_price_history] asks the provider for, lines
    41 to 48: the day after the stock's last stored date, or five years
    before today when it has none. *)
Definition start_date_for (now : date) (stock : Stock)
           (prices : list StockPrice) : date :=
  match max_date (st_id stock) prices with
  | Some d => (d + 1)%Z
  | None => (now - 365 * 5)%Z
  end.

(** The invariant of the tables: keys and symbols of [stocks] are not
    repeated (its primary key and its unique constraint), nor are the
    keys of [stock_prices], and no stock has two prices for one date. *)
Definition consistent (db : Database) : Prop :=
  match db with
  | NoTables => False
  | Db stocks prices =>
      NoDup (map st_id stocks) /\
      NoDup (map st_symbol stocks) /\
      NoDup (map sp_id prices) /\
      NoDup (map (fun p => (sp_stock_id p, sp_date p)) prices)
  end.

(** A provider that returns each day once and no day before the start
    it is asked for. *)
Definition honours_start (download : string -> date -> list Bar) : Prop :=
  forall symbol start,
    NoDup (map bar_date (download symbol start)) /\
    Forall (fun row => (start <= bar_date row)%Z) (download symbol start).

(** A provider that knows every volume. *)
Definition knows_volumes (download : string -> date -> list Bar) : Prop :=
  forall symbol start,
    Forall (fun row => bar_volume row <> None) (download symbol start).

Definition stocks_of (db : Database) : list Stock :=
  match db with
  | NoTables => []
  | Db stocks _ => stocks
  end.

Definition prices_of (db : Database) : list StockPrice :=
  match db with
  | NoTables => []
  | Db _ prices => prices
  end.

(** [db'] holds the rows of [db], unchanged and in their order, and
    after them the rows added since. *)
Definition grows (db db' : Database) : Prop :=
  (exists more, stocks_of db' = stocks_of db ++ more) /\
  (exists added, prices_of db' = prices_of db ++ added).

(** What a part of the run guarantees when it starts from consistent
    tables [db] and ends with outcome [r] on tables [db']: the tables
    stay consistent and only grow, nothing but ValueError is raised, and
    nothing at all when the provider knows every volume; after a normal
    end every symbol of [symbols] has its row, and every row is an old
    one or one that [listed] describes. *)
Definition step_ok (download : string -> date -> list Bar)
           (listed : Stock -> Prop) (symbols : list string)
           (db : Database) (r : result unit) (db' : Database) : Prop :=
  consistent db' /\ grows db db' /\
  (r = Ok tt \/ r = Raise ValueError) /\
  (knows_volumes download -> r = Ok tt) /\
  (r = Ok tt ->
   forall symbol, In symbol symbols ->
     exists s, find_stock symbol (stocks_of db') = Some s) /\
  (forall s, In s (stocks_of db') -> In s (stocks_of db) \/ listed s).

(** Sample tables and providers. *)
Definition one_stock : Database :=
  Db [mkStockRecord 1 "A" "A" "Technology"]
     [mkStockPrice 1 1 5 (Fin 1) (Fin 1) (Fin 1) (Fin 1) 10].

Definition daily_provider (symbol : string) (start : date) : list Bar :=
  [mkBar start (Fin 1) (Fin 2) (Fin 1) (Fin 2) (Some 10%Z);
   mkBar (start + 1)%Z (Fin 2) (Fin 3) (Fin 2) (Fin 3) (Some 20%Z)].


(** ** The dashboard script, [app.py], run top to bottom

    The script is run from its first line on every interaction.  Its
    trace lists, in program order, the status messages it shows
    ([st.error], [st.warning], [st.info], [st.success]), the halts
    ([st.stop()]), the calls it makes into the analytics module, and
    the uncaught exception that ends the run if there is one.  A
    message that embeds a computed number (lines 249 and 250) is listed
    by its literal text, the number left out.  Titles, cards, charts and
    the spinner are not part of the trace; the computations made inline
    for them are, since they can raise.  The buttons and sliders of the
    tabs are part of the input, with the sidebar. *)

Inductive call : Type :=
| CalculateMetrics (df : PriceMatrix)
| OptimizePortfolio (df : PriceMatrix)
| RunMonteCarlo (df : PriceMatrix) (num_simulations days : nat).

Inductive event : Type :=
| StError (msg : string)
| StWarning (msg : string)
| StInfo (msg : string)
| StSuccess (msg : string)
| StStop
| Uncaught (e : exn)
| Analytics (c : call).

Definition optimizer_info_msg : string :=
  "The optimizer simulates 5,000+ portfolio combinations to find the mathematical 'Sweet Spot' (Max Sharpe Ratio).".

Definition median_msg : string := "Projected Median Value: $".

Definition worst_case_msg : string := "Worst Case Scenario (5% Risk): $".

(** *** The header cards, lines 131 to 143 *)

(** [numpy.argmax] and [argmin] on values without NaN: the position of
    the first largest (smallest) value. *)
Fixpoint argmax_from (best : nat) (top : cell) (i : nat) (xs : list cell)
  : nat :=
  match xs with
  | [] => best
  | x :: xs' =>
      if cgtb x top then argmax_from i x (S i) xs'
      else argmax_from best top (S i) xs'
  end.

Definition argmax (xs : list cell) : nat :=
  match xs with
  | [] => O
  | x :: xs' => argmax_from O x 1 xs'
  end.

Fixpoint argmin_from (best : nat) (low : cell) (i : nat) (xs : list cell)
  : nat :=
  match xs with
  | [] => best
  | x :: xs' =>
      if cgtb low x then argmin_from i x (S i) xs'
      else argmin_from best low (S i) xs'
  end.

Definition argmin (xs : list cell) : nat :=
  match xs with
  | [] => O
  | x :: xs' => argmin_from O x 1 xs'
  end.

Definition all_missing {L} (s : Series L) : bool :=
  forallb (fun kv => negb (notna (snd kv))) s.

Definition fill_missing {L} (c : cell) (s : Series L) : list cell :=
  map (fun kv => if notna (snd kv) then snd kv else c) s.

(** [Series.idxmax()] as pandas 2 computes it: an empty series raises;
    a series without a defined value yields the missing label NaN, here
    [None] (pandas 3 raises ValueError there); otherwise missing values
    count as -inf and the label of the first largest value is
    returned. *)
Definition idxmax {L} (s : Series L) : result (option L) :=
  match s with
  | [] => Raise ValueError
  | _ :: _ =>
      if all_missing s then Ok None
      else Ok (nth_error (map fst s) (argmax (fill_missing (Inf true) s)))
  end.

Definition idxmin {L} (s : Series L) : result (option L) :=
  match s with
  | [] => Raise ValueError
  | _ :: _ =>
      if all_missing s then Ok None
      else Ok (nth_error (map fst s) (argmin (fill_missing (Inf false) s)))
  end.

(** [s[label]] on a series with distinct labels; the missing label is
    no key. *)
Definition series_get (s : Series string) (label : option string)
  : result cell :=
  match label with
  | None => Raise KeyError
  | Some l =>
      of_option KeyError
        (option_map snd (find (fun kv => String.eqb (fst kv) l) s))
  end.

(** What the four cards show. *)
Record Kpi : Type := mkKpi {
  best_asset : option string;
  best_change : cell;
  worst_asset : option string;
  worst_change : cell;
  portfolio_volatility : cell;
  period_return : cell
}.

Definition kpi (filtered_prices : PriceMatrix) (volatility : Series string)
  : result Kpi :=
  last_changes <- iloc_last (pct_change filtered_prices) ;;
  let daily_change := combine (columns filtered_prices) last_changes in
  best_asset <- idxmax daily_change ;;
  worst_asset <- idxmin daily_change ;;
  growth <- momentum filtered_prices ;;
  let total_growth := series_mean growth in
  best_change <- series_get daily_change best_asset ;;
  worst_change <- series_get daily_change worst_asset ;;
  Ok (mkKpi best_asset best_change worst_asset worst_change
            (series_mean volatility) total_growth).

(** *** The page below the guards, lines 122 to 250 *)

(** Lines 125 to 190, after the call of [calculate_metrics]: the header
    cards, the growth chart's frame and the ratings. *)
Definition header_and_tabs (filtered_prices : PriceMatrix) : result unit :=
  let (returns, volatility) := calculate_metrics filtered_prices in
  _ <- kpi filtered_prices volatility ;;
  _ <- norm_df filtered_prices ;;
  _ <- ratings filtered_prices ;;
  Ok tt.

(** The Monte Carlo tab.  [run_monte_carlo] raises exactly when the
    frame has no row; after it has returned the script shows the median
    and the worst case of the final values. *)
Definition simulation_tab (filtered_prices : PriceMatrix) (ui : Sidebar)
  : list event :=
  if simulate_clicked ui then
    Analytics (RunMonteCarlo filtered_prices default_num_simulations
                             (forecast_days ui))
    :: match iloc_last filtered_prices with
       | Raise e => [Uncaught e]
       | Ok _ => [StSuccess median_msg; StError worst_case_msg]
       end
  else [].

(** The optimization tab, followed by the rest of the page.
    [optimize_portfolio] raises exactly when no problem can be formed,
    whatever the solver does. *)
Definition optimization_tab (filtered_prices : PriceMatrix) (ui : Sidebar)
           (rest : list event) : list event :=
  StInfo optimizer_info_msg
  :: (if optimize_clicked ui then
        Analytics (OptimizePortfolio filtered_prices)
        :: match sharpe_problem filtered_prices with
           | Raise e => [Uncaught e]
           | Ok _ => rest
           end
      else rest).

Definition page (df_prices : PriceMatrix) (ui : Sidebar) : list event :=
  match loc df_prices (start_date ui) (end_date ui) (selected_tickers ui) with
  | Raise e => [Uncaught e]
  | Ok filtered_prices =>
      Analytics (CalculateMetrics filtered_prices)
      :: match header_and_tabs filtered_prices with
         | Raise e => [Uncaught e]
         | Ok _ =>
             optimization_tab filtered_prices ui
                              (simulation_tab filtered_prices ui)
         end
  end.

(** *** The loaders' cache

    [st.cache_data] keeps what a loader returned, for the life of the
    process: a later run gets the kept value and the loader is not
    called.  An exception is not kept. *)

Record Cache : Type := mkCache {
  data_entry : option PriceMatrix;
  sector_entry : option (list (string * string))
}.

Definition empty_cache : Cache := mkCache None None.

Definition cached {A} (entry : option A) (loader : result A)
  : result A * option A :=
  match entry with
  | Some a => (Ok a, Some a)
  | None =>
      match loader with
      | Ok a => (Ok a, Some a)
      | Raise e => (Raise e, None)
      end
  end.

(** One run of the script: its trace and the cache it leaves. *)
Definition script (cache : Cache) (db : Store)
           (sidebar : PriceMatrix -> list (string * string) -> result Sidebar)
  : list event * Cache :=
  let (data, entry1) := cached (data_entry cache) (get_data db) in
  match data with
  | Raise _ =>
      ([StError database_error_msg; StStop],
       mkCache entry1 (sector_entry cache))
  | Ok df_prices =>
      let (sectors, entry2) :=
        cached (sector_entry cache) (get_sector_map db) in
      match sectors with
      | Raise _ =>
          ([StError database_error_msg; StStop], mkCache entry1 entry2)
      | Ok sector_map =>
          (match sidebar df_prices sector_map with
           | Raise e => [Uncaught e]
           | Ok ui =>
               match selected_tickers ui with
               | [] => [StWarning no_asset_msg; StStop]
               | _ :: _ => page df_prices ui
               end
           end, mkCache entry1 entry2)
      end
  end.

(** The first run of a process: nothing is cached yet. *)
Definition app (db : Store)
           (sidebar : PriceMatrix -> list (string * string) -> result Sidebar)
  : list event :=
  fst (script empty_cache db sidebar).

Definition is_analytics (e : event) : bool :=
  match e with Analytics _ => true | _ => false end.

(** ** The analytics functions as programs over the world

    What lies outside a function's result is the database file, the
    process-wide random generator and the objects that exist when it is
    called.  Python passes a frame by reference, so the frames live on
    a heap and a function is handed the address of its matrix.  Each
    function is embedded statement by statement over the operations it
    calls: a pandas method that returns a frame puts a new object on
    the heap, a method called in place or a column assignment
    overwrites the object it is called on, [pd.read_sql] reads the
    file, [np.random.normal] advances the generator.  The series,
    lists, numbers and dictionaries a function builds are values: the
    functions here hand none of them to code that could change it. *)

(** The file [finance.db]: absent, or present with the content
    [read_sql] sees.  Connecting to an absent file creates it, empty. *)
Inductive Disk : Type :=
| NoFile
| File (s : Store).

Inductive object : Type :=
| Prices (df : PriceMatrix)             (* dates by tickers *)
| Records (rows : list QueryRow)        (* the frame [read_sql] returns *)
| Table (m : list (list cell))          (* the frame [cov] returns *)
| Runs (df : SimFrame).                 (* days by simulation runs *)

Definition ref : Type := nat.

Record World (rng : Type) : Type := mkWorld {
  disk : Disk;
  generator : rng;
  heap : list object
}.
Arguments mkWorld {rng} _ _ _.
Arguments disk {rng} _.
Arguments generator {rng} _.
Arguments heap {rng} _.

(** What an address holds, read as a frame of the kind at hand.  The
    functions are given addresses of frames of the right kind; any
    other read yields an empty frame and is never used. *)
Definition prices_at {rng} (w : World rng) (r : ref) : PriceMatrix :=
  match nth_error (heap w) r with
  | Some (Prices df) => df
  | _ => mkDF [] [] []
  end.

Definition records_at {rng} (w : World rng) (r : ref) : list QueryRow :=
  match nth_error (heap w) r with
  | Some (Records rows) => rows
  | _ => []
  end.

Definition table_at {rng} (w : World rng) (r : ref) : list (list cell) :=
  match nth_error (heap w) r with
  | Some (Table m) => m
  | _ => []
  end.

Definition runs_at {rng} (w : World rng) (r : ref) : SimFrame :=
  match nth_error (heap w) r with
  | Some (Runs df) => df
  | _ => empty_frame
  end.

(** A program returns or raises, and leaves a world either way. *)
Definition Prog (rng A : Type) : Type := World rng -> result A * World rng.

Definition pret {rng A} (a : A) : Prog rng A := fun w => (Ok a, w).

Definition praise {rng A} (e : exn) : Prog rng A := fun w => (Raise e, w).

Definition plift {rng A} (r : result A) : Prog rng A := fun w => (r, w).

Definition pbind {rng A B} (m : Prog rng A) (k : A -> Prog rng B)
  : Prog rng B :=
  fun w =>
    match m w with
    | (Ok a, w') => k a w'
    | (Raise e, w') => (Raise e, w')
    end.

Notation "x <~ m ;; k" := (pbind m (fun x => k))
  (at level 61, m at next level, right associativity).

Section Programs.

Variable rng : Type.
Variable normal : cell -> cell -> rng -> cell * rng.
Variable minimize : problem -> list cell.

(** *** The heap *)

(** A new object, at the next free address. *)
Definition new (o : object) : Prog rng ref :=
  fun w => (Ok (length (heap w)),
            mkWorld (disk w) (generator w) (heap w ++ [o])).

(** Overwriting the object at an address. *)
Definition put (r : ref) (o : object) : Prog rng unit :=
  fun w => (Ok tt,
            mkWorld (disk w) (generator w) (replace_nth r o (heap w))).

Definition get_prices (r : ref) : Prog rng PriceMatrix :=
  fun w => (Ok (prices_at w r), w).

Definition get_records (r : ref) : Prog rng (list QueryRow) :=
  fun w => (Ok (records_at w r), w).

Definition get_table (r : ref) : Prog rng (list (list cell)) :=
  fun w => (Ok (table_at w r), w).

Definition get_runs (r : ref) : Prog rng SimFrame :=
  fun w => (Ok (runs_at w r), w).

(** *** pandas and NumPy, by their effect *)

(** [df.pct_change()] and [df.dropna()] return a new frame. *)
Definition pct_change_new (df : ref) : Prog rng ref :=
  d <~ get_prices df ;; new (Prices (pct_change d)).

Definition dropna_new (df : ref) : Prog rng ref :=
  d <~ get_prices df ;; new (Prices (dropna d)).

(** [df.dropna(inplace=True)] changes the frame it is called on. *)
Definition dropna_inplace (df : ref) : Prog rng unit :=
  d <~ get_prices df ;; put df (Prices (dropna d)).

(** [df.std()], [df.mean()], [df.iloc[-1]] and [df.columns] read the
    frame. *)
Definition std_of (df : ref) : Prog rng (Series string) :=
  d <~ get_prices df ;; pret (df_std d).

Definition mean_of (df : ref) : Prog rng (Series string) :=
  d <~ get_prices df ;; pret (df_mean d).

Definition iloc_last_of (df : ref) : Prog rng (list cell) :=
  d <~ get_prices df ;; plift (iloc_last d).

Definition columns_of (df : ref) : Prog rng (list string) :=
  d <~ get_prices df ;; pret (columns d).

(** [df.cov()] returns a new frame, and so does a frame times a
    number. *)
Definition cov_new (df : ref) : Prog rng ref :=
  d <~ get_prices df ;; new (Table (df_cov d)).

Definition times_new (t : ref) (c : cell) : Prog rng ref :=
  m <~ get_table t ;; new (Table (map (map (fun x => cmul x c)) m)).

(** [pd.read_sql(query, engine)] connects to the file, which creates
    it when it is absent, and reads; the frame it returns is new. *)
Definition read_sql_new : Prog rng ref :=
  fun w =>
    match disk w with
    | NoFile =>
        (Raise OperationalError,
         mkWorld (File Unavailable) (generator w) (heap w))
    | File s =>
        match read_sql s with
        | Ok rows => new (Records rows) w
        | Raise e => (Raise e, w)
        end
    end.

(** [df['date'] = pd.to_datetime(df['date'])] assigns a column of the
    frame it is called on; the dates are held parsed already, so the
    frame is overwritten with the rows it has. *)
Definition parse_dates_inplace (df : ref) : Prog rng unit :=
  rows <~ get_records df ;; put df (Records rows).

(** [df.pivot(...)] returns a new frame or raises. *)
Definition pivot_new (df : ref) : Prog rng ref :=
  rows <~ get_records df ;;
  wide <~ plift (pivot rows) ;;
  new (Prices wide).

(** [simulation_df[x] = price_series] assigns a column of the frame
    it is called on. *)
Definition set_column_inplace (df : ref) (x : nat) (vals : list cell)
  : Prog rng unit :=
  d <~ get_runs df ;;
  d' <~ plift (set_column d x vals) ;;
  put df (Runs d').

(** [np.random.normal(loc, scale)] draws from the generator and
    advances it. *)
Definition normal_draw (loc scale : cell) : Prog rng cell :=
  fun w =>
    let (z, g') := normal loc scale (generator w) in
    (Ok z, mkWorld (disk w) g' (heap w)).

(** *** The four functions of [analytics/metrics.py] *)

Definition load_data_prog : Prog rng ref :=
  df <~ read_sql_new ;;
  _ <~ parse_dates_inplace df ;;
  df_pivot <~ pivot_new df ;;
  _ <~ dropna_inplace df_pivot ;;
  pret df_pivot.

Definition calculate_metrics_prog (df : ref)
  : Prog rng (ref * Series string) :=
  changes <~ pct_change_new df ;;
  returns <~ dropna_new changes ;;
  std <~ std_of returns ;;
  let volatility := smap (fun s => cmul s sqrt252) std in
  pret (returns, volatility).

Definition optimize_portfolio_prog (df : ref) : Prog rng dict :=
  changes <~ pct_change_new df ;;
  mean <~ mean_of changes ;;
  let mu := smap (fun m => cmul m (Fin 252)) mean in
  changes' <~ pct_change_new df ;;
  cov <~ cov_new changes' ;;
  S <~ times_new cov (Fin 252) ;;
  cols <~ columns_of df ;;
  let num_assets := length cols in
  let constraints :=
    [mkConstraint EqZero (fun x => csub (csum x) (Fin 1))] in
  let bounds := repeat (Fin 0, Fin 1) num_assets in
  g <~ plift (py_div 1 num_assets) ;;
  let initial_guess := repeat g num_assets in
  (* [negative_sharpe] reads [mu] and [S] when the solver calls it *)
  S_values <~ get_table S ;;
  let result_x :=
    minimize (mkProblem (negative_sharpe mu S_values) initial_guess SLSQP
                        bounds constraints) in
  cols' <~ columns_of df ;;
  pret (dict_of_pairs (combine cols' result_x)).

(** The inner loop [for y in range(days)]. *)
Fixpoint simulate_days_prog (days : nat) (daily_return daily_vol : cell)
         (price_series : list cell) (count : nat)
  : Prog rng (list cell) :=
  match days with
  | O => pret price_series
  | S days' =>
      prev <~ plift (of_option IndexError (nth_error price_series count)) ;;
      shock <~ normal_draw daily_return daily_vol ;;
      let price := cmul prev (cadd (Fin 1) shock) in
      simulate_days_prog days' daily_return daily_vol
                         (price_series ++ [price]) (count + 1)
  end.

(** The outer loop [for x in range(num_simulations)]. *)
Fixpoint simulate_all_prog (xs : list nat)
         (last_price daily_return daily_vol : cell) (days : nat)
         (simulation_df : ref) : Prog rng unit :=
  match xs with
  | [] => pret tt
  | x :: xs' =>
      let count := O in
      let price_series := [] in
      shock <~ normal_draw (Fin 0) daily_vol ;;
      let price := cmul last_price (cadd (Fin 1) shock) in
      let price_series := price_series ++ [price] in
      price_series <~ simulate_days_prog days daily_return daily_vol
                                         price_series count ;;
      _ <~ set_column_inplace simulation_df x price_series ;;
      simulate_all_prog xs' last_price daily_return daily_vol days
                        simulation_df
  end.

Definition run_monte_carlo_prog (df : ref) (num_simulations days : nat)
  : Prog rng ref :=
  last_row <~ iloc_last_of df ;;
  let last_price := nanmean last_row in
  changes <~ pct_change_new df ;;
  returns <~ dropna_new changes ;;
  std <~ std_of returns ;;
  let daily_vol := series_mean std in
  mean <~ mean_of returns ;;
  let daily_return := series_mean mean in
  simulation_df <~ new (Runs empty_frame) ;;
  _ <~ simulate_all_prog (seq 0 num_simulations) last_price daily_return
                         daily_vol days simulation_df ;;
  pret simulation_df.

End Programs.

Arguments new {rng} o w.
Arguments put {rng} r o w.
Arguments read_sql_new {rng} w.
Arguments normal_draw {rng} normal loc scale w.
Arguments load_data_prog {rng} w.
Arguments calculate_metrics_prog {rng} df w.
Arguments optimize_portfolio_prog {rng} minimize df w.
Arguments simulate_days_prog {rng} normal days _ _ _ _ w.
Arguments simulate_all_prog {rng} normal xs _ _ _ days _ w.
Arguments run_monte_carlo_prog {rng} normal df num_simulations days w.

(** [w'] holds every object of [w], unchanged and at its address, and
    after them the objects made since. *)
Definition keeps_objects {rng} (w w' : World rng) : Prop :=
  exists made, heap w' = heap w ++ made.

(** * Theorems *)

(** * Cell arithmetic *)

Lemma Rzero_true : Rzero 0 = true.
Proof. unfold Rzero. destruct (Req_dec_T 0 0); [reflexivity | contradiction]. Qed.

Lemma Rzero_false (x : R) : x <> 0 -> Rzero x = false.
Proof. intros H. unfold Rzero. destruct (Req_dec_T x 0); [contradiction | reflexivity]. Qed.

Lemma Rzero_spec (x : R) : Rzero x = true <-> x = 0.
Proof.
  unfold Rzero. destruct (Req_dec_T x 0); split; intros; auto; discriminate.
Qed.

Lemma Rneg_false (x : R) : 0 <= x -> Rneg x = false.
Proof. intros H. unfold Rneg. destruct (Rlt_dec x 0); [lra | reflexivity]. Qed.

Lemma Rneg_true (x : R) : x < 0 -> Rneg x = true.
Proof. intros H. unfold Rneg. destruct (Rlt_dec x 0); [reflexivity | lra]. Qed.

Lemma cdiv_fin (x y : R) : y <> 0 -> cdiv (Fin x) (Fin y) = Fin (x / y).
Proof. intros H. simpl. rewrite (Rzero_false y H). reflexivity. Qed.

Lemma cdiv_zero_zero : cdiv (Fin 0) (Fin 0) = NaN.
Proof. simpl. rewrite Rzero_true. reflexivity. Qed.

Lemma pct_fin (x y : R) : y <> 0 -> pct (Fin x) (Fin y) = Fin (x / y - 1).
Proof. intros H. unfold pct. rewrite (cdiv_fin x y H). reflexivity. Qed.

(** A return is undefined exactly when one of the two prices is missing
    or the pair is degenerate. *)
Lemma pct_nan_iff (p q : cell) :
  pct p q = NaN <-> p = NaN \/ q = NaN \/ degenerate p q.
Proof.
  unfold pct.
  destruct p as [|s|x], q as [|t|y]; simpl; try tauto;
    try (split; [discriminate | intros [H|[H|H]]; (discriminate || contradiction)]).
  destruct (Rzero y) eqn:Hy; [destruct (Rzero x) eqn:Hx|]; simpl.
  - apply Rzero_spec in Hy, Hx. tauto.
  - split; [discriminate|]. intros [H|[H|[H _]]]; try discriminate.
    apply Rzero_spec in H. congruence.
  - split; [discriminate|]. intros [H|[H|[_ H]]]; try discriminate.
    apply Rzero_spec in H. congruence.
Qed.

(** * Frames *)

Lemma filter_combine_snd {A B} (p : B -> bool) (xs : list A) (ys : list B) :
  length ys = length xs ->
  map snd (filter (fun ir => p (snd ir)) (combine xs ys)) = filter p ys.
Proof.
  revert ys. induction xs as [|x xs IH]; intros [|y ys] Hlen; simpl in *;
    try discriminate; try reflexivity.
  destruct (p y); simpl; rewrite IH by lia; reflexivity.
Qed.

Lemma filter_all_true {A} (p : A -> bool) (l : list A) :
  Forall (fun a => p a = true) l -> filter p l = l.
Proof.
  induction 1 as [|a l Ha _ IH]; simpl; [reflexivity|].
  rewrite Ha, IH. reflexivity.
Qed.

Lemma dropna_values {I L} (df : DataFrame I L) :
  length (values df) = length (index df) ->
  values (dropna df) = filter complete_row (values df).
Proof. intros H. unfold dropna. simpl. apply filter_combine_snd. exact H. Qed.

Lemma dropna_columns {I L} (df : DataFrame I L) :
  columns (dropna df) = columns df.
Proof. reflexivity. Qed.

Lemma dropna_wf {I L} (df : DataFrame I L) : wf df -> wf (dropna df).
Proof.
  intros [Hlen Hrows]. split.
  - unfold dropna. simpl. rewrite !length_map. reflexivity.
  - rewrite dropna_values by exact Hlen. rewrite dropna_columns.
    rewrite Forall_forall in *. intros r Hr. apply filter_In in Hr.
    apply Hrows. tauto.
Qed.

Lemma dropna_no_missing {I L} (df : DataFrame I L) :
  length (values df) = length (index df) ->
  no_missing (dropna df) = true.
Proof.
  intros H. unfold no_missing. rewrite dropna_values by exact H.
  apply forallb_forall. intros r Hr. apply filter_In in Hr. tauto.
Qed.

Lemma length_pct_rows (rows : list (list cell)) (prev : list cell) :
  length (pct_rows prev rows) = length rows.
Proof.
  revert prev. induction rows as [|r rows IH]; intros prev; simpl;
    [reflexivity | rewrite IH; reflexivity].
Qed.

Lemma length_pct_row (prev cur : list cell) :
  length prev = length cur -> length (pct_row prev cur) = length cur.
Proof.
  intros H. unfold pct_row. rewrite length_map, length_combine. lia.
Qed.

Lemma nth_pct_row (prev cur : list cell) (j : nat) :
  length prev = length cur -> (j < length cur)%nat ->
  nth j (pct_row prev cur) NaN = pct (nth j cur NaN) (nth j prev NaN).
Proof.
  intros Hlen Hj. unfold pct_row.
  rewrite (nth_indep _ NaN (pct (fst (NaN, NaN)) (snd (NaN, NaN))))
    by (rewrite length_map, length_combine; lia).
  rewrite (map_nth (fun pq => pct (fst pq) (snd pq))).
  rewrite combine_nth by lia. reflexivity.
Qed.

Lemma nth_pct_rows (rows : list (list cell)) (prev : list cell) (t : nat) :
  (t < length rows)%nat ->
  nth t (pct_rows prev rows) [] =
  pct_row (nth t (prev :: rows) []) (nth (S t) (prev :: rows) []).
Proof.
  revert prev t. induction rows as [|r rows IH]; intros prev t Ht; simpl in Ht;
    [lia|].
  destruct t as [|t]; [reflexivity|].
  simpl pct_rows. change (nth (S t) (pct_row prev r :: pct_rows r rows) [])
    with (nth t (pct_rows r rows) []).
  rewrite IH by lia. reflexivity.
Qed.

Lemma pct_change_wf {I L} (df : DataFrame I L) : wf df -> wf (pct_change df).
Proof.
  intros [Hlen Hrows]. unfold pct_change, wf. simpl.
  destruct (values df) as [|r0 rest] eqn:Hv.
  - split; [exact Hlen | constructor].
  - split.
    + simpl in *. rewrite length_pct_rows. exact Hlen.
    + inversion Hrows as [|? ? Hr0 Hrest]; subst. constructor.
      * rewrite length_map. exact Hr0.
      * clear Hlen Hrows Hv. revert r0 Hr0.
        induction Hrest as [|r rest Hr _ IH]; intros r0 Hr0; simpl;
          constructor.
        -- rewrite length_pct_row; congruence.
        -- apply IH. exact Hr.
Qed.

(** The rows after the first are complete when no return is undefined. *)
Lemma pct_rows_complete (n : nat) (rows : list (list cell)) (prev : list cell) :
  length prev = n ->
  Forall (fun r => length r = n) rows ->
  (forall t j, (t < length rows)%nat -> (j < n)%nat ->
     pct (nth j (nth (S t) (prev :: rows) []) NaN)
         (nth j (nth t (prev :: rows) []) NaN) <> NaN) ->
  Forall (fun r => complete_row r = true) (pct_rows prev rows).
Proof.
  intros Hprev Hrows. revert prev Hprev.
  induction Hrows as [|r rows Hr _ IH]; intros prev Hprev Hok; simpl;
    constructor.
  - unfold complete_row. apply forallb_forall. intros c Hc.
    apply (In_nth _ _ NaN) in Hc. destruct Hc as [j [Hj Hcj]].
    rewrite length_pct_row in Hj by congruence.
    rewrite nth_pct_row in Hcj by (congruence || lia).
    specialize (Hok O j (Nat.lt_0_succ _)). simpl in Hok.
    rewrite Hcj in Hok. destruct c; try reflexivity.
    exfalso. apply Hok; [lia | reflexivity].
  - apply IH; [exact Hr|]. intros t j Ht Hj.
    apply (Hok (S t) j); simpl; lia.
Qed.

Lemma filter_combine_fst_all {A B} (p : B -> bool) (xs : list A) (ys : list B) :
  length ys = length xs ->
  Forall (fun b => p b = true) ys ->
  map fst (filter (fun ir => p (snd ir)) (combine xs ys)) = xs.
Proof.
  revert ys. induction xs as [|x xs IH]; intros [|y ys] Hlen Hall; simpl in *;
    try discriminate; try reflexivity.
  inversion Hall; subst. rewrite H1. simpl. rewrite IH; auto.
Qed.

Lemma no_missing_cell {I L} (df : DataFrame I L) (t j : nat) :
  wf df -> no_missing df = true ->
  (t < nrows df)%nat -> (j < ncols df)%nat ->
  cell_at df t j <> NaN.
Proof.
  intros [Hlen Hrows] Hnm Ht Hj. unfold cell_at, nrows, ncols in *.
  unfold no_missing in Hnm. rewrite forallb_forall in Hnm.
  assert (Hin : In (nth t (values df) []) (values df))
    by (apply nth_In; lia).
  specialize (Hnm _ Hin). rewrite forallb_forall in Hnm.
  rewrite Forall_forall in Hrows. specialize (Hrows _ Hin).
  assert (Hc : In (nth j (nth t (values df) []) NaN) (nth t (values df) []))
    by (apply nth_In; lia).
  specialize (Hnm _ Hc). intros E. rewrite E in Hnm. discriminate.
Qed.

(** After [dropna], the returns are the rows [pct_rows] computes. *)
Lemma returns_rows {I L} (df : DataFrame I L) (r0 : list cell)
      (rest : list (list cell)) :
  wf df -> values df = r0 :: rest -> columns df <> [] ->
  no_missing df = true -> regular df ->
  values (dropna (pct_change df)) = pct_rows r0 rest /\
  index (dropna (pct_change df)) = tl (index df).
Proof.
  intros Hwf Hv Hcols Hnm Hreg.
  pose proof Hwf as [Hlen Hrows].
  assert (Hcomplete : Forall (fun r => complete_row r = true) (pct_rows r0 rest)).
  { rewrite Hv in Hrows. inversion Hrows as [|? ? Hr0 Hrest]; subst.
    apply (pct_rows_complete (length (columns df))); auto.
    intros t j Ht Hj. rewrite pct_nan_iff.
    assert (HSt : (S t < nrows df)%nat)
      by (unfold nrows; rewrite <- Hlen, Hv; simpl; lia).
    pose proof (no_missing_cell df (S t) j Hwf Hnm HSt Hj) as H1.
    pose proof (no_missing_cell df t j Hwf Hnm (Nat.lt_succ_l _ _ HSt) Hj) as H2.
    pose proof (Hreg t j HSt Hj) as H3.
    unfold cell_at in *. rewrite Hv in *. tauto. }
  assert (Hr0 : r0 <> []).
  { rewrite Hv in Hrows. inversion Hrows; subst. destruct r0; [|discriminate].
    destruct (columns df); [contradiction | discriminate]. }
  destruct (index df) as [|i0 idx] eqn:Hi;
    [rewrite Hv in Hlen; discriminate|].
  unfold dropna, pct_change. simpl. rewrite Hv, Hi. simpl.
  assert (Hnan : complete_row (map (fun _ : cell => NaN) r0) = false)
    by (destruct r0; [contradiction | reflexivity]).
  rewrite Hnan. rewrite Hv in Hlen. simpl in Hlen.
  split.
  - rewrite filter_combine_snd by (rewrite length_pct_rows; lia).
    apply filter_all_true. exact Hcomplete.
  - apply filter_combine_fst_all; [rewrite length_pct_rows; lia | exact Hcomplete].
Qed.

(** C1 (as amended).  For a price matrix with no missing value, at least
    one row and one ticker, and no ticker with two consecutive prices
    that are both zero or both infinite, the returns of
    [calculate_metrics] have one row fewer than the prices, carry the
    dates after the first and the same tickers, and hold
    price[t+1]/price[t] - 1 at row t for every ticker; row 0 is
    PriceMatrix[1]/PriceMatrix[0] - 1. *)
Theorem returns_shape_and_values {I L} (df : DataFrame I L) :
  wf df -> values df <> [] -> columns df <> [] ->
  no_missing df = true -> regular df ->
  let returns := fst (calculate_metrics df) in
  nrows returns = (nrows df - 1)%nat /\
  length (values returns) = (length (values df) - 1)%nat /\
  index returns = tl (index df) /\
  columns returns = columns df /\
  forall t j, (S t < nrows df)%nat -> (j < ncols df)%nat ->
    cell_at returns t j
    = csub (cdiv (cell_at df (S t) j) (cell_at df t j)) (Fin 1).
Proof.
  intros Hwf Hne Hcols Hnm Hreg. cbv zeta.
  change (fst (calculate_metrics df)) with (dropna (pct_change df)).
  destruct (values df) as [|r0 rest] eqn:Hv; [contradiction|].
  destruct (returns_rows df r0 rest Hwf Hv Hcols Hnm Hreg) as [Hvals Hidx].
  pose proof Hwf as [Hlen Hrows].
  unfold nrows, ncols, cell_at. rewrite Hvals, Hidx.
  rewrite Hv in Hlen. simpl in Hlen.
  repeat split.
  - destruct (index df); simpl in *; lia.
  - rewrite length_pct_rows. simpl. lia.
  - intros t j Ht Hj. rewrite <- Hlen in Ht.
    rewrite nth_pct_rows by lia.
    rewrite Hv in Hrows. rewrite Forall_forall in Hrows.
    assert (H1 : length (nth t (r0 :: rest) []) = length (columns df))
      by (apply Hrows, nth_In; simpl; lia).
    assert (H2 : length (nth (S t) (r0 :: rest) []) = length (columns df))
      by (apply Hrows, nth_In; simpl; lia).
    rewrite nth_pct_row by lia. rewrite Hv. reflexivity.
Qed.

Lemma three_days_wf : wf three_days.
Proof. split; [reflexivity | repeat constructor]. Qed.

Lemma three_days_regular : regular three_days.
Proof.
  intros t j Ht Hj. unfold nrows, ncols in *. simpl in Ht, Hj.
  destruct t as [|[|t]]; [| |lia];
    (destruct j as [|[|j]]; [| |lia]); simpl; lra.
Qed.

Example three_days_returns :
  values (fst (calculate_metrics three_days))
  = [[Fin (110 / 100 - 1); Fin (50 / 50 - 1)];
     [Fin (121 / 110 - 1); Fin (50 / 50 - 1)]].
Proof.
  unfold calculate_metrics, dropna, pct_change, three_days.
  cbn [fst values index columns pct_rows pct_row combine map snd].
  rewrite !pct_fin by lra. reflexivity.
Qed.

Lemma returns_shape_and_values_witness :
  nrows (fst (calculate_metrics three_days)) = 2%nat /\
  cell_at (fst (calculate_metrics three_days)) 0 0
  = csub (cdiv (Fin 110) (Fin 100)) (Fin 1).
Proof.
  pose proof (returns_shape_and_values three_days three_days_wf
                ltac:(discriminate) ltac:(discriminate) eq_refl
                three_days_regular) as H.
  simpl in H. destruct H as [H1 [_ [_ [_ H5]]]].
  split; [exact H1|].
  apply (H5 O O); unfold nrows, ncols; simpl; lia.
Defined.

(** C1 (as stated) fails: a matrix of two rows of price 0 has no missing
    value and at least one row, yet its returns have no row at all, the
    one return 0/0 - 1 being undefined and dropped.  And a matrix of one
    row without ticker columns keeps its row: a row without cells has no
    missing cell. *)
Lemma returns_row_count_counterexample :
  (wf flat_zero /\ no_missing flat_zero = true /\ nrows flat_zero = 2%nat /\
   nrows (fst (calculate_metrics flat_zero)) = 0%nat /\
   nrows (fst (calculate_metrics flat_zero)) <> (nrows flat_zero - 1)%nat) /\
  (wf no_tickers /\ no_missing no_tickers = true /\
   nrows no_tickers = 1%nat /\
   nrows (fst (calculate_metrics no_tickers)) = 1%nat /\
   nrows (fst (calculate_metrics no_tickers)) <> (nrows no_tickers - 1)%nat).
Proof.
  assert (H : nrows (fst (calculate_metrics flat_zero)) = 0%nat).
  { unfold calculate_metrics, nrows, dropna, pct_change. simpl.
    unfold pct. rewrite cdiv_zero_zero. reflexivity. }
  split.
  - repeat split; try reflexivity; try (repeat constructor).
    + exact H.
    + rewrite H. discriminate.
  - repeat split; try reflexivity; try (repeat constructor).
    discriminate.
Qed.

(** * Sums of cells *)

Lemma fold_cadd_nan (xs : list cell) : fold_left cadd xs NaN = NaN.
Proof. induction xs as [|x xs IH]; simpl; [reflexivity | exact IH]. Qed.

Lemma fold_cadd_not_fin (xs : list cell) (acc : cell) :
  isfinite acc = false -> isfinite (fold_left cadd xs acc) = false.
Proof.
  revert acc. induction xs as [|x xs IH]; intros acc H; simpl; [exact H|].
  apply IH. destruct acc as [|s|a]; try discriminate; destruct x as [|t|b];
    simpl; try reflexivity.
  destruct (Bool.eqb s t); reflexivity.
Qed.

Lemma fold_cadd_fin (rs : list R) (a : R) :
  fold_left cadd (map Fin rs) (Fin a) = Fin (a + Rsum rs).
Proof.
  revert a. induction rs as [|r rs IH]; intros a; simpl.
  - f_equal. lra.
  - rewrite IH. f_equal. lra.
Qed.

Lemma csum_fin (rs : list R) : csum (map Fin rs) = Fin (Rsum rs).
Proof. unfold csum. rewrite fold_cadd_fin. f_equal. lra. Qed.

(** A finite sum has only finite terms. *)
Lemma fold_cadd_fin_inv (xs : list cell) (acc : cell) (z : R) :
  fold_left cadd xs acc = Fin z ->
  exists a rs, acc = Fin a /\ xs = map Fin rs /\ z = a + Rsum rs.
Proof.
  revert acc. induction xs as [|x xs IH]; intros acc H; simpl in H.
  - exists z, []. simpl. repeat split; [exact H | lra].
  - destruct (IH _ H) as [a [rs [Ha [Hxs Hz]]]].
    destruct acc as [|s|b], x as [|t|y]; simpl in Ha; try discriminate;
      try (destruct (Bool.eqb s t); discriminate).
    injection Ha as Ha. exists b, (y :: rs). subst. simpl.
    repeat split. lra.
Qed.

Lemma csum_fin_inv (xs : list cell) (z : R) :
  csum xs = Fin z -> exists rs, xs = map Fin rs /\ z = Rsum rs.
Proof.
  intros H. destruct (fold_cadd_fin_inv xs (Fin 0) z H) as [a [rs [Ha [Hx Hz]]]].
  injection Ha as Ha. exists rs. split; [exact Hx | lra].
Qed.

Lemma fold_cadd_has_nan (xs : list cell) (acc : cell) :
  In NaN xs -> fold_left cadd xs acc = NaN.
Proof.
  revert acc. induction xs as [|x xs IH]; intros acc H; [contradiction|].
  destruct H as [H|H]; simpl.
  - subst. destruct acc; apply fold_cadd_nan.
  - apply IH. exact H.
Qed.

(** An infinite sum has a term that is the same infinity. *)
Lemma fold_cadd_inf_inv (xs : list cell) (acc : cell) (s : bool) :
  fold_left cadd xs acc = Inf s -> acc = Inf s \/ In (Inf s) xs.
Proof.
  revert acc. induction xs as [|x xs IH]; intros acc H; simpl in H;
    [left; exact H|].
  destruct (IH _ H) as [Ha|Hin]; [|right; right; exact Hin].
  destruct acc as [|u|a], x as [|t|y]; simpl in Ha; try discriminate.
  - destruct (Bool.eqb u t); [left; exact Ha | discriminate].
  - left. exact Ha.
  - right. left. exact Ha.
Qed.

Lemma csum_inf_inv (xs : list cell) (s : bool) :
  csum xs = Inf s -> In (Inf s) xs.
Proof.
  intros H. destruct (fold_cadd_inf_inv xs (Fin 0) s H) as [E|E];
    [discriminate | exact E].
Qed.

Lemma Rsum_nonneg (rs : list R) : Forall (fun r => 0 <= r) rs -> 0 <= Rsum rs.
Proof. induction 1; simpl; lra. Qed.

Lemma Rsum_zero (rs : list R) :
  Forall (fun r => 0 <= r) rs -> Rsum rs = 0 -> Forall (fun r => r = 0) rs.
Proof.
  induction 1 as [|r rs Hr Hrs IH]; intros H; [constructor|].
  simpl in H. pose proof (Rsum_nonneg rs Hrs).
  constructor; [lra | apply IH; lra].
Qed.

Lemma INR_pos_neq (n : nat) : (0 < n)%nat -> INR n <> 0.
Proof. intros H. apply not_0_INR. lia. Qed.

Lemma Rneg_INR (n : nat) : Rneg (INR n) = false.
Proof. apply Rneg_false, pos_INR. Qed.

(** * Standard deviation *)

Lemma csquare_fin_inv (c : cell) (r : R) :
  csquare c = Fin r -> exists d, c = Fin d /\ r = d * d.
Proof.
  destruct c as [|s|d]; simpl; try discriminate.
  intros H. injection H as H. exists d. auto.
Qed.

Lemma csquare_inf_inv (c : cell) (s : bool) :
  csquare c = Inf s -> exists t, c = Inf t.
Proof. destruct c as [|t|d]; simpl; try discriminate. eauto. Qed.

Lemma cdiv_count_fin_inv (c : cell) (n : nat) (a : R) :
  (0 < n)%nat -> cdiv c (Fin (INR n)) = Fin a ->
  exists z, c = Fin z /\ a = z / INR n.
Proof.
  intros Hn. destruct c as [|s|z]; simpl; try discriminate.
  rewrite (Rzero_false _ (INR_pos_neq n Hn)).
  intros H. injection H as H. eauto.
Qed.

Lemma cdiv_count_inf_inv (c : cell) (n : nat) (u : bool) :
  (0 < n)%nat -> cdiv c (Fin (INR n)) = Inf u -> c = Inf u.
Proof.
  intros Hn. destruct c as [|s|z]; simpl; try discriminate.
  - rewrite Rneg_INR. destruct s; simpl; auto.
  - rewrite (Rzero_false _ (INR_pos_neq n Hn)). discriminate.
Qed.

(** The sum of squared deviations is never infinite: were the mean
    infinite, the deviation of the infinite term itself is undefined. *)
Lemma deviations_not_inf (v : list cell) (s : bool) :
  (0 < length v)%nat ->
  csum (map (fun x => csquare (csub (cdiv (csum v) (Fin (INR (length v)))) x)) v)
  <> Inf s.
Proof.
  intros Hn H.
  set (avg := cdiv (csum v) (Fin (INR (length v)))) in *.
  assert (Hnonan : ~ In NaN (map (fun x => csquare (csub avg x)) v)).
  { intros Hin. unfold csum in H. rewrite (fold_cadd_has_nan _ _ Hin) in H.
    discriminate. }
  apply csum_inf_inv in H. apply in_map_iff in H.
  destruct H as [x [Hx Hin]]. apply csquare_inf_inv in Hx.
  destruct Hx as [t Hx].
  destruct avg as [|u|a] eqn:Havg.
  - discriminate.
  - apply cdiv_count_inf_inv in Havg; [|exact Hn].
    apply csum_inf_inv in Havg. apply Hnonan.
    apply in_map_iff. exists (Inf u). split; [|exact Havg].
    simpl. rewrite Bool.eqb_reflx. reflexivity.
  - apply cdiv_count_fin_inv in Havg; [|exact Hn].
    destruct Havg as [z [Hz _]]. apply csum_fin_inv in Hz.
    destruct Hz as [rs [Hv _]]. rewrite Hv in Hin.
    apply in_map_iff in Hin. destruct Hin as [r [Hr _]]. subst x.
    discriminate.
Qed.

Lemma nanstd_range (xs : list cell) :
  nanstd xs = NaN \/ exists y, nanstd xs = Fin y /\ 0 <= y.
Proof.
  unfold nanstd, nanvar. set (v := filter notna xs).
  destruct (length v <=? 1)%nat eqn:Hlen; [left; reflexivity|].
  apply Nat.leb_gt in Hlen.
  pose proof (deviations_not_inf v) as Hinf.
  destruct (csum (map (fun x => csquare (csub (cdiv (csum v) (Fin (INR (length v)))) x)) v))
    as [|s|z] eqn:Hs.
  - left. reflexivity.
  - exfalso. apply (Hinf s); [lia | reflexivity].
  - simpl. rewrite Rzero_false by (apply INR_pos_neq; lia). simpl.
    destruct (Rneg (z / INR (length v - 1))); [left; reflexivity|].
    right. eexists. split; [reflexivity | apply sqrt_pos].
Qed.

Lemma nanstd_short (xs : list cell) :
  (length (filter notna xs) < 2)%nat -> nanstd xs = NaN.
Proof.
  intros H. unfold nanstd, nanvar.
  destruct (length (filter notna xs) <=? 1)%nat eqn:E; [reflexivity|].
  apply Nat.leb_gt in E. lia.
Qed.

(** A standard deviation of zero leaves no two observations apart. *)
Lemma nanstd_zero (xs : list cell) :
  nanstd xs = Fin 0 ->
  forall a b, In a (filter notna xs) -> In b (filter notna xs) -> a = b.
Proof.
  unfold nanstd, nanvar. set (v := filter notna xs).
  destruct (length v <=? 1)%nat eqn:Hlen; [discriminate|].
  apply Nat.leb_gt in Hlen.
  set (avg := cdiv (csum v) (Fin (INR (length v)))).
  intros H.
  assert (Hall : forall x, In x v -> x = avg).
  { destruct (cdiv (csum (map (fun x => csquare (csub avg x)) v))
                   (Fin (INR (length v - 1)))) as [|s|y] eqn:Hvar;
      simpl in H; try discriminate; [destruct s; discriminate|].
    destruct (Rneg y) eqn:Hneg; [discriminate|].
    injection H as H.
    apply cdiv_count_fin_inv in Hvar; [|lia].
    destruct Hvar as [z [Hz Hy]].
    apply csum_fin_inv in Hz. destruct Hz as [rs [Hsq Hzs]].
    assert (Hy0 : y = 0).
    { apply sqrt_eq_0; [|exact H]. unfold Rneg in Hneg.
      destruct (Rlt_dec y 0); [discriminate | lra]. }
    assert (Hz0 : z = 0).
    { assert (Hd : INR (length v - 1) <> 0) by (apply INR_pos_neq; lia).
      rewrite Hy0 in Hy. unfold Rdiv in Hy. symmetry in Hy.
      apply Rmult_integral in Hy. destruct Hy as [Hy|Hy]; [exact Hy|].
      exfalso. revert Hy. apply Rinv_neq_0_compat. exact Hd. }
    assert (Hrs : Forall (fun r => 0 <= r) rs).
    { apply Forall_forall. intros r Hr.
      assert (Hin : In (Fin r) (map (fun x => csquare (csub avg x)) v))
        by (rewrite Hsq; apply in_map; exact Hr).
      apply in_map_iff in Hin. destruct Hin as [x [Hx _]].
      apply csquare_fin_inv in Hx. destruct Hx as [d [_ Hd]]. subst r. nra. }
    assert (Hzero : Forall (fun r => r = 0) rs)
      by (apply Rsum_zero; [exact Hrs | lra]).
    intros x Hx.
    assert (Hin : In (csquare (csub avg x)) (map Fin rs))
      by (rewrite <- Hsq; apply in_map_iff; eauto).
    apply in_map_iff in Hin. destruct Hin as [r [Hr Hrin]].
    rewrite Forall_forall in Hzero. rewrite (Hzero r Hrin) in Hr.
    symmetry in Hr. apply csquare_fin_inv in Hr. destruct Hr as [d [Hd Hdd]].
    assert (d = 0) by nra. subst d.
    destruct avg as [|u|a], x as [|t|b]; simpl in Hd; try discriminate;
      try (destruct (Bool.eqb u t); discriminate).
    injection Hd as Hd. f_equal. lra. }
  intros a b Ha Hb. rewrite (Hall a Ha), (Hall b Hb). reflexivity.
Qed.

Lemma sqrt252_fin : sqrt252 = Fin (sqrt 252).
Proof. unfold sqrt252. simpl. rewrite Rneg_false by lra. reflexivity. Qed.

Lemma sqrt252_pos : 0 < sqrt 252.
Proof. apply sqrt_lt_R0. lra. Qed.

Lemma annualize_zero (s : cell) : cmul s sqrt252 = Fin 0 -> s = Fin 0.
Proof.
  rewrite sqrt252_fin. pose proof sqrt252_pos as Hp.
  destruct s as [|t|x]; simpl; try discriminate.
  - destruct (Rzero (sqrt 252)); discriminate.
  - intros H. injection H as H. f_equal.
    apply Rmult_integral in H. destruct H; lra.
Qed.

Lemma annualize_range (s : cell) :
  (s = NaN \/ exists y, s = Fin y /\ 0 <= y) ->
  cmul s sqrt252 = NaN \/ exists x, cmul s sqrt252 = Fin x /\ 0 <= x.
Proof.
  rewrite sqrt252_fin. pose proof sqrt252_pos as Hp.
  intros [H|[y [H Hy]]]; subst; simpl; [left; reflexivity|].
  right. eexists. split; [reflexivity | nra].
Qed.

Lemma filter_notna_fin (rs : list R) : filter notna (map Fin rs) = map Fin rs.
Proof. induction rs; simpl; [reflexivity | rewrite IHrs; reflexivity]. Qed.

Lemma nanstd_fin (rs : list R) :
  (2 <= length rs)%nat -> exists y, nanstd (map Fin rs) = Fin y /\ 0 <= y.
Proof.
  intros Hlen. unfold nanstd, nanvar. rewrite filter_notna_fin, length_map.
  destruct (length rs <=? 1)%nat eqn:E; [apply Nat.leb_le in E; lia|].
  rewrite csum_fin. rewrite cdiv_fin by (apply INR_pos_neq; lia).
  set (a := Rsum rs / INR (length rs)).
  rewrite map_map.
  rewrite (map_ext _ (fun r => Fin ((a - r) * (a - r))))
    by (intros r; reflexivity).
  rewrite <- (map_map (fun r => (a - r) * (a - r)) Fin).
  rewrite csum_fin. rewrite cdiv_fin by (apply INR_pos_neq; lia).
  set (ss := Rsum (map (fun r => (a - r) * (a - r)) rs)).
  assert (Hss : 0 <= ss).
  { apply Rsum_nonneg. apply Forall_forall. intros r Hr.
    apply in_map_iff in Hr. destruct Hr as [x [Hx _]]. subst r.
    apply Rle_0_sqr. }
  assert (Hd : 0 < INR (length rs - 1)) by (apply lt_0_INR; lia).
  assert (Hq : 0 <= ss / INR (length rs - 1)).
  { unfold Rdiv. apply Rmult_le_pos; [exact Hss|].
    left. apply Rinv_0_lt_compat. exact Hd. }
  simpl. rewrite (Rneg_false _ Hq).
  eexists. split; [reflexivity | apply sqrt_pos].
Qed.

(** * Columns and column-wise reductions *)

Lemma length_col (j : nat) (rows : list (list cell)) :
  length (col j rows) = length rows.
Proof. unfold col. apply length_map. Qed.

Lemma col_notna (n j : nat) (rows : list (list cell)) :
  Forall (fun r => length r = n) rows ->
  forallb (forallb notna) rows = true ->
  (j < n)%nat ->
  filter notna (col j rows) = col j rows.
Proof.
  intros Hlen Hnm Hj. apply filter_all_true. apply Forall_forall.
  intros c Hc. unfold col in Hc. apply in_map_iff in Hc.
  destruct Hc as [r [Hc Hr]]. subst c.
  rewrite Forall_forall in Hlen. rewrite forallb_forall in Hnm.
  specialize (Hlen r Hr). specialize (Hnm r Hr).
  rewrite forallb_forall in Hnm. apply Hnm. apply nth_In. lia.
Qed.

Lemma map_fst_combine {A B} (xs : list A) (ys : list B) :
  length xs = length ys -> map fst (combine xs ys) = xs.
Proof.
  revert ys. induction xs as [|x xs IH]; intros [|y ys] H; simpl in *;
    try discriminate; [reflexivity|]. rewrite IH by lia. reflexivity.
Qed.

Lemma map_snd_combine {A B} (xs : list A) (ys : list B) :
  length xs = length ys -> map snd (combine xs ys) = ys.
Proof.
  revert ys. induction xs as [|x xs IH]; intros [|y ys] H; simpl in *;
    try discriminate; [reflexivity|]. rewrite IH by lia. reflexivity.
Qed.

Lemma agg_labels {I L} (f : list cell -> cell) (df : DataFrame I L) :
  map fst (agg f df) = columns df.
Proof.
  unfold agg. apply map_fst_combine. rewrite length_map, length_seq.
  reflexivity.
Qed.

Lemma agg_values {I L} (f : list cell -> cell) (df : DataFrame I L) :
  map snd (agg f df)
  = map (fun j => f (col j (values df))) (seq 0 (length (columns df))).
Proof.
  unfold agg. apply map_snd_combine. rewrite length_map, length_seq.
  reflexivity.
Qed.

Lemma smap_labels {L} (f : cell -> cell) (s : Series L) :
  map fst (smap f s) = map fst s.
Proof. unfold smap. rewrite map_map. reflexivity. Qed.

Lemma smap_values {L} (f : cell -> cell) (s : Series L) :
  map snd (smap f s) = map f (map snd s).
Proof. unfold smap. rewrite !map_map. reflexivity. Qed.

Lemma nth_agg {I L} (f : list cell -> cell) (g : cell -> cell)
      (df : DataFrame I L) (j : nat) :
  (j < length (columns df))%nat ->
  nth j (map snd (smap g (agg f df))) NaN = g (f (col j (values df))).
Proof.
  intros Hj. rewrite smap_values, agg_values, map_map.
  rewrite (nth_indep _ NaN (g (f (col 0 (values df)))))
    by (rewrite length_map, length_seq; exact Hj).
  rewrite (map_nth (fun j => g (f (col j (values df))))).
  rewrite seq_nth by exact Hj. reflexivity.
Qed.

(** * Returns of a matrix of finite, non-zero prices *)

Lemma finite_nonzero_no_missing {I L} (df : DataFrame I L) :
  finite_nonzero df -> no_missing df = true.
Proof.
  intros H. unfold no_missing. apply forallb_forall. intros r Hr.
  apply forallb_forall. intros c Hc. unfold finite_nonzero in H.
  rewrite Forall_forall in H. specialize (H r Hr).
  rewrite Forall_forall in H. destruct (H c Hc) as [x [E _]]. subst.
  reflexivity.
Qed.

Lemma finite_nonzero_cell {I L} (df : DataFrame I L) (t j : nat) :
  wf df -> finite_nonzero df ->
  (t < nrows df)%nat -> (j < ncols df)%nat ->
  positive_price (cell_at df t j).
Proof.
  intros [Hlen Hrows] H Ht Hj. unfold cell_at, nrows, ncols in *.
  unfold finite_nonzero in H. rewrite Forall_forall in H, Hrows.
  assert (Hin : In (nth t (values df) []) (values df))
    by (apply nth_In; lia).
  specialize (H _ Hin). specialize (Hrows _ Hin).
  rewrite Forall_forall in H. apply H. apply nth_In. lia.
Qed.

Lemma finite_nonzero_regular {I L} (df : DataFrame I L) :
  wf df -> finite_nonzero df -> regular df.
Proof.
  intros Hwf H t j Ht Hj.
  destruct (finite_nonzero_cell df (S t) j Hwf H Ht Hj) as [x [Ex Hx]].
  destruct (finite_nonzero_cell df t j Hwf H (Nat.lt_succ_l _ _ Ht) Hj)
    as [y [Ey Hy]].
  rewrite Ex, Ey. simpl. tauto.
Qed.

Lemma pct_row_finite (prev cur : list cell) :
  Forall positive_price prev -> Forall positive_price cur ->
  Forall (fun c => isfinite c = true) (pct_row prev cur).
Proof.
  intros Hp Hc. unfold pct_row. apply Forall_forall. intros c Hin.
  apply in_map_iff in Hin. destruct Hin as [[p q] [E Hin]]. subst c.
  rewrite Forall_forall in Hp, Hc.
  destruct (Hc p (in_combine_l _ _ _ _ Hin)) as [x [Ex _]].
  destruct (Hp q (in_combine_r _ _ _ _ Hin)) as [y [Ey Hy]].
  subst. simpl fst. simpl snd. rewrite pct_fin by exact Hy. reflexivity.
Qed.

Lemma pct_rows_finite (rows : list (list cell)) (prev : list cell) :
  Forall positive_price prev -> Forall (Forall positive_price) rows ->
  Forall (Forall (fun c => isfinite c = true)) (pct_rows prev rows).
Proof.
  intros Hp Hrows. revert prev Hp.
  induction Hrows as [|r rows Hr _ IH]; intros prev Hp; simpl; constructor.
  - apply pct_row_finite; assumption.
  - apply IH. exact Hr.
Qed.

Lemma col_finite (j n : nat) (rows : list (list cell)) :
  Forall (fun r => length r = n) rows ->
  Forall (Forall (fun c => isfinite c = true)) rows ->
  (j < n)%nat ->
  exists rs, col j rows = map Fin rs.
Proof.
  intros Hlen Hfin Hj. induction rows as [|r rows IH].
  - exists []. reflexivity.
  - inversion Hlen as [|? ? Hr Hlen']; subst.
    inversion Hfin as [|? ? Hfr Hfin']; subst.
    destruct (IH Hlen' Hfin') as [rs Hrs].
    assert (Hin : In (nth j r NaN) r) by (apply nth_In; lia).
    rewrite Forall_forall in Hfr. specialize (Hfr _ Hin).
    destruct (nth j r NaN) as [| |x] eqn:E; try discriminate.
    exists (x :: rs).
    change (col j (r :: rows)) with (nth j r NaN :: col j rows).
    rewrite E, Hrs. reflexivity.
Qed.

Lemma pct_rows_lengths (n : nat) (rows : list (list cell)) (prev : list cell) :
  length prev = n -> Forall (fun r => length r = n) rows ->
  Forall (fun r => length r = n) (pct_rows prev rows).
Proof.
  intros Hp Hrows. revert prev Hp.
  induction Hrows as [|r rows Hr _ IH]; intros prev Hp; simpl; constructor.
  - rewrite length_pct_row; congruence.
  - apply IH. exact Hr.
Qed.

(** C2 (as amended).  Over exact arithmetic on finite values, without
    the rounding, overflow and underflow of doubles: the volatility of
    [calculate_metrics] carries one entry per ticker, the standard
    deviation of that ticker's returns times sqrt(252).  An entry is
    never negative: it is either undefined (NaN) or a non-negative
    number.  It is 0 only if all returns of the ticker are identical.
    It is undefined when the ticker has fewer than two returns, and it
    is a non-negative number when the prices are finite, non-zero and
    span at least three rows. *)
Theorem volatility_properties {I L} (df : DataFrame I L) :
  wf df ->
  let returns := fst (calculate_metrics df) in
  let volatility := snd (calculate_metrics df) in
  map fst volatility = columns df /\
  forall j, (j < ncols df)%nat ->
    let r := col j (values returns) in
    let v := nth j (map snd volatility) NaN in
    v = cmul (nanstd r) (csqrt (Fin 252)) /\
    (v = NaN \/ exists x, v = Fin x /\ 0 <= x) /\
    (v = Fin 0 -> forall a b, In a r -> In b r -> a = b) /\
    ((length r < 2)%nat -> v = NaN) /\
    (finite_nonzero df -> (3 <= nrows df)%nat ->
     exists x, v = Fin x /\ 0 <= x).
Proof.
  intros Hwf. cbv zeta.
  change (fst (calculate_metrics df)) with (dropna (pct_change df)).
  change (snd (calculate_metrics df))
    with (smap (fun s => cmul s sqrt252) (df_std (dropna (pct_change df)))).
  set (returns := dropna (pct_change df)).
  assert (Hwr : wf returns) by (apply dropna_wf, pct_change_wf, Hwf).
  assert (Hnm : no_missing returns = true)
    by (apply dropna_no_missing, (pct_change_wf df Hwf)).
  split.
  - rewrite smap_labels. unfold df_std. rewrite agg_labels. reflexivity.
  - intros j Hj. unfold df_std.
    rewrite (nth_agg nanstd (fun s => cmul s sqrt252) returns j) by exact Hj.
    assert (Hcol : filter notna (col j (values returns)) = col j (values returns)).
    { apply (col_notna (length (columns returns))); [apply Hwr | exact Hnm | exact Hj]. }
    repeat split.
    + apply annualize_range, nanstd_range.
    + intros H0. apply annualize_zero in H0.
      pose proof (nanstd_zero _ H0) as Hid. rewrite Hcol in Hid. exact Hid.
    + intros Hlen. rewrite nanstd_short; [reflexivity|].
      rewrite Hcol. exact Hlen.
    + intros Hfin Hrows.
      destruct (values df) as [|r0 rest] eqn:Hv.
      { destruct Hwf as [Hl _]. unfold nrows in Hrows. rewrite Hv in Hl.
        simpl in Hl. lia. }
      assert (Hcols : columns df <> [])
        by (unfold ncols in Hj; destruct (columns df); [simpl in Hj; lia | discriminate]).
      destruct (returns_rows df r0 rest Hwf Hv Hcols
                  (finite_nonzero_no_missing df Hfin)
                  (finite_nonzero_regular df Hwf Hfin)) as [Hvals _].
      fold returns in Hvals. rewrite Hvals.
      unfold finite_nonzero in Hfin. rewrite Hv in Hfin.
      inversion Hfin as [|? ? Hr0 Hrest]; subst.
      pose proof Hwf as [Hl Hlens]. rewrite Hv in Hlens.
      inversion Hlens as [|? ? Hl0 Hlrest]; subst.
      destruct (col_finite j (length (columns df)) (pct_rows r0 rest))
        as [rs Hrs].
      * apply pct_rows_lengths; assumption.
      * apply pct_rows_finite; assumption.
      * exact Hj.
      * rewrite Hrs.
        assert (Hlen : (2 <= length rs)%nat).
        { rewrite <- (length_map Fin), <- Hrs, length_col, length_pct_rows.
          unfold nrows in Hrows. rewrite Hv in Hl. simpl in Hl. lia. }
        destruct (nanstd_fin rs Hlen) as [y [Hy Hy0]]. rewrite Hy.
        rewrite sqrt252_fin. simpl. eexists. split; [reflexivity|].
        pose proof sqrt252_pos. nra.
Qed.

Lemma volatility_properties_witness :
  map fst (snd (calculate_metrics three_days)) = ["A"%string; "B"%string] /\
  (nth 0 (map snd (snd (calculate_metrics three_days))) NaN = NaN \/
   exists x, nth 0 (map snd (snd (calculate_metrics three_days))) NaN = Fin x
             /\ 0 <= x).
Proof.
  destruct (volatility_properties three_days three_days_wf) as [Hk Hv].
  split; [exact Hk|].
  destruct (Hv O ltac:(unfold ncols; simpl; lia)) as [_ [Hr _]].
  exact Hr.
Defined.

(** C2 (as stated) fails: a matrix of two rows has no missing value, yet
    each ticker has a single return, whose standard deviation with one
    degree of freedom removed is undefined; the volatility is NaN, which
    is not a non-negative number. *)
Lemma volatility_counterexample :
  wf two_days /\ no_missing two_days = true /\
  snd (calculate_metrics two_days) = [("A"%string, NaN)] /\
  ~ nonneg NaN.
Proof.
  repeat split; try (repeat constructor).
  - unfold calculate_metrics, dropna, pct_change. simpl.
    rewrite pct_fin by lra. simpl. rewrite pct_fin by lra. reflexivity.
  - intros H. exact H.
Qed.

(** * The optimizer's inputs *)



Lemma spec_mean_nil : spec_mean [] = NaN.
Proof. unfold spec_mean. simpl. rewrite Rzero_true. reflexivity. Qed.

Lemma nanmean_fin (rs : list R) : nanmean (map Fin rs) = spec_mean (map Fin rs).
Proof.
  unfold nanmean. rewrite filter_notna_fin.
  destruct rs as [|r rs]; [symmetry; apply spec_mean_nil | reflexivity].
Qed.




Lemma nancov_nil : nancov [] [] = spec_cov [] [].
Proof. reflexivity. Qed.


Lemma returns_finite {I L} (df : DataFrame I L) (r0 : list cell)
      (rest : list (list cell)) :
  wf df -> finite_nonzero df -> columns df <> [] -> values df = r0 :: rest ->
  ReturnsMatrix df = pct_rows r0 rest /\
  forall j, (j < ncols df)%nat ->
    exists rs, col j (pct_rows r0 rest) = map Fin rs /\
               length rs = length rest.
Proof.
  intros Hwf Hfin Hcols Hv.
  destruct (returns_rows df r0 rest Hwf Hv Hcols
              (finite_nonzero_no_missing df Hfin)
              (finite_nonzero_regular df Hwf Hfin)) as [Hvals _].
  split; [exact Hvals|].
  intros j Hj.
  unfold finite_nonzero in Hfin. rewrite Hv in Hfin.
  inversion Hfin as [|? ? Hr0 Hrest]; subst.
  destruct Hwf as [_ Hlens]. rewrite Hv in Hlens.
  inversion Hlens as [|? ? Hl0 Hlrest]; subst.
  destruct (col_finite j (length (columns df)) (pct_rows r0 rest)) as [rs Hrs].
  - apply pct_rows_lengths; assumption.
  - apply pct_rows_finite; assumption.
  - exact Hj.
  - exists rs. split; [exact Hrs|].
    rewrite <- (length_map Fin), <- Hrs, length_col, length_pct_rows.
    reflexivity.
Qed.



(** * Bounds and constraints *)

Lemma unit_interval (c : cell) :
  cle (Fin 0) c /\ cle c (Fin 1) <-> exists x, c = Fin x /\ 0 <= x <= 1.
Proof.
  destruct c as [|s|x]; simpl.
  - split; [tauto | intros [x [H _]]; discriminate].
  - split; [intros [H1 H2]; congruence | intros [x [H _]]; discriminate].
  - split; [intros [H1 H2]; exists x; split; [reflexivity | lra]|].
    intros [y [E Hy]]. injection E as E. subst. lra.
Qed.

Lemma bounds_unit (n : nat) (w : list cell) :
  Forall2 (fun wi b => cle (fst b) wi /\ cle wi (snd b)) w
          (repeat (Fin 0, Fin 1) n)
  <-> length w = n /\ Forall (fun c => exists x, c = Fin x /\ 0 <= x <= 1) w.
Proof.
  revert w. induction n as [|n IH]; intros w; simpl.
  - split.
    + intros H. inversion H. split; [reflexivity | constructor].
    + intros [H _]. destruct w; [constructor | discriminate].
  - split.
    + intros H. inversion H as [|c b w' bs Hc Hw]; subst.
      apply IH in Hw. destruct Hw as [Hl Hf]. simpl in Hc.
      split; [simpl; lia|]. constructor; [apply unit_interval, Hc | exact Hf].
    + intros [Hl Hf]. destruct w as [|c w]; [discriminate|].
      inversion Hf; subst. constructor.
      * simpl. apply unit_interval. assumption.
      * apply IH. split; [simpl in Hl; lia | assumption].
Qed.

Lemma sum_to_one (w : list cell) :
  csub (csum w) (Fin 1) = Fin 0 <-> csum w = Fin 1.
Proof.
  destruct (csum w) as [|s|z]; simpl.
  - split; discriminate.
  - split; discriminate.
  - split; intros H; injection H as H; f_equal; lra.
Qed.


(** * The simulation loops *)

Section Simulation.

Variable rng : Type.
Variable normal : cell -> cell -> rng -> cell * rng.

Lemma nth_error_last {A} (l : list A) (a d : A) :
  nth_error (l ++ [a]) (length l) = Some a.
Proof.
  rewrite nth_error_app2 by lia. rewrite Nat.sub_diag. reflexivity.
Qed.

(** The inner loop reads the price it appended last: the list grows by
    the walk that starts from that price. *)
Lemma simulate_days_walk (days : nat) (mr mv : cell) (ps : list cell)
      (p : cell) (g : rng) :
  simulate_days normal days mr mv (ps ++ [p]) (length ps) g
  = Ok ((ps ++ [p]) ++ fst (spec_walk normal days mr mv p g),
        snd (spec_walk normal days mr mv p g)).
Proof.
  revert ps p g. induction days as [|days IH]; intros ps p g.
  - simpl. rewrite app_nil_r. reflexivity.
  - cbn [simulate_days spec_walk].
    rewrite (nth_error_last ps p p). cbn [of_option rbind].
    destruct (normal mr mv g) as [shock g'].
    replace (length ps + 1)%nat with (length (ps ++ [p]))
      by (rewrite length_app; reflexivity).
    rewrite IH.
    destruct (spec_walk normal days mr mv (cmul p (cadd (Fin 1) shock)) g')
      as [rest g''].
    cbn [fst snd]. rewrite <- !app_assoc. reflexivity.
Qed.

Lemma simulate_path_spec (start mr mv : cell) (days : nat) (g : rng) :
  simulate_path normal start mr mv days g
  = Ok (spec_path normal start mr mv days g).
Proof.
  unfold simulate_path, spec_path.
  destruct (normal (Fin 0) mv g) as [shock g'].
  change ([] ++ [cmul start (cadd (Fin 1) shock)])
    with (@nil cell ++ [cmul start (cadd (Fin 1) shock)]).
  rewrite (simulate_days_walk days mr mv [] _ g').
  destruct (spec_walk normal days mr mv (cmul start (cadd (Fin 1) shock)) g')
    as [rest g''].
  reflexivity.
Qed.

Lemma length_spec_walk (days : nat) (mr mv p : cell) (g : rng) :
  length (fst (spec_walk normal days mr mv p g)) = days.
Proof.
  revert p g. induction days as [|days IH]; intros p g; [reflexivity|].
  cbn [spec_walk]. destruct (normal mr mv g) as [shock g'].
  specialize (IH (cmul p (cadd (Fin 1) shock)) g').
  destruct (spec_walk normal days mr mv (cmul p (cadd (Fin 1) shock)) g').
  simpl in *. rewrite IH. reflexivity.
Qed.

Lemma length_spec_path (start mr mv : cell) (days : nat) (g : rng) :
  length (fst (spec_path normal start mr mv days g)) = S days.
Proof.
  unfold spec_path. destruct (normal (Fin 0) mv g) as [shock g'].
  pose proof (length_spec_walk days mr mv (cmul start (cadd (Fin 1) shock)) g')
    as H.
  destruct (spec_walk normal days mr mv (cmul start (cadd (Fin 1) shock)) g').
  simpl in *. rewrite H. reflexivity.
Qed.

Lemma spec_paths_lengths (n : nat) (start mr mv : cell) (days : nat) (g : rng) :
  length (fst (spec_paths normal n start mr mv days g)) = n /\
  Forall (fun p => length p = S days)
         (fst (spec_paths normal n start mr mv days g)).
Proof.
  revert g. induction n as [|n IH]; intros g.
  - split; [reflexivity | constructor].
  - cbn [spec_paths].
    pose proof (length_spec_path start mr mv days g) as Hp.
    destruct (spec_path normal start mr mv days g) as [path g'].
    specialize (IH g').
    destruct (spec_paths normal n start mr mv days g') as [rest g''].
    simpl in *. destruct IH as [Hl Hf]. split; [lia|].
    constructor; assumption.
Qed.


(** ** Column assignment *)

Lemma position_fresh (x a n : nat) :
  (a + n <= x)%nat -> position x (seq a n) = None.
Proof.
  revert a. induction n as [|n IH]; intros a H; simpl; [reflexivity|].
  destruct (Nat.eqb_spec a x); [lia|]. rewrite IH by lia. reflexivity.
Qed.

Lemma map_seq_nth {A B} (f : A -> B) (l : list A) (d : A) :
  map f l = map (fun t => f (nth t l d)) (seq 0 (length l)).
Proof.
  induction l as [|a l IH]; [reflexivity|]. simpl. f_equal.
  rewrite <- seq_shift, map_map. exact IH.
Qed.

Lemma list_as_nth {A} (l : list A) (d : A) :
  l = map (fun t => nth t l d) (seq 0 (length l)).
Proof.
  rewrite <- (map_seq_nth (fun a => a) l d). symmetry. apply map_id.
Qed.

Lemma combine_map_same {A B C} (f : A -> B) (g : A -> C) (l : list A) :
  combine (map f l) (map g l) = map (fun a => (f a, g a)) l.
Proof. induction l; simpl; [reflexivity | rewrite IHl; reflexivity]. Qed.

Lemma set_column_append (days : nat) (paths : list (list cell))
      (path : list cell) :
  length path = S days ->
  set_column (paths_frame days paths) (length paths) path
  = Ok (paths_frame days (paths ++ [path])).
Proof.
  intros Hlen. destruct paths as [|p ps].
  - destruct path as [|c cs]; [discriminate|].
    change (paths_frame days ([] ++ [c :: cs]))
      with (mkDF (seq 0 (S days)) [O]
                 (map (fun t => [nth t (c :: cs) NaN]) (seq 0 (S days)))).
    change (set_column (paths_frame days []) (length (@nil (list cell))) (c :: cs))
      with (@Ok SimFrame
              (mkDF (seq 0 (length (c :: cs))) [O]
                    (map (fun v => [v]) (c :: cs)))).
    rewrite (map_seq_nth (fun v => [v]) (c :: cs) NaN), Hlen. reflexivity.
  - unfold set_column.
    change (paths_frame days (p :: ps))
      with (mkDF (seq 0 (S days)) (seq 0 (length (p :: ps)))
                 (map (fun t => map (fun q => nth t q NaN) (p :: ps))
                      (seq 0 (S days)))).
    cbn [index columns values].
    rewrite position_fresh by lia.
    change (seq 0 (S days)) with (O :: seq 1 days) at 1.
    cbv iota. rewrite length_seq, Hlen, Nat.eqb_refl.
    assert (Hvals :
      map (fun rv : list cell * cell => fst rv ++ [snd rv])
          (combine (map (fun t => map (fun q => nth t q NaN) (p :: ps))
                        (seq 0 (S days)))
                   path)
      = map (fun t => map (fun q => nth t q NaN) ((p :: ps) ++ [path]))
            (seq 0 (S days))).
    { rewrite (list_as_nth path NaN) at 1. rewrite Hlen.
      rewrite combine_map_same, map_map.
      apply map_ext. intros t. cbn [fst snd].
      rewrite map_app. reflexivity. }
    rewrite Hvals.
    assert (Hcols : seq 0 (length (p :: ps)) ++ [length (p :: ps)]
                    = seq 0 (length ((p :: ps) ++ [path]))).
    { rewrite length_app, Nat.add_comm. cbn [length Nat.add].
      rewrite <- seq_S. reflexivity. }
    rewrite Hcols. reflexivity.
Qed.

(** ** The outer loop *)

Lemma simulate_all_paths (n : nat) (start mr mv : cell) (days : nat)
      (paths : list (list cell)) (g : rng) :
  simulate_all normal (seq (length paths) n) start mr mv days
               (paths_frame days paths) g
  = Ok (paths_frame days
          (paths ++ fst (spec_paths normal n start mr mv days g)),
        snd (spec_paths normal n start mr mv days g)).
Proof.
  revert paths g. induction n as [|n IH]; intros paths g.
  - simpl. rewrite app_nil_r. reflexivity.
  - cbn [seq simulate_all spec_paths].
    rewrite simulate_path_spec. cbn [rbind].
    pose proof (length_spec_path start mr mv days g) as Hp.
    destruct (spec_path normal start mr mv days g) as [path g'].
    cbn [fst snd] in *.
    rewrite (set_column_append days paths path Hp). cbn [rbind].
    replace (S (length paths)) with (length (paths ++ [path]))
      by (rewrite length_app; simpl; lia).
    rewrite IH.
    destruct (spec_paths normal n start mr mv days g') as [rest g''].
    cbn [fst snd]. rewrite <- app_assoc. reflexivity.
Qed.

End Simulation.

(** * The simulator *)

Lemma last_cons_default {A} (r : A) (rest : list A) (d : A) :
  last (r :: rest) d = last rest r.
Proof.
  revert r d. induction rest as [|a rest IH]; intros r d; [reflexivity|].
  change (last (r :: a :: rest) d) with (last (a :: rest) d).
  rewrite (IH a d), (IH a r). reflexivity.
Qed.

Lemma last_price_spec {I L} (df : DataFrame I L) :
  values df <> [] -> last_price_of df = Ok (spec_start_price df).
Proof.
  intros H. unfold last_price_of, iloc_last, spec_start_price.
  destruct (values df) as [|r rest]; [contradiction|].
  cbn [rbind]. rewrite last_cons_default. reflexivity.
Qed.

Lemma daily_return_spec {I L} (df : DataFrame I L) :
  daily_return_of df = spec_mean_daily_return df.
Proof.
  unfold daily_return_of, series_mean, df_mean. rewrite agg_values.
  reflexivity.
Qed.

Lemma daily_vol_spec {I L} (df : DataFrame I L) :
  daily_vol_of df = spec_mean_daily_vol df.
Proof.
  unfold daily_vol_of, series_mean, df_std. rewrite agg_values.
  reflexivity.
Qed.

Lemma paths_frame_wf (days : nat) (paths : list (list cell)) :
  wf (paths_frame days paths).
Proof.
  destruct paths as [|p ps]; [split; [reflexivity | constructor]|].
  unfold paths_frame, wf. cbn [index columns values]. split.
  - rewrite length_map. reflexivity.
  - apply Forall_forall. intros r Hr. apply in_map_iff in Hr.
    destruct Hr as [t [Hr _]]. subst r.
    rewrite length_map, length_seq. reflexivity.
Qed.


Section Simulator.

Variable rng : Type.
Variable normal : cell -> cell -> rng -> cell * rng.

Lemma run_monte_carlo_paths {I L} (df : DataFrame I L) (n days : nat)
      (g : rng) :
  values df <> [] ->
  run_monte_carlo normal df n days g
  = Ok (paths_frame days
          (fst (spec_paths normal n (spec_start_price df)
                           (spec_mean_daily_return df)
                           (spec_mean_daily_vol df) days g)),
        snd (spec_paths normal n (spec_start_price df)
                        (spec_mean_daily_return df)
                        (spec_mean_daily_vol df) days g)).
Proof.
  intros Hv. unfold run_monte_carlo.
  rewrite (last_price_spec df Hv). cbn [rbind].
  rewrite daily_return_spec, daily_vol_spec.
  exact (simulate_all_paths rng normal n _ _ _ days [] g).
Qed.




End Simulator.

(** C5 (as amended).  On a price matrix without rows [run_monte_carlo]
    raises.  Otherwise it returns a frame with one column per simulation
    run and one row per day: D+1 rows (the initial shocked price and one
    per simulated day) and N columns when N is at least 1, and the empty
    frame when N is 0.  For N = 1 and D = 0 it holds the single value
    mean(latest price row) * (1 + shock), the shock drawn from
    Normal(0, daily_vol). *)
Theorem run_monte_carlo_shape {rng : Type}
        (normal : cell -> cell -> rng -> cell * rng)
        {I L} (df : DataFrame I L) (N D : nat) (g : rng) :
  match run_monte_carlo normal df N D g with
  | Raise e => values df = [] /\ e = IndexError
  | Ok (sim, g') =>
      values df <> [] /\
      wf sim /\
      columns sim = seq 0 N /\
      shape sim = (if (N =? 0)%nat then (0, 0) else (S D, N))%nat /\
      length (values sim) = fst (shape sim) /\
      (N = 1%nat -> D = 0%nat ->
       values sim
       = [[cmul (spec_start_price df)
                (cadd (Fin 1)
                      (fst (normal (Fin 0) (spec_mean_daily_vol df) g)))]])
  end.
Proof.
  destruct (values df) as [|r0 rest] eqn:Hv.
  { unfold run_monte_carlo, last_price_of, iloc_last. rewrite Hv.
    split; reflexivity. }
  assert (Hne : values df <> []) by (rewrite Hv; discriminate).
  rewrite (run_monte_carlo_paths rng normal df N D g Hne).
  set (start := spec_start_price df).
  set (mr := spec_mean_daily_return df).
  set (mv := spec_mean_daily_vol df).
  destruct (spec_paths_lengths rng normal N start mr mv D g) as [Hn Hlens].
  split; [discriminate|].
  split; [apply paths_frame_wf|].
  assert (Hshape : forall paths, length paths = N ->
            columns (paths_frame D paths) = seq 0 N /\
            shape (paths_frame D paths)
            = (if (N =? 0)%nat then (0, 0) else (S D, N))%nat /\
            length (values (paths_frame D paths))
            = fst (shape (paths_frame D paths))).
  { intros [|p ps] Hl; simpl in Hl; subst N; [repeat split|].
    unfold paths_frame, shape, nrows, ncols. cbn [index columns values fst].
    rewrite length_map, !length_seq. repeat split. }
  destruct (Hshape _ Hn) as [H1 [H2 H3]].
  repeat split; try assumption.
  intros HN HD. subst N D. cbn [spec_paths]. unfold spec_path.
  cbn [spec_walk]. destruct (normal (Fin 0) mv g) as [shock g']. reflexivity.
Qed.

(** C5 (as stated) fails: two runs over a horizon of zero days give a
    frame of one row and two columns, not of N = 2 rows and D + 1 = 1
    column; each run is a column.  And on a price matrix without rows
    nothing is returned: the latest row does not exist. *)
Lemma run_monte_carlo_shape_counterexample :
  (exists sim g',
      run_monte_carlo counting_normal one_day 2 0 O = Ok (sim, g') /\
      shape sim = (1, 2)%nat /\ shape sim <> (2, 0 + 1)%nat) /\
  run_monte_carlo counting_normal no_days 2 0 O = Raise IndexError.
Proof.
  split; [|reflexivity].
  eexists. eexists. split; [reflexivity|]. split; [reflexivity | discriminate].
Qed.


(** * Labels of a pivot *)

Section SortUniq.

Variable A : Type.
Variable cmp : A -> A -> comparison.
Variable lt : A -> A -> Prop.

Hypothesis cmp_eq : forall a b, cmp a b = Eq <-> a = b.
Hypothesis cmp_lt : forall a b, cmp a b = Lt <-> lt a b.
Hypothesis cmp_gt : forall a b, cmp a b = Gt <-> lt b a.
Hypothesis lt_trans : forall a b c, lt a b -> lt b c -> lt a c.
Hypothesis lt_irrefl : forall a, ~ lt a a.

Lemma insert_uniq_In (a x : A) (l : list A) :
  In x (insert_uniq cmp a l) <-> x = a \/ In x l.
Proof.
  induction l as [|b l IH]; simpl; [intuition|].
  destruct (cmp a b) eqn:E; simpl.
  - apply cmp_eq in E. subst. intuition.
  - intuition.
  - rewrite IH. intuition.
Qed.

Lemma insert_uniq_sorted (a : A) (l : list A) :
  StronglySorted lt l -> StronglySorted lt (insert_uniq cmp a l).
Proof.
  induction 1 as [|b l Hs IH Hb]; simpl; [repeat constructor|].
  destruct (cmp a b) eqn:E.
  - constructor; assumption.
  - apply cmp_lt in E. constructor; [constructor; assumption|].
    constructor; [exact E|]. rewrite Forall_forall in *.
    intros x Hx. eapply lt_trans; [exact E | apply Hb, Hx].
  - apply cmp_gt in E. constructor; [exact IH|].
    rewrite Forall_forall in *. intros x Hx.
    apply insert_uniq_In in Hx. destruct Hx as [Hx|Hx];
      [subst; exact E | apply Hb, Hx].
Qed.

Lemma sort_uniq_sorted (l : list A) : StronglySorted lt (sort_uniq cmp l).
Proof.
  induction l as [|a l IH]; simpl; [constructor|].
  apply insert_uniq_sorted, IH.
Qed.

Lemma sort_uniq_In (x : A) (l : list A) :
  In x (sort_uniq cmp l) <-> In x l.
Proof.
  induction l as [|a l IH]; simpl; [reflexivity|].
  rewrite insert_uniq_In, IH. intuition.
Qed.

Lemma sorted_NoDup (l : list A) : StronglySorted lt l -> NoDup l.
Proof.
  induction 1 as [|a l Hs IH Ha]; constructor; [|exact IH].
  intros Hin. rewrite Forall_forall in Ha. exact (lt_irrefl a (Ha a Hin)).
Qed.

End SortUniq.

Lemma sorted_dates (l : list Z) : StronglySorted Z.lt (sort_uniq Z.compare l).
Proof.
  apply sort_uniq_sorted.
  - exact Z.compare_eq_iff.
  - intros a b. reflexivity.
  - intros a b. rewrite Z.compare_gt_iff. reflexivity.
  - exact Z.lt_trans.
Qed.

Lemma sorted_symbols (l : list string) :
  StronglySorted String_as_OT.lt (sort_uniq String.compare l).
Proof.
  apply sort_uniq_sorted.
  - exact String_as_OT.cmp_eq.
  - exact String_as_OT.cmp_lt.
  - intros a b. rewrite <- String_as_OT.cmp_lt.
    pose proof (String_as_OT.cmp_antisym a b) as H.
    unfold String_as_OT.cmp in *.
    destruct (String.compare b a); rewrite H; simpl; split;
      intros; congruence.
  - exact String_as_OT.lt_trans.
Qed.

Lemma distinct_symbols (l : list string) : NoDup (sort_uniq String.compare l).
Proof.
  apply (sorted_NoDup string String_as_OT.lt).
  - intros a H. exact (String_as_OT.lt_not_eq a a H eq_refl).
  - apply sorted_symbols.
Qed.

Lemma dropna_index_sorted {L} (lt : date -> date -> Prop)
      (df : DataFrame date L) :
  StronglySorted lt (index df) -> StronglySorted lt (index (dropna df)).
Proof.
  unfold dropna. cbn [index].
  generalize (values df) as vals.
  induction (index df) as [|d ds IH]; intros vals Hs; [constructor|].
  destruct vals as [|r vals]; [constructor|].
  inversion Hs as [|? ? Hs' Hd]; subst. simpl.
  destruct (complete_row r); simpl; [|apply IH, Hs'].
  constructor; [apply IH, Hs'|].
  rewrite Forall_forall in *. intros x Hx.
  apply in_map_iff in Hx. destruct Hx as [[d' r'] [E Hx]]. subst x.
  apply filter_In in Hx. destruct Hx as [Hx _].
  apply in_combine_l in Hx. apply Hd, Hx.
Qed.

(** The loader establishes the invariants of a price matrix: the dates
    increase strictly and the ticker labels are distinct. *)
Lemma pivot_labels (rows : list QueryRow) (df : PriceMatrix) :
  pivot rows = Ok df ->
  StronglySorted Z.lt (index df) /\ NoDup (columns df).
Proof.
  unfold pivot. destruct (has_duplicate_key rows); [discriminate|].
  intros H. injection H as H. subst df. cbn [index columns].
  split; [apply sorted_dates | apply distinct_symbols].
Qed.

(** * The loader *)

Lemma combine_fst_snd {A B} (l : list (A * B)) :
  combine (map fst l) (map snd l) = l.
Proof.
  induction l as [|[a b] l IH]; simpl; [reflexivity | rewrite IH; reflexivity].
Qed.

Lemma dropna_rows {I L} (df : DataFrame I L) (d : I) (r : list cell) :
  In (d, r) (combine (index (dropna df)) (values (dropna df))) <->
  In (d, r) (combine (index df) (values df)) /\ complete_row r = true.
Proof.
  unfold dropna. cbn [index values]. rewrite combine_fst_snd.
  rewrite filter_In. reflexivity.
Qed.

Lemma pivot_wf (rows : list QueryRow) (df : PriceMatrix) :
  pivot rows = Ok df -> wf df.
Proof.
  unfold pivot. destruct (has_duplicate_key rows); [discriminate|].
  intros H. injection H as H. subst df. split; cbn [index columns values].
  - apply length_map.
  - apply Forall_forall. intros r Hr. apply in_map_iff in Hr.
    destruct Hr as [d [Hr _]]. subst r. apply length_map.
Qed.

(** C7.  [load_data] raises exactly when the store cannot be read or a
    date and ticker occur twice in it.  Otherwise it returns a price
    matrix (dates strictly increasing, ticker labels distinct): the
    pivoted prices with every date row that has a missing close for any
    ticker removed as a whole.  The tickers are those of the pivot, a
    row is returned exactly when it is a row of the pivot with no
    missing cell, and no cell of the result is missing. *)
Theorem load_data_drops_incomplete_rows (db : Store) :
  match load_data db with
  | Raise _ =>
      db = Unavailable \/
      exists stocks prices,
        db = Tables stocks prices /\
        has_duplicate_key (query stocks prices) = true
  | Ok df =>
      exists stocks prices df_pivot,
        db = Tables stocks prices /\
        pivot (query stocks prices) = Ok df_pivot /\
        wf df /\
        StronglySorted Z.lt (index df) /\
        NoDup (columns df) /\
        columns df = columns df_pivot /\
        values df = filter complete_row (values df_pivot) /\
        (forall d r,
            In (d, r) (combine (index df) (values df)) <->
            In (d, r) (combine (index df_pivot) (values df_pivot)) /\
            complete_row r = true) /\
        no_missing df = true
  end.
Proof.
  destruct db as [|stocks prices]; [left; reflexivity|].
  unfold load_data. cbn [read_sql rbind].
  destruct (pivot (query stocks prices)) as [df_pivot|e] eqn:Hp; cbn [rbind].
  - pose proof (pivot_wf _ _ Hp) as Hwf.
    exists stocks, prices, df_pivot.
    split; [reflexivity|]. split; [exact Hp|].
    destruct (pivot_labels _ _ Hp) as [Hsorted Hdistinct].
    split; [apply dropna_wf, Hwf|].
    split; [apply dropna_index_sorted, Hsorted|].
    split; [exact Hdistinct|].
    split; [reflexivity|].
    split; [apply dropna_values, Hwf|].
    split; [intros d r; apply dropna_rows|].
    apply dropna_no_missing, Hwf.
  - right. exists stocks, prices. split; [reflexivity|].
    unfold pivot in Hp.
    destruct (has_duplicate_key (query stocks prices));
      [reflexivity | discriminate].
Qed.

(** On the sample store only the first date has a close for both
    tickers: the other two rows are dropped as a whole. *)
Lemma load_data_sample_store :
  load_data sample_store
  = Ok (mkDF [1%Z] ["A"%string; "B"%string] [[Fin 100; Fin 50]]).
Proof. reflexivity. Qed.

(** * Sample stores *)

Lemma load_data_empty_store : load_data empty_store = Ok (mkDF [] [] []).
Proof. reflexivity. Qed.

Lemma load_data_other_store :
  load_data other_store = Ok (mkDF [1%Z] ["A"%string] [[Fin 100]]).
Proof. reflexivity. Qed.

(** * The dashboard *)

Lemma get_data_raises (db : Store) :
  (forall df, get_data db <> Ok df) <->
  db = Unavailable \/
  exists stocks prices, db = Tables stocks prices /\
                        has_duplicate_key (query stocks prices) = true.
Proof.
  unfold get_data, load_data, pivot. destruct db as [|stocks prices].
  - split; [auto | intros _ df; discriminate].
  - cbn [read_sql rbind].
    destruct (has_duplicate_key (query stocks prices)) eqn:Hd; cbn [rbind].
    + split; [intros _; right; eauto | intros _ df; discriminate].
    + split.
      * intros H. exfalso. eapply H. reflexivity.
      * intros [H|[s [p [H Hd']]]]; [discriminate|].
        injection H as H1 H2. subst. congruence.
Qed.

(** * The weights dictionary *)

Lemma dict_set_fresh (d : dict) (k : string) (v : cell) :
  ~ In k (map fst d) -> dict_set d k v = d ++ [(k, v)].
Proof.
  induction d as [|[k' v'] d IH]; intros Hk; simpl; [reflexivity|].
  destruct (String.eqb_spec k' k) as [E|E].
  - exfalso. apply Hk. left. exact E.
  - rewrite IH; [reflexivity|]. intros H. apply Hk. right. exact H.
Qed.

Lemma fold_dict_set (ps d : list (string * cell)) :
  NoDup (map fst d ++ map fst ps) ->
  fold_left (fun d kv => dict_set d (fst kv) (snd kv)) ps d = d ++ ps.
Proof.
  revert d. induction ps as [|[k v] ps IH]; intros d Hnd; simpl.
  - rewrite app_nil_r. reflexivity.
  - simpl in Hnd. pose proof (NoDup_remove_2 _ _ _ Hnd) as Hk.
    rewrite dict_set_fresh by (intros H; apply Hk, in_or_app; left; exact H).
    rewrite IH.
    + rewrite <- app_assoc. reflexivity.
    + rewrite map_app, <- app_assoc. exact Hnd.
Qed.

Lemma dict_of_distinct_pairs (ps : list (string * cell)) :
  NoDup (map fst ps) -> dict_of_pairs ps = ps.
Proof. intros H. unfold dict_of_pairs. rewrite fold_dict_set; auto. Qed.

Lemma sharpe_problem_inv {I} (df : DataFrame I string) (p : problem) :
  sharpe_problem df = Ok p ->
  bounds p = repeat (Fin 0, Fin 1) (length (columns df)) /\
  constraints p = [mkConstraint EqZero (fun x => csub (csum x) (Fin 1))] /\
  length (x0 p) = length (columns df).
Proof.
  unfold sharpe_problem.
  destruct (py_div 1 (length (columns df))) as [g|e]; cbn [rbind];
    [|discriminate].
  intros H. injection H as H. subst p. cbn [bounds constraints x0].
  repeat split. apply repeat_length.
Qed.

Lemma sharpe_problem_start {I} (df : DataFrame I string) :
  columns df <> [] ->
  exists p, sharpe_problem df = Ok p /\
            length (x0 p) = length (columns df).
Proof.
  intros Hcols. unfold sharpe_problem.
  destruct (length (columns df)) as [|n] eqn:Hn.
  - destruct (columns df); [contradiction | discriminate].
  - cbn [py_div rbind]. eexists. split; [reflexivity|].
    cbn [x0]. apply repeat_length.
Qed.

(** C10 (as amended).  For a price matrix with at least one ticker
    column, the labels being distinct, [optimize_portfolio] returns a
    mapping with exactly one entry per column, its keys the ticker
    labels in column order and its values the solver's raw result, in
    order and unchanged, whatever that result is; all that is used of
    the solver is that its result has the length of the starting
    point. *)
Theorem optimize_portfolio_keys {I} (minimize : problem -> list cell)
        (df : DataFrame I string) :
  columns df <> [] -> NoDup (columns df) ->
  (forall p, length (minimize p) = length (x0 p)) ->
  exists p weights,
    sharpe_problem df = Ok p /\
    optimize_portfolio minimize df = Ok weights /\
    map fst weights = columns df /\
    map snd weights = minimize p /\
    length weights = ncols df.
Proof.
  intros Hcols Hnd Hlen.
  unfold optimize_portfolio.
  destruct (sharpe_problem_start df Hcols) as [p [Hp Hx0]].
  rewrite Hp. cbn [rbind]. exists p, (combine (columns df) (minimize p)).
  assert (Hl : length (columns df) = length (minimize p))
    by (rewrite Hlen, Hx0; reflexivity).
  split; [reflexivity|]. split.
  { f_equal. apply dict_of_distinct_pairs.
    rewrite map_fst_combine by exact Hl. exact Hnd. }
  split; [apply map_fst_combine, Hl|].
  split; [apply map_snd_combine, Hl|].
  rewrite length_combine, <- Hl, Nat.min_id. reflexivity.
Qed.

(** What the optimizer passes on.  If the point the solver reports
    meets the bounds and the constraint it was handed, the weights
    returned sum to 1 and each lies in [0,1].  Whether the solver
    reports such a point is not decided by the source, which returns its
    result as it comes. *)
Lemma feasible_result_weights {I} (minimize : problem -> list cell)
      (df : DataFrame I string) (p : problem) :
  NoDup (columns df) ->
  sharpe_problem df = Ok p ->
  feasible p (minimize p) ->
  exists weights,
    optimize_portfolio minimize df = Ok weights /\
    map fst weights = columns df /\
    csum (map snd weights) = Fin 1 /\
    Forall (fun c => exists x, c = Fin x /\ 0 <= x <= 1) (map snd weights).
Proof.
  intros Hnd Hp [Hb Hc].
  unfold optimize_portfolio. rewrite Hp. cbn [rbind].
  destruct (sharpe_problem_inv df p Hp) as [Hbounds [Hcons _]].
  rewrite Hbounds in Hb. rewrite Hcons in Hc.
  apply bounds_unit in Hb. destruct Hb as [Hl Hf].
  inversion Hc as [|? ? H1 _]; subst. unfold satisfies in H1. cbn in H1.
  apply sum_to_one in H1. symmetry in Hl.
  eexists. split; [reflexivity|].
  rewrite dict_of_distinct_pairs
    by (rewrite map_fst_combine by exact Hl; exact Hnd).
  rewrite map_fst_combine, map_snd_combine by exact Hl.
  repeat split; assumption.
Qed.

Lemma three_days_finite : finite_nonzero three_days.
Proof.
  unfold finite_nonzero, three_days. cbn [values].
  repeat constructor; eexists; (split; [reflexivity | lra]).
Qed.

Lemma optimize_portfolio_keys_witness :
  exists weights,
    optimize_portfolio idle_minimize three_days = Ok weights /\
    map fst weights = ["A"%string; "B"%string].
Proof.
  destruct (optimize_portfolio_keys idle_minimize three_days
              ltac:(discriminate)
              ltac:(repeat constructor; simpl; intuition discriminate)
              (fun p => eq_refl))
    as [p [weights [_ [Hrun [Hkeys _]]]]].
  exists weights. split; [exact Hrun | exact Hkeys].
Defined.

(** C10 (as stated) fails on a price matrix without ticker columns: the
    equal-weight starting point divides by the number of assets, and the
    call raises instead of returning an empty mapping. *)
Lemma optimize_portfolio_keys_counterexample :
  wf no_tickers /\ ncols no_tickers = 0%nat /\
  optimize_portfolio idle_minimize no_tickers = Raise ZeroDivisionError /\
  forall minimize weights,
    optimize_portfolio minimize no_tickers <> Ok weights.
Proof.
  split; [split; [reflexivity | repeat constructor]|].
  split; [reflexivity|]. split; [reflexivity|].
  intros minimize weights. discriminate.
Qed.




(** * The dashboard *)

(** The two conditions the page uses for a call that raises. *)
Lemma optimize_portfolio_raises {I} (minimize : problem -> list cell)
      (df : DataFrame I string) (e : exn) :
  optimize_portfolio minimize df = Raise e <-> sharpe_problem df = Raise e.
Proof.
  unfold optimize_portfolio. destruct (sharpe_problem df) as [p|e'];
    cbn [rbind]; split; intros H; try discriminate;
    injection H as H; subst; reflexivity.
Qed.

Lemma run_monte_carlo_raises {rng} (normal : cell -> cell -> rng -> cell * rng)
      {I L} (df : DataFrame I L) (N D : nat) (g : rng) (e : exn) :
  run_monte_carlo normal df N D g = Raise e <-> iloc_last df = Raise e.
Proof.
  destruct (values df) as [|r0 rest] eqn:Hv.
  - unfold run_monte_carlo, last_price_of, iloc_last. rewrite Hv.
    cbn [rbind]. split; intros H; injection H as H; subst; reflexivity.
  - assert (Hne : values df <> []) by (rewrite Hv; discriminate).
    rewrite (run_monte_carlo_paths rng normal df N D g Hne).
    unfold iloc_last. rewrite Hv. split; discriminate.
Qed.

Lemma header_needs_rows (fp : PriceMatrix) :
  values fp = [] -> header_and_tabs fp = Raise IndexError.
Proof.
  intros Hv. unfold header_and_tabs.
  destruct (calculate_metrics fp) as [returns volatility].
  unfold kpi, iloc_last, pct_change. cbn [values]. rewrite Hv. reflexivity.
Qed.

Lemma page_events (df : PriceMatrix) (ui : Sidebar) (e : event) :
  In e (page df ui) ->
  is_analytics e = true \/ (exists x, e = Uncaught x) \/
  e = StInfo optimizer_info_msg \/
  simulate_clicked ui = true /\
  (e = StSuccess median_msg \/ e = StError worst_case_msg).
Proof.
  unfold page, optimization_tab, simulation_tab.
  destruct (loc df _ _ _) as [fp|x].
  2:{ intros [H|[]]. right. left. exists x. symmetry. exact H. }
  destruct (header_and_tabs fp) as [[]|x];
    destruct (optimize_clicked ui), (simulate_clicked ui);
    destruct (sharpe_problem fp) as [p|y];
    destruct (iloc_last fp) as [r|z];
    cbn [In];
    intuition (subst; cbn [is_analytics]; eauto 6).
Qed.

Lemma page_no_halt (df : PriceMatrix) (ui : Sidebar) :
  ~ In StStop (page df ui) /\
  ~ In (StError database_error_msg) (page df ui) /\
  (forall msg, ~ In (StWarning msg) (page df ui)).
Proof.
  split; [|split; [|intros msg]]; intros H; apply page_events in H;
    destruct H as [H|[[x H]|[H|[_ [H|H]]]]]; discriminate.
Qed.

Lemma page_starts_with_a_call (df : PriceMatrix) (ui : Sidebar) :
  exists e rest, page df ui = e :: rest /\
                 (is_analytics e = true \/ exists x, e = Uncaught x).
Proof.
  unfold page. destruct (loc df _ _ _) as [fp|x]; eexists _, _; split;
    try reflexivity; [left; reflexivity | right; eauto].
Qed.

Lemma get_sector_map_raises (db : Store) :
  (forall m, get_sector_map db <> Ok m) <-> db = Unavailable.
Proof.
  destruct db as [|stocks prices]; cbn [get_sector_map]; split.
  - reflexivity.
  - intros _ m. discriminate.
  - intros H. exfalso. eapply H. reflexivity.
  - discriminate.
Qed.

Lemma cached_raises {A} (entry : option A) (loader : result A) (e : exn) :
  fst (cached entry loader) = Raise e <-> entry = None /\ loader = Raise e.
Proof.
  unfold cached. destruct entry as [a|]; [|destruct loader as [a|e']];
    cbn [fst]; split; try discriminate; try (intros [H1 H2]; discriminate).
  - intros H. split; [reflexivity | exact H].
  - intros [_ H]. exact H.
Qed.

Lemma script_cases (cache : Cache) (db : Store)
      (sidebar : PriceMatrix -> list (string * string) -> result Sidebar) :
  let trace := fst (script cache db sidebar) in
  ((exists e, fst (cached (data_entry cache) (get_data db)) = Raise e) /\
   trace = [StError database_error_msg; StStop]) \/
  ((exists df e,
       fst (cached (data_entry cache) (get_data db)) = Ok df /\
       fst (cached (sector_entry cache) (get_sector_map db)) = Raise e) /\
   trace = [StError database_error_msg; StStop]) \/
  (exists df m,
      fst (cached (data_entry cache) (get_data db)) = Ok df /\
      fst (cached (sector_entry cache) (get_sector_map db)) = Ok m /\
      trace = match sidebar df m with
              | Raise e => [Uncaught e]
              | Ok ui =>
                  match selected_tickers ui with
                  | [] => [StWarning no_asset_msg; StStop]
                  | _ :: _ => page df ui
                  end
              end).
Proof.
  cbv zeta. unfold script.
  destruct (cached (data_entry cache) (get_data db)) as [[df|e] entry1];
    cbn [fst].
  - destruct (cached (sector_entry cache) (get_sector_map db))
      as [[m|e] entry2]; cbn [fst].
    + right. right. exists df, m. auto.
    + right. left. split; [exists df, e; auto | reflexivity].
  - left. split; [exists e; reflexivity | reflexivity].
Qed.


Lemma app_no_database_error (db : Store) (df : PriceMatrix)
      (sidebar : PriceMatrix -> list (string * string) -> result Sidebar) :
  load_data db = Ok df ->
  ~ In (StError database_error_msg) (app db sidebar).
Proof.
  intros Hload. unfold app, script, empty_cache, cached, get_data.
  cbn [data_entry sector_entry]. rewrite Hload.
  destruct db as [|stocks prices]; [discriminate|].
  cbn [get_sector_map fst].
  destruct (sidebar df _) as [ui|e].
  - destruct (selected_tickers ui).
    + intros [H|[H|[]]]; discriminate.
    + apply page_no_halt.
  - intros [H|[]]. discriminate.
Qed.

(** C9 (as amended).  The script halts in two cases only.  When a
    loader that is not served from the cache raises (the store cannot be
    opened or lacks its tables, or a date and ticker occur twice) it
    shows the message that directs the user to the ingestion job and
    stops, and in no other case does it show that message; the only
    other error message is the worst case shown after a simulation.
    When the user has deselected every ticker it shows a warning and
    stops.  In both cases the trace ends at the halt and holds no call
    into the analytics module.  Other failures are not recognized: a
    date range without rows ends the run with an uncaught IndexError
    right after the call of [calculate_metrics]. *)
Theorem dashboard_halts (cache : Cache) (db : Store)
        (sidebar : PriceMatrix -> list (string * string) -> result Sidebar) :
  let trace := fst (script cache db sidebar) in
  (trace = [StError database_error_msg; StStop] <->
   (data_entry cache = None /\
    (db = Unavailable \/
     exists stocks prices,
       db = Tables stocks prices /\
       has_duplicate_key (query stocks prices) = true)) \/
   (data_entry cache <> None /\ sector_entry cache = None /\
    db = Unavailable)) /\
  (In (StError database_error_msg) trace ->
   trace = [StError database_error_msg; StStop]) /\
  (forall msg, In (StError msg) trace ->
               msg = database_error_msg \/ msg = worst_case_msg) /\
  (forall df m ui,
      fst (cached (data_entry cache) (get_data db)) = Ok df ->
      fst (cached (sector_entry cache) (get_sector_map db)) = Ok m ->
      sidebar df m = Ok ui ->
      (selected_tickers ui = [] <->
       trace = [StWarning no_asset_msg; StStop]) /\
      (forall fp,
          selected_tickers ui <> [] ->
          loc df (start_date ui) (end_date ui) (selected_tickers ui) = Ok fp ->
          values fp = [] ->
          trace = [Analytics (CalculateMetrics fp); Uncaught IndexError])) /\
  (In StStop trace ->
   (trace = [StError database_error_msg; StStop] \/
    trace = [StWarning no_asset_msg; StStop]) /\
   forall e, In e trace -> is_analytics e = false).
Proof.
  cbv zeta.
  assert (Hpage' : forall df ui,
             page df ui <> [StError database_error_msg; StStop] /\
             page df ui <> [StWarning no_asset_msg; StStop]).
  { intros df ui. destruct (page_no_halt df ui) as [Hs _].
    split; intros H; apply Hs; rewrite H; right; left; reflexivity. }
  destruct (script_cases cache db sidebar) as [[[e He] Ht]|[[[df [e [Hd He]]] Ht]|
    [df [m [Hd [Hm Ht]]]]]]; cbv zeta in Ht; rewrite Ht; clear Ht.
  - (* the data loader raises *)
    apply cached_raises in He. destruct He as [Hc He].
    assert (Hdb : db = Unavailable \/
                  exists stocks prices,
                    db = Tables stocks prices /\
                    has_duplicate_key (query stocks prices) = true).
    { apply get_data_raises. intros df H. rewrite H in He. discriminate. }
    split; [split; [intros _; left; auto | reflexivity]|].
    split; [reflexivity|].
    split; [intros msg [H|[H|[]]]; [injection H as H; auto | discriminate]|].
    split.
    { intros df m ui H. unfold cached in H. rewrite Hc, He in H.
      discriminate. }
    intros _. split; [left; reflexivity|].
    intros e' [H|[H|[]]]; subst e'; reflexivity.
  - (* the sector loader raises *)
    apply cached_raises in He. destruct He as [Hc He].
    assert (Hdb : db = Unavailable)
      by (apply get_sector_map_raises; intros m H; rewrite H in He;
          discriminate).
    split.
    { split; [|reflexivity]. intros _.
      destruct (data_entry cache) as [d|] eqn:Hde.
      - right. split; [discriminate | auto].
      - left. auto. }
    split; [reflexivity|].
    split; [intros msg [H|[H|[]]]; [injection H as H; auto | discriminate]|].
    split.
    { intros df' m ui _ H. unfold cached in H. rewrite Hc, He in H.
      discriminate. }
    intros _. split; [left; reflexivity|].
    intros e' [H|[H|[]]]; subst e'; reflexivity.
  - (* both loaders return *)
    assert (Hno : ~ ((data_entry cache = None /\
                      (db = Unavailable \/
                       exists stocks prices,
                         db = Tables stocks prices /\
                         has_duplicate_key (query stocks prices) = true)) \/
                     (data_entry cache <> None /\ sector_entry cache = None /\
                      db = Unavailable))).
    { intros [[Hc Hdb]|[_ [Hc Hdb]]].
      - pose proof (proj2 (get_data_raises db) Hdb) as Hraise.
        unfold cached in Hd. rewrite Hc in Hd.
        destruct (get_data db) as [d|e] eqn:Hg; [|discriminate].
        exact (Hraise d eq_refl).
      - subst db. unfold cached in Hm. rewrite Hc in Hm. discriminate. }
    destruct (sidebar df m) as [ui|e] eqn:Hsb.
    + destruct (selected_tickers ui) as [|s sel] eqn:Hsel.
      * split; [split; [discriminate | intros H; exfalso; exact (Hno H)]|].
        split; [intros [H|[H|[]]]; discriminate|].
        split; [intros msg [H|[H|[]]]; discriminate|].
        split.
        { intros df' m' ui' E1 E2 Hsb'. rewrite Hd in E1. rewrite Hm in E2.
          injection E1 as E1. injection E2 as E2. subst df' m'.
          rewrite Hsb in Hsb'. injection Hsb' as Hsb'. subst ui'.
          rewrite Hsel. split; [split; reflexivity|].
          intros fp H. contradiction. }
        intros _. split; [right; reflexivity|].
        intros e [H|[H|[]]]; subst e; reflexivity.
      * destruct (Hpage' df ui) as [Hp1 Hp2].
        destruct (page_no_halt df ui) as [Hs [He Hw]].
        split; [split; [intros H; contradiction
                       | intros H; exfalso; exact (Hno H)]|].
        split; [intros H; contradiction|].
        split.
        { intros msg H. apply page_events in H.
          destruct H as [H|[[x H]|[H|[_ [H|H]]]]]; try discriminate.
          injection H as H. auto. }
        split.
        { intros df' m' ui' E1 E2 Hsb'. rewrite Hd in E1. rewrite Hm in E2.
          injection E1 as E1. injection E2 as E2. subst df' m'.
          rewrite Hsb in Hsb'. injection Hsb' as Hsb'. subst ui'.
          split.
          - rewrite Hsel. split; [discriminate | intros H; contradiction].
          - intros fp _ Hloc Hv. unfold page.
            rewrite Hloc, (header_needs_rows fp Hv). reflexivity. }
        intros H. contradiction.
    + split; [split; [discriminate | intros H; exfalso; exact (Hno H)]|].
      split; [intros [H|[]]; discriminate|].
      split; [intros msg [H|[]]; discriminate|].
      split; [intros df' m' ui' E1 E2 Hsb'; rewrite Hd in E1; rewrite Hm in E2;
              injection E1 as E1; injection E2 as E2; subst df' m';
              rewrite Hsb in Hsb'; discriminate|].
      intros [H|[]]. discriminate.
Qed.

Lemma dashboard_halts_witness :
  let ui := mkSidebar 1%Z 1%Z [] false false 100 in
  get_data other_store = Ok (mkDF [1%Z] ["A"%string] [[Fin 100]]) /\
  selected_tickers ui = [] /\
  fst (script empty_cache other_store (fun _ _ => Ok ui))
  = [StWarning no_asset_msg; StStop].
Proof.
  intros ui. split; [reflexivity|]. split; [reflexivity|].
  destruct (dashboard_halts empty_cache other_store (fun _ _ => Ok ui))
    as [_ [_ [_ [Hsel _]]]].
  exact (proj1 (proj1 (Hsel _ _ ui eq_refl eq_refl eq_refl)) eq_refl).
Defined.

(** C9 (as stated) fails for a store that is empty: with both tables
    present and no row in them the load succeeds with an empty matrix,
    and whatever the sidebar does the script never shows the message
    that directs to the ingestion job. *)
Lemma dashboard_empty_store_counterexample :
  get_data empty_store = Ok (mkDF [] [] []) /\
  forall sidebar,
    ~ In (StError database_error_msg) (app empty_store sidebar).
Proof.
  split; [reflexivity|]. intros sidebar.
  apply (app_no_database_error empty_store (mkDF [] [] [])). reflexivity.
Qed.

(** * Effects of the analytics functions *)

Lemma nth_error_made {A} (l made : list A) (k : nat) :
  nth_error (l ++ made) (length l + k) = nth_error made k.
Proof.
  rewrite nth_error_app2 by lia. f_equal. lia.
Qed.

Lemma nth_error_fresh {A} (l l' : list A) (a : A) :
  nth_error (l ++ a :: l') (length l) = Some a.
Proof.
  rewrite nth_error_app2 by lia. rewrite Nat.sub_diag. reflexivity.
Qed.

Lemma nth_error_kept {A} (l made : list A) (r : nat) (a : A) :
  nth_error l r = Some a -> nth_error (l ++ made) r = Some a.
Proof.
  intros H. rewrite nth_error_app1; [exact H|].
  apply nth_error_Some. congruence.
Qed.

Lemma replace_nth_made {A} (l made : list A) (k : nat) (a : A) :
  replace_nth (length l + k) a (l ++ made) = l ++ replace_nth k a made.
Proof.
  induction l as [|x l IH]; [reflexivity|].
  change (replace_nth (S (length l + k)) a (x :: (l ++ made))
          = x :: (l ++ replace_nth k a made)).
  cbn [replace_nth]. f_equal. exact IH.
Qed.

Lemma replace_nth_last {A} (l : list A) (a b : A) :
  replace_nth (length l) b (l ++ [a]) = l ++ [b].
Proof.
  rewrite <- (Nat.add_0_r (length l)) at 1. rewrite replace_nth_made.
  reflexivity.
Qed.

(** Reading an address of a heap that has grown. *)
Ltac solve_read Hd :=
  repeat first [apply nth_error_fresh | apply nth_error_kept]; exact Hd.

Ltac heap_read Hd :=
  match goal with
  | |- context [nth_error (?L ++ ?M) ?r] =>
      let H := fresh "Hread" in
      eassert (H : nth_error (L ++ M) r = Some _) by solve_read Hd;
      rewrite H; clear H
  end.

Lemma replace_nth_twice {A} (l : list A) (r : nat) (a b : A) :
  replace_nth r b (replace_nth r a l) = replace_nth r b l.
Proof.
  revert r. induction l as [|x l IH]; intros [|r]; cbn [replace_nth];
    try reflexivity.
  rewrite IH. reflexivity.
Qed.

Lemma replace_nth_same {A} (l : list A) (r : nat) (a : A) :
  nth_error l r = Some a -> replace_nth r a l = l.
Proof.
  revert r. induction l as [|x l IH]; intros [|r]; cbn [replace_nth nth_error];
    try discriminate.
  - intros H. injection H as H. subst. reflexivity.
  - intros H. rewrite (IH r H). reflexivity.
Qed.

Lemma nth_error_replaced {A} (l : list A) (r : nat) (a b : A) :
  nth_error l r = Some a -> nth_error (replace_nth r b l) r = Some b.
Proof.
  revert r. induction l as [|x l IH]; intros [|r]; cbn [replace_nth nth_error];
    try discriminate.
  - reflexivity.
  - apply IH.
Qed.

Section Effects.

Variable rng : Type.
Variable normal : cell -> cell -> rng -> cell * rng.
Variable minimize : problem -> list cell.

Lemma prices_at_kept (w : World rng) (made : list object) (df : ref)
      (d : PriceMatrix) (k : Disk) (g : rng) :
  nth_error (heap w) df = Some (Prices d) ->
  prices_at (mkWorld k g (heap w ++ made)) df = d.
Proof.
  intros H. unfold prices_at. cbn [heap].
  rewrite (nth_error_kept _ made _ _ H). reflexivity.
Qed.

Lemma prices_at_input (w : World rng) (df : ref) (d : PriceMatrix) :
  nth_error (heap w) df = Some (Prices d) -> prices_at w df = d.
Proof. intros H. unfold prices_at. rewrite H. reflexivity. Qed.

Lemma calculate_metrics_prog_run (w : World rng) (df : ref)
      (d : PriceMatrix) :
  nth_error (heap w) df = Some (Prices d) ->
  calculate_metrics_prog df w
  = (Ok (S (length (heap w)), snd (calculate_metrics d)),
     mkWorld (disk w) (generator w)
             (heap w ++ [Prices (pct_change d);
                         Prices (fst (calculate_metrics d))])).
Proof.
  intros Hd.
  unfold calculate_metrics_prog, pct_change_new, dropna_new, std_of,
    get_prices, new, pbind, pret.
  cbn [disk generator heap].
  rewrite (prices_at_input w df d Hd).
  unfold prices_at. cbn [heap]. rewrite !nth_error_fresh.
  rewrite length_app, <- app_assoc. cbn [length app].
  replace (length (heap w) + 1)%nat with (S (length (heap w))) by lia.
  reflexivity.
Qed.

Lemma optimize_portfolio_prog_run (w : World rng) (df : ref)
      (d : PriceMatrix) :
  nth_error (heap w) df = Some (Prices d) ->
  exists made,
    optimize_portfolio_prog minimize df w
    = (optimize_portfolio minimize d,
       mkWorld (disk w) (generator w) (heap w ++ made)).
Proof.
  intros Hd. destruct w as [k g h]. cbn [heap disk generator] in *.
  exists [Prices (pct_change d); Prices (pct_change d);
          Table (df_cov (pct_change d)); Table (covariance d)].
  unfold optimize_portfolio_prog, pct_change_new, mean_of, cov_new,
    times_new, columns_of, get_prices, get_table, new, pbind, pret, plift,
    prices_at, table_at.
  cbn [disk generator heap]. rewrite Hd.
  repeat heap_read Hd.
  unfold optimize_portfolio, sharpe_problem.
  destruct (py_div 1 (length (columns d))) as [x|e]; cbn [rbind].
  - repeat heap_read Hd. rewrite <- !app_assoc. reflexivity.
  - rewrite <- !app_assoc. reflexivity.
Qed.

Lemma load_data_prog_run (w : World rng) :
  match disk w with
  | NoFile =>
      load_data_prog w
      = (Raise OperationalError,
         mkWorld (File Unavailable) (generator w) (heap w))
  | File s =>
      exists r made,
        load_data_prog w
        = (r, mkWorld (disk w) (generator w) (heap w ++ made)) /\
        match load_data s with
        | Ok df =>
            exists a, r = Ok a /\
                      nth_error (heap w ++ made) a = Some (Prices df)
        | Raise e => r = Raise e
        end
  end.
Proof.
  destruct w as [k g h]. cbn [disk generator heap].
  destruct k as [|s]; [reflexivity|].
  unfold load_data_prog, read_sql_new, parse_dates_inplace, pivot_new,
    dropna_inplace, get_records, get_prices, put, new, pbind, pret, plift,
    records_at, prices_at, load_data.
  cbn [disk generator heap].
  destruct (read_sql s) as [rows|e]; cbn [rbind].
  2:{ exists (Raise e), []. rewrite app_nil_r. auto. }
  cbn [disk generator heap]. rewrite nth_error_fresh, replace_nth_last.
  rewrite nth_error_fresh.
  destruct (pivot rows) as [wide|e]; cbn [rbind].
  2:{ exists (Raise e), [Records rows]. auto. }
  cbn [disk generator heap]. rewrite nth_error_fresh, replace_nth_last.
  exists (Ok (length (h ++ [Records rows]))),
         [Records rows; Prices (dropna wide)].
  split; [rewrite <- app_assoc; reflexivity|].
  exists (length (h ++ [Records rows])). split; [reflexivity|].
  change (h ++ [Records rows; Prices (dropna wide)])
    with (h ++ [Records rows] ++ [Prices (dropna wide)]).
  rewrite app_assoc. apply nth_error_fresh.
Qed.

Lemma simulate_days_prog_step (days : nat) (dr dv : cell)
      (price_series : list cell) (count : nat) (w : World rng) :
  simulate_days_prog normal (S days) dr dv price_series count w
  = match nth_error price_series count with
    | None => (Raise IndexError, w)
    | Some prev =>
        let (shock, g1) := normal dr dv (generator w) in
        simulate_days_prog normal days dr dv
          (price_series ++ [cmul prev (cadd (Fin 1) shock)]) (count + 1)
          (mkWorld (disk w) g1 (heap w))
    end.
Proof.
  cbn [simulate_days_prog]. unfold pbind, plift, normal_draw.
  destruct (nth_error price_series count) as [prev|]; cbn [of_option];
    [|reflexivity].
  destruct (normal dr dv (generator w)) as [shock g1]. reflexivity.
Qed.

Lemma simulate_days_prog_run (days : nat) (dr dv : cell) :
  forall (price_series : list cell) (count : nat) (w : World rng),
    match simulate_days normal days dr dv price_series count (generator w)
    with
    | Ok (series, g') =>
        simulate_days_prog normal days dr dv price_series count w
        = (Ok series, mkWorld (disk w) g' (heap w))
    | Raise e =>
        exists g',
          simulate_days_prog normal days dr dv price_series count w
          = (Raise e, mkWorld (disk w) g' (heap w))
    end.
Proof.
  induction days as [|days IH]; intros ps count w.
  - destruct w; reflexivity.
  - rewrite simulate_days_prog_step. cbn [simulate_days].
    destruct (nth_error ps count) as [prev|]; cbn [of_option rbind].
    2:{ exists (generator w). destruct w; reflexivity. }
    destruct (normal dr dv (generator w)) as [shock g1].
    exact (IH (ps ++ [cmul prev (cadd (Fin 1) shock)]) (count + 1)%nat
              (mkWorld (disk w) g1 (heap w))).
Qed.

Lemma simulate_all_prog_step (x : nat) (xs : list nat) (lp dr dv : cell)
      (days : nat) (r : ref) (w : World rng) :
  simulate_all_prog normal (x :: xs) lp dr dv days r w
  = let (shock, g1) := normal (Fin 0) dv (generator w) in
    match simulate_days_prog normal days dr dv
            [cmul lp (cadd (Fin 1) shock)] 0
            (mkWorld (disk w) g1 (heap w)) with
    | (Raise e, w1) => (Raise e, w1)
    | (Ok series, w1) =>
        match set_column (runs_at w1 r) x series with
        | Raise e => (Raise e, w1)
        | Ok frame1 =>
            simulate_all_prog normal xs lp dr dv days r
              (mkWorld (disk w1) (generator w1)
                       (replace_nth r (Runs frame1) (heap w1)))
        end
    end.
Proof.
  cbn [simulate_all_prog]. unfold pbind, normal_draw.
  destruct (normal (Fin 0) dv (generator w)) as [shock g1].
  change ([] ++ [cmul lp (cadd (Fin 1) shock)])
    with [cmul lp (cadd (Fin 1) shock)].
  destruct (simulate_days_prog normal days dr dv
              [cmul lp (cadd (Fin 1) shock)] 0
              (mkWorld (disk w) g1 (heap w))) as [[series|e] w1];
    [|reflexivity].
  unfold set_column_inplace, pbind, get_runs, plift, put.
  destruct (set_column (runs_at w1 r) x series) as [frame1|e]; reflexivity.
Qed.

Lemma simulate_all_prog_run (xs : list nat) (lp dr dv : cell) (days : nat)
      (r : ref) :
  forall (frame : SimFrame) (w : World rng),
    nth_error (heap w) r = Some (Runs frame) ->
    match simulate_all normal xs lp dr dv days frame (generator w) with
    | Ok (frame', g') =>
        simulate_all_prog normal xs lp dr dv days r w
        = (Ok tt, mkWorld (disk w) g' (replace_nth r (Runs frame') (heap w)))
    | Raise e =>
        exists g' frame',
          simulate_all_prog normal xs lp dr dv days r w
          = (Raise e,
             mkWorld (disk w) g' (replace_nth r (Runs frame') (heap w)))
    end.
Proof.
  induction xs as [|x xs IH]; intros frame w Hr.
  - cbn [simulate_all simulate_all_prog]. unfold pret.
    rewrite (replace_nth_same _ _ _ Hr). destruct w; reflexivity.
  - rewrite simulate_all_prog_step. cbn [simulate_all].
    unfold simulate_path.
    destruct (normal (Fin 0) dv (generator w)) as [shock g1].
    change ([] ++ [cmul lp (cadd (Fin 1) shock)])
      with [cmul lp (cadd (Fin 1) shock)].
    pose proof (simulate_days_prog_run days dr dv
                  [cmul lp (cadd (Fin 1) shock)] O
                  (mkWorld (disk w) g1 (heap w))) as Hdays.
    cbn [generator disk heap] in Hdays. revert Hdays.
    destruct (simulate_days normal days dr dv
                [cmul lp (cadd (Fin 1) shock)] 0 g1) as [[series g2]|e];
      intros Hdays; cbn [rbind fst snd].
    2:{ destruct Hdays as [g' Hdays]. rewrite Hdays.
        exists g', frame. rewrite (replace_nth_same _ _ _ Hr). reflexivity. }
    rewrite Hdays. unfold runs_at. cbn [heap disk generator]. rewrite Hr.
    destruct (set_column frame x series) as [frame1|e]; cbn [rbind].
    2:{ exists g2, frame. rewrite (replace_nth_same _ _ _ Hr). reflexivity. }
    specialize (IH frame1
                   (mkWorld (disk w) g2
                            (replace_nth r (Runs frame1) (heap w)))
                   (nth_error_replaced _ _ _ _ Hr)).
    cbn [generator disk heap] in IH.
    destruct (simulate_all normal xs lp dr dv days frame1 g2)
      as [[frame' g']|e].
    + rewrite IH, replace_nth_twice. reflexivity.
    + destruct IH as [g' [frame' IH]]. rewrite IH, replace_nth_twice.
      exists g', frame'. reflexivity.
Qed.

Lemma run_monte_carlo_prog_start (w : World rng) (df : ref)
      (d : PriceMatrix) (N D : nat) :
  nth_error (heap w) df = Some (Prices d) ->
  run_monte_carlo_prog normal df N D w
  = match iloc_last d with
    | Raise e => (Raise e, w)
    | Ok last_row =>
        let w3 :=
          mkWorld (disk w) (generator w)
                  (heap w ++ [Prices (pct_change d);
                              Prices (dropna (pct_change d));
                              Runs empty_frame]) in
        match simulate_all_prog normal (seq 0 N) (nanmean last_row)
                (daily_return_of d) (daily_vol_of d) D
                (length (heap w) + 2)%nat w3 with
        | (Ok _, w') => (Ok (length (heap w) + 2)%nat, w')
        | (Raise e, w') => (Raise e, w')
        end
    end.
Proof.
  intros Hd. destruct w as [k g h]. cbn [heap disk generator] in *.
  unfold run_monte_carlo_prog, iloc_last_of, pct_change_new, dropna_new,
    std_of, mean_of, get_prices, new, pbind, pret, plift, prices_at.
  cbn [heap disk generator]. rewrite Hd.
  destruct (iloc_last d) as [last_row|e]; [|reflexivity].
  cbv zeta. cbn [heap disk generator]. rewrite !nth_error_fresh.
  rewrite !length_app, <- !app_assoc. cbn [length app].
  replace (length h + 1 + 1)%nat with (length h + 2)%nat by lia.
  reflexivity.
Qed.

Lemma run_monte_carlo_prog_run (w : World rng) (df : ref)
      (d : PriceMatrix) (N D : nat) :
  nth_error (heap w) df = Some (Prices d) ->
  match run_monte_carlo normal d N D (generator w) with
  | Ok (sim, g') =>
      run_monte_carlo_prog normal df N D w
      = (Ok (length (heap w) + 2)%nat,
         mkWorld (disk w) g'
                 (heap w ++ [Prices (pct_change d);
                             Prices (dropna (pct_change d)); Runs sim]))
  | Raise e => run_monte_carlo_prog normal df N D w = (Raise e, w)
  end.
Proof.
  intros Hd. rewrite (run_monte_carlo_prog_start w df d N D Hd).
  destruct (values d) as [|r0 rest] eqn:Hv.
  { unfold run_monte_carlo, last_price_of, iloc_last. rewrite Hv.
    reflexivity. }
  assert (Hne : values d <> []) by (rewrite Hv; discriminate).
  pose proof (run_monte_carlo_paths rng normal d N D (generator w) Hne)
    as Hp.
  unfold run_monte_carlo, last_price_of in Hp |- *.
  destruct (iloc_last d) as [last_row|e]; cbn [rbind] in Hp |- *;
    [|discriminate].
  cbv zeta.
  set (h3 := heap w ++ [Prices (pct_change d);
                        Prices (dropna (pct_change d)); Runs empty_frame]).
  assert (Hr : nth_error h3 (length (heap w) + 2)%nat
               = Some (Runs empty_frame)).
  { unfold h3. rewrite nth_error_made. reflexivity. }
  pose proof (simulate_all_prog_run (seq 0 N) (nanmean last_row)
                (daily_return_of d) (daily_vol_of d) D
                (length (heap w) + 2)%nat empty_frame
                (mkWorld (disk w) (generator w) h3) Hr) as Hall.
  cbn [generator disk heap] in Hall. rewrite Hp in Hall. rewrite Hp.
  rewrite Hall. f_equal. f_equal. unfold h3. rewrite replace_nth_made.
  reflexivity.
Qed.

End Effects.

(** C8 (as amended).  The four functions are run statement by statement
    over a world made of the database file, the random generator and
    the frames in memory, which are held by address.  None of them
    changes or removes a frame that was there before the call: what
    they create and assign to is their own, so the input matrix is left
    as it was.  [calculate_metrics] and [optimize_portfolio] touch
    neither the file nor the generator, and what they return is
    [calculate_metrics] and [optimize_portfolio] of the input matrix
    alone.  [run_monte_carlo] does not touch the file; it returns the
    frame that the simulation gives from the state the generator is in
    and leaves the generator advanced; when it raises it has changed
    nothing.  [load_data] takes no matrix and leaves the generator
    alone; it reads the file, and what it returns or raises is
    [load_data] of the file's content; where there is no file,
    connecting creates an empty one, and the query raises. *)
Theorem analytics_effects {rng : Type}
        (normal : cell -> cell -> rng -> cell * rng)
        (minimize : problem -> list cell) :
  (forall (w : World rng) (df : ref) (d : PriceMatrix),
      nth_error (heap w) df = Some (Prices d) ->
      (let (r, w') := calculate_metrics_prog df w in
       disk w' = disk w /\ generator w' = generator w /\
       keeps_objects w w' /\ nth_error (heap w') df = Some (Prices d) /\
       exists returns,
         r = Ok (returns, snd (calculate_metrics d)) /\
         nth_error (heap w') returns
         = Some (Prices (fst (calculate_metrics d)))) /\
      (let (r, w') := optimize_portfolio_prog minimize df w in
       disk w' = disk w /\ generator w' = generator w /\
       keeps_objects w w' /\ nth_error (heap w') df = Some (Prices d) /\
       r = optimize_portfolio minimize d) /\
      (forall N D : nat,
          let (r, w') := run_monte_carlo_prog normal df N D w in
          disk w' = disk w /\
          keeps_objects w w' /\ nth_error (heap w') df = Some (Prices d) /\
          match run_monte_carlo normal d N D (generator w) with
          | Ok (sim, g') =>
              generator w' = g' /\
              exists a, r = Ok a /\ nth_error (heap w') a = Some (Runs sim)
          | Raise e => r = Raise e /\ w' = w
          end)) /\
  (forall w : World rng,
      let (r, w') := load_data_prog w in
      generator w' = generator w /\ keeps_objects w w' /\
      match disk w with
      | NoFile => r = Raise OperationalError /\ disk w' = File Unavailable
      | File s =>
          disk w' = disk w /\
          match load_data s with
          | Ok m =>
              exists a, r = Ok a /\ nth_error (heap w') a = Some (Prices m)
          | Raise e => r = Raise e
          end
      end).
Proof.
  split.
  - intros w df d Hd. split; [|split].
    + rewrite (calculate_metrics_prog_run rng w df d Hd).
      cbn [disk generator heap].
      split; [reflexivity|]. split; [reflexivity|].
      split; [eexists; reflexivity|].
      split; [apply nth_error_kept; exact Hd|].
      exists (S (length (heap w))). split; [reflexivity|].
      replace (S (length (heap w))) with (length (heap w) + 1)%nat by lia.
      rewrite nth_error_made. reflexivity.
    + destruct (optimize_portfolio_prog_run rng minimize w df d Hd)
        as [made Hrun].
      rewrite Hrun. cbn [disk generator heap].
      split; [reflexivity|]. split; [reflexivity|].
      split; [exists made; reflexivity|].
      split; [apply nth_error_kept; exact Hd | reflexivity].
    + intros N D.
      pose proof (run_monte_carlo_prog_run rng normal w df d N D Hd) as Hrun.
      destruct (run_monte_carlo normal d N D (generator w)) as [[sim g']|e];
        rewrite Hrun; cbn [disk generator heap].
      * split; [reflexivity|]. split; [eexists; reflexivity|].
        split; [apply nth_error_kept; exact Hd|].
        split; [reflexivity|].
        exists (length (heap w) + 2)%nat. split; [reflexivity|].
        rewrite nth_error_made. reflexivity.
      * split; [reflexivity|].
        split; [exists []; rewrite app_nil_r; reflexivity|].
        split; [exact Hd|]. split; reflexivity.
  - intros w. pose proof (load_data_prog_run rng w) as Hrun.
    destruct (disk w) as [|s] eqn:Hdisk.
    + rewrite Hrun. cbn [disk generator heap].
      split; [reflexivity|].
      split; [exists []; rewrite app_nil_r; reflexivity|].
      split; reflexivity.
    + destruct Hrun as [r [made [Hrun Hres]]]. rewrite Hrun.
      cbn [disk generator heap].
      split; [reflexivity|]. split; [exists made; reflexivity|].
      split; [reflexivity | exact Hres].
Qed.

Lemma analytics_effects_witness :
  let w := mkWorld (File sample_store) O [Prices three_days] in
  nth_error (heap w) 0 = Some (Prices three_days) /\
  fst (optimize_portfolio_prog idle_minimize O w)
  = optimize_portfolio idle_minimize three_days /\
  nth_error (heap (snd (run_monte_carlo_prog counting_normal O 2 3 w))) 0
  = Some (Prices three_days).
Proof.
  intros w.
  destruct (proj1 (analytics_effects counting_normal idle_minimize)
              w O three_days eq_refl) as [_ [Hopt Hsim]].
  split; [reflexivity|]. split.
  - destruct (optimize_portfolio_prog idle_minimize O w) as [r w'].
    exact (proj2 (proj2 (proj2 (proj2 Hopt)))).
  - specialize (Hsim 2%nat 3%nat).
    destruct (run_monte_carlo_prog counting_normal O 2 3 w) as [r w'].
    exact (proj1 (proj2 (proj2 Hsim))).
Defined.

(** C8 (as stated) fails.  [load_data] performs I/O: called on a machine
    without the database file it leaves an empty file behind, and over
    two files with different content the same call returns different
    matrices.  [run_monte_carlo] has a side effect: it leaves the random
    generator in another state than it found it, here after one draw. *)
Lemma analytics_purity_counterexample :
  disk (snd (load_data_prog (mkWorld NoFile O []))) = File Unavailable /\
  (exists a b w1 w2,
      load_data_prog (mkWorld (File sample_store) O []) = (Ok a, w1) /\
      load_data_prog (mkWorld (File other_store) O []) = (Ok b, w2) /\
      columns (prices_at w1 a) = ["A"%string; "B"%string] /\
      columns (prices_at w2 b) = ["A"%string]) /\
  generator
    (snd (run_monte_carlo_prog counting_normal O 1 0
            (mkWorld NoFile O [Prices one_day])))
  = 1%nat.
Proof.
  split; [reflexivity|]. split.
  - do 4 eexists. repeat split; reflexivity.
  - reflexivity.
Qed.

(** * Further properties of the code *)

(** * Returns and volatility beyond the regular case *)


Lemma dropna_index_length {I L} (df : DataFrame I L) :
  length (values df) = length (index df) ->
  (length (index (dropna df)) <= length (index df))%nat.
Proof.
  intros Hlen. unfold dropna. cbn [index]. rewrite length_map.
  etransitivity; [apply filter_length_le|].
  rewrite length_combine. lia.
Qed.

(** The leading row of [pct_change] never survives [dropna] when there
    is a ticker. *)
Lemma returns_drop_first {I L} (df : DataFrame I L) (i0 : I) (idx : list I) :
  wf df -> columns df <> [] -> index df = i0 :: idx ->
  index (dropna (pct_change df))
  = index (dropna (mkDF idx (columns df) (tl (values (pct_change df))))).
Proof.
  intros [Hlen Hrows] Hcols Hidx.
  destruct (values df) as [|r0 rest] eqn:Hv;
    [rewrite Hidx in Hlen; discriminate|].
  unfold dropna, pct_change. cbn [index values columns]. rewrite Hv, Hidx.
  cbn [tl combine filter snd].
  assert (Hr0 : r0 <> []).
  { inversion Hrows; subst. destruct r0; [|discriminate].
    destruct (columns df); [contradiction | discriminate]. }
  assert (Hnan : complete_row (map (fun _ : cell => NaN) r0) = false)
    by (destruct r0; [contradiction | reflexivity]).
  rewrite Hnan. reflexivity.
Qed.



(** * Flat prices *)

Lemma Rsum_repeat (c : R) (k : nat) : Rsum (repeat c k) = INR k * c.
Proof.
  induction k as [|k IH]; [simpl; lra|].
  change (repeat c (S k)) with (c :: repeat c k).
  change (Rsum (c :: repeat c k)) with (c + Rsum (repeat c k)).
  rewrite IH, S_INR. lra.
Qed.

Lemma Rsum_all_zero (rs : list R) : Forall (fun r => r = 0) rs -> Rsum rs = 0.
Proof.
  induction 1 as [|r rs Hr _ IH]; [reflexivity|].
  change (Rsum (r :: rs)) with (r + Rsum rs). rewrite IH, Hr. lra.
Qed.

Lemma nanmean_identical (c : R) (k : nat) :
  (1 <= k)%nat -> nanmean (map Fin (repeat c k)) = Fin c.
Proof.
  intros Hk. rewrite nanmean_fin. unfold spec_mean.
  rewrite csum_fin, length_map, repeat_length, Rsum_repeat.
  rewrite cdiv_fin by (apply INR_pos_neq; lia).
  f_equal. field. apply INR_pos_neq. lia.
Qed.

(** Identical observations, at least two of them, have standard
    deviation zero. *)
Lemma nanstd_identical (c : R) (k : nat) :
  (2 <= k)%nat -> nanstd (map Fin (repeat c k)) = Fin 0.
Proof.
  intros Hk. unfold nanstd, nanvar.
  rewrite filter_notna_fin, length_map, repeat_length.
  destruct (k <=? 1)%nat eqn:E; [apply Nat.leb_le in E; lia|].
  rewrite csum_fin, Rsum_repeat.
  rewrite cdiv_fin by (apply INR_pos_neq; lia).
  assert (Ha : INR k * c / INR k = c)
    by (field; apply INR_pos_neq; lia).
  rewrite Ha, map_map.
  rewrite (map_ext _ (fun r => Fin ((c - r) * (c - r))))
    by (intros r; reflexivity).
  rewrite <- (map_map (fun r => (c - r) * (c - r)) Fin).
  rewrite csum_fin. rewrite cdiv_fin by (apply INR_pos_neq; lia).
  assert (Hz : Rsum (map (fun r => (c - r) * (c - r)) (repeat c k)) = 0).
  { apply Rsum_all_zero. apply Forall_forall. intros r Hr.
    apply in_map_iff in Hr. destruct Hr as [x [Hx Hin]].
    apply repeat_spec in Hin. subst. lra. }
  rewrite Hz. unfold Rdiv. rewrite Rmult_0_l. simpl.
  rewrite Rneg_false by lra. rewrite sqrt_0. reflexivity.
Qed.

Lemma pct_same (x : R) : x <> 0 -> pct (Fin x) (Fin x) = Fin 0.
Proof. intros H. rewrite pct_fin by exact H. f_equal. field. exact H. Qed.

Lemma pct_row_same (base : list cell) :
  Forall positive_price base ->
  pct_row base base = map (fun _ => Fin 0) base.
Proof.
  induction 1 as [|c base [x [Hc Hx]] _ IH]; [reflexivity|].
  unfold pct_row in *. cbn [combine map fst snd]. rewrite IH. subst c.
  rewrite pct_same by exact Hx. reflexivity.
Qed.

Lemma pct_rows_flat (base : list cell) (rows : list (list cell)) :
  Forall positive_price base -> Forall (fun r => r = base) rows ->
  pct_rows base rows = repeat (map (fun _ => Fin 0) base) (length rows).
Proof.
  intros Hb. induction 1 as [|r rows Hr _ IH]; [reflexivity|]. subst r.
  cbn [pct_rows length repeat]. rewrite pct_row_same by exact Hb.
  rewrite IH. reflexivity.
Qed.

Lemma flat_finite_nonzero {I L} (df : DataFrame I L) :
  flat_prices df -> finite_nonzero df.
Proof.
  intros [base [Hb Hrows]]. unfold finite_nonzero.
  rewrite Forall_forall in *. intros r Hr. rewrite (Hrows r Hr).
  apply Forall_forall. exact Hb.
Qed.

Lemma col_zero_rows (j : nat) (base : list cell) (k : nat) :
  (j < length base)%nat ->
  col j (repeat (map (fun _ : cell => Fin 0) base) k)
  = map Fin (repeat 0 k).
Proof.
  intros Hj. induction k as [|k IH]; [reflexivity|].
  change (repeat (map (fun _ : cell => Fin 0) base) (S k))
    with (map (fun _ : cell => Fin 0) base
          :: repeat (map (fun _ : cell => Fin 0) base) k).
  change (col j (map (fun _ : cell => Fin 0) base
                 :: repeat (map (fun _ : cell => Fin 0) base) k))
    with (nth j (map (fun _ : cell => Fin 0) base) NaN
          :: col j (repeat (map (fun _ : cell => Fin 0) base) k)).
  rewrite IH.
  rewrite (nth_indep _ NaN ((fun _ : cell => Fin 0) NaN))
    by (rewrite length_map; exact Hj).
  rewrite (map_nth (fun _ : cell => Fin 0) base NaN j). reflexivity.
Qed.

(** The returns of a flat price matrix: every return is zero. *)
Lemma flat_returns {I L} (df : DataFrame I L) (r0 : list cell)
      (rest : list (list cell)) :
  wf df -> columns df <> [] -> flat_prices df -> values df = r0 :: rest ->
  ReturnsMatrix df = repeat (map (fun _ => Fin 0) r0) (length rest) /\
  forall j, (j < ncols df)%nat ->
    col j (ReturnsMatrix df) = map Fin (repeat 0 (length rest)).
Proof.
  intros Hwf Hcols Hflat Hv.
  destruct (returns_finite df r0 rest Hwf (flat_finite_nonzero df Hflat)
              Hcols Hv) as [HR _].
  destruct Hflat as [base [Hb Hrows]]. rewrite Hv in Hrows.
  inversion Hrows as [|? ? E Hrest]; subst.
  rewrite HR, (pct_rows_flat base rest Hb Hrest).
  split; [reflexivity|].
  intros j Hj. apply col_zero_rows.
  destruct Hwf as [_ Hlens]. rewrite Hv in Hlens.
  inversion Hlens; subst. unfold ncols in Hj. lia.
Qed.

(** X2.  On a matrix of flat prices with at least three rows every return is
    exactly zero and the volatility of every ticker is exactly zero. *)
Theorem flat_prices_zero_volatility {I L} (df : DataFrame I L) :
  wf df -> columns df <> [] -> flat_prices df -> (3 <= nrows df)%nat ->
  Forall (Forall (fun c => c = Fin 0)) (values (fst (calculate_metrics df))) /\
  nrows (fst (calculate_metrics df)) = (nrows df - 1)%nat /\
  Forall (fun kv => snd kv = Fin 0) (snd (calculate_metrics df)).
Proof.
  intros Hwf Hcols Hflat Hn.
  destruct (values df) as [|r0 rest] eqn:Hv.
  { destruct Hwf as [Hl _]. unfold nrows in Hn. rewrite Hv in Hl.
    simpl in Hl. lia. }
  destruct (flat_returns df r0 rest Hwf Hcols Hflat Hv) as [HR Hcol].
  assert (Hlen : length rest = (nrows df - 1)%nat).
  { destruct Hwf as [Hl _]. unfold nrows. rewrite Hv in Hl. simpl in Hl. lia. }
  split; [|split].
  - change (values (fst (calculate_metrics df))) with (ReturnsMatrix df).
    rewrite HR. apply Forall_forall. intros r Hr.
    apply repeat_spec in Hr. subst r. apply Forall_forall. intros c Hc.
    apply in_map_iff in Hc. destruct Hc as [x [Hc _]]. symmetry. exact Hc.
  - pose proof (dropna_wf _ (pct_change_wf df Hwf)) as [Hl _].
    unfold nrows. change (fst (calculate_metrics df))
      with (dropna (pct_change df)). rewrite <- Hl.
    change (values (dropna (pct_change df))) with (ReturnsMatrix df).
    rewrite HR, repeat_length. exact Hlen.
  - unfold calculate_metrics. cbn [snd].
    apply Forall_forall. intros [k v] Hin. cbn [snd].
    assert (Hv' : In v (map snd (smap (fun s => cmul s sqrt252)
                                  (df_std (dropna (pct_change df))))))
      by (apply in_map_iff; exists (k, v); auto).
    unfold df_std in Hv'. rewrite smap_values, agg_values, map_map in Hv'.
    apply in_map_iff in Hv'. destruct Hv' as [j [Ev Hj]].
    apply in_seq in Hj.
    change (values (dropna (pct_change df))) with (ReturnsMatrix df) in Ev.
    change (columns (dropna (pct_change df))) with (columns df) in Hj.
    rewrite (Hcol j) in Ev by (unfold ncols; lia).
    rewrite nanstd_identical in Ev by lia.
    rewrite sqrt252_fin in Ev. simpl in Ev. subst v. f_equal. lra.
Qed.

Lemma flat_hundred_wf : wf flat_hundred.
Proof. split; [reflexivity | repeat constructor]. Qed.

Lemma flat_hundred_flat : flat_prices flat_hundred.
Proof.
  exists [Fin 100; Fin 100]. split.
  - repeat constructor; eexists; (split; [reflexivity | lra]).
  - repeat constructor.
Qed.

Lemma flat_prices_zero_volatility_witness :
  Forall (fun kv => snd kv = Fin 0) (snd (calculate_metrics flat_hundred)).
Proof.
  exact (proj2 (proj2 (flat_prices_zero_volatility flat_hundred
                         flat_hundred_wf ltac:(discriminate)
                         flat_hundred_flat
                         ltac:(unfold nrows; simpl; lia)))).
Defined.

(** * The objective on flat prices *)

Lemma zero_or_nan_sum (xs : list cell) :
  Forall zero_or_nan xs -> zero_or_nan (csum xs).
Proof.
  intros H. unfold csum.
  assert (G : forall acc, zero_or_nan acc ->
                          zero_or_nan (fold_left cadd xs acc)).
  { induction H as [|x xs Hx _ IH]; intros acc Ha; [exact Ha|].
    apply IH. destruct Ha as [Ha|Ha], Hx as [Hx|Hx]; subst; simpl;
      try (left; reflexivity).
    right. f_equal. lra. }
  apply G. right. reflexivity.
Qed.

Lemma zero_or_nan_mul_r (a b : cell) : zero_or_nan b -> zero_or_nan (cmul a b).
Proof.
  intros [H|H]; subst; destruct a as [|s|x]; simpl; try (left; reflexivity).
  - rewrite Rzero_true. left. reflexivity.
  - right. f_equal. lra.
Qed.

Lemma zero_or_nan_mul_l (a b : cell) : zero_or_nan a -> zero_or_nan (cmul a b).
Proof.
  intros [H|H]; subst; destruct b as [|s|x]; simpl; try (left; reflexivity).
  - rewrite Rzero_true. left. reflexivity.
  - right. f_equal. lra.
Qed.

Lemma zero_or_nan_dot_r (w m : list cell) :
  Forall zero_or_nan m -> zero_or_nan (dot w m).
Proof.
  intros H. unfold dot. apply zero_or_nan_sum. apply Forall_forall.
  intros c Hc. apply in_map_iff in Hc. destruct Hc as [[a b] [E Hin]].
  subst c. apply zero_or_nan_mul_r. rewrite Forall_forall in H.
  apply H. eapply in_combine_r. exact Hin.
Qed.

Lemma zero_or_nan_dot_l (w m : list cell) :
  Forall zero_or_nan m -> zero_or_nan (dot m w).
Proof.
  intros H. unfold dot. apply zero_or_nan_sum. apply Forall_forall.
  intros c Hc. apply in_map_iff in Hc. destruct Hc as [[a b] [E Hin]].
  subst c. apply zero_or_nan_mul_l. rewrite Forall_forall in H.
  apply H. eapply in_combine_l. exact Hin.
Qed.

(** The negative Sharpe ratio is undefined wherever the expected returns
    and the covariances are all zero or undefined. *)
Lemma negative_sharpe_undefined {L} (mu : Series L) (S : list (list cell))
      (w : list cell) :
  Forall zero_or_nan (map snd mu) ->
  Forall (Forall zero_or_nan) S ->
  negative_sharpe mu S w = NaN.
Proof.
  intros Hmu HS. unfold negative_sharpe.
  pose proof (zero_or_nan_dot_r w (map snd mu) Hmu) as Hret.
  assert (Hvol : zero_or_nan (dot w (matvec S w))).
  { apply zero_or_nan_dot_r. unfold matvec. apply Forall_forall.
    intros c Hc. apply in_map_iff in Hc. destruct Hc as [row [E Hin]].
    subst c. apply zero_or_nan_dot_l. rewrite Forall_forall in HS.
    apply HS, Hin. }
  destruct Hvol as [Hv|Hv]; rewrite Hv.
  - simpl. destruct (dot w (map snd mu)); reflexivity.
  - simpl. rewrite Rneg_false by lra. rewrite sqrt_0.
    destruct Hret as [Hr|Hr]; rewrite Hr; simpl; [reflexivity|].
    rewrite Rzero_true. reflexivity.
Qed.

Lemma zero_or_nan_sub (a b : cell) :
  zero_or_nan a -> zero_or_nan b -> zero_or_nan (csub a b).
Proof.
  intros [Ha|Ha] [Hb|Hb]; subst; simpl; try (left; reflexivity).
  right. f_equal. lra.
Qed.

Lemma zero_or_nan_div (a b : cell) : zero_or_nan a -> zero_or_nan (cdiv a b).
Proof.
  intros [Ha|Ha]; subst; [left; reflexivity|].
  destruct b as [|s|y]; simpl; [left; reflexivity | right; reflexivity|].
  destruct (Rzero y) eqn:Hy.
  - rewrite Rzero_true. left. reflexivity.
  - right. f_equal. unfold Rdiv. apply Rmult_0_l.
Qed.

Lemma zero_or_nan_filter (p : cell -> bool) (xs : list cell) :
  Forall zero_or_nan xs -> Forall zero_or_nan (filter p xs).
Proof.
  intros H. rewrite Forall_forall in *. intros c Hc.
  apply filter_In in Hc. apply H. tauto.
Qed.

Lemma nanmean_zero_or_nan (xs : list cell) :
  Forall zero_or_nan xs -> zero_or_nan (nanmean xs).
Proof.
  intros H. unfold nanmean.
  pose proof (zero_or_nan_filter notna xs H) as Hv.
  destruct (filter notna xs) as [|c v]; [left; reflexivity|].
  apply zero_or_nan_div, zero_or_nan_sum, Hv.
Qed.

Lemma nancov_zero_or_nan (xs ys : list cell) :
  Forall zero_or_nan xs -> Forall zero_or_nan ys ->
  zero_or_nan (nancov xs ys).
Proof.
  intros Hx Hy. unfold nancov.
  set (obs := pair_obs xs ys).
  assert (Hobs : Forall (fun p => zero_or_nan (fst p) /\ zero_or_nan (snd p)) obs).
  { apply Forall_forall. intros [a b] Hin. unfold obs, pair_obs in Hin.
    apply filter_In in Hin. destruct Hin as [Hin _].
    rewrite Forall_forall in Hx, Hy. split.
    - apply Hx. eapply in_combine_l. exact Hin.
    - apply Hy. eapply in_combine_r. exact Hin. }
  destruct (length obs <? 1)%nat; [left; reflexivity|].
  destruct (length obs =? 1)%nat; [left; reflexivity|].
  apply zero_or_nan_div, zero_or_nan_sum. apply Forall_forall.
  intros c Hc. apply in_map_iff in Hc. destruct Hc as [p [E Hp]]. subst c.
  rewrite Forall_forall in Hobs. destruct (Hobs p Hp) as [H1 H2].
  apply zero_or_nan_mul_l. apply zero_or_nan_sub; [exact H1|].
  apply zero_or_nan_div, zero_or_nan_sum. apply Forall_forall.
  intros c Hc. apply in_map_iff in Hc. destruct Hc as [q [E Hq]]. subst c.
  apply (Hobs q Hq).
Qed.

Lemma col_zero_or_nan (j : nat) (rows : list (list cell)) :
  Forall (Forall zero_or_nan) rows -> Forall zero_or_nan (col j rows).
Proof.
  intros H. unfold col. apply Forall_forall. intros c Hc.
  apply in_map_iff in Hc. destruct Hc as [r [E Hr]]. subst c.
  rewrite Forall_forall in H. specialize (H r Hr).
  destruct (nth_in_or_default j r NaN) as [Hin|Hd].
  - rewrite Forall_forall in H. apply H, Hin.
  - rewrite Hd. left. reflexivity.
Qed.

Lemma flat_pct_change_cells {I L} (df : DataFrame I L) :
  flat_prices df -> Forall (Forall zero_or_nan) (values (pct_change df)).
Proof.
  intros [base [Hb Hrows]]. unfold pct_change. cbn [values].
  destruct (values df) as [|r0 rest]; [constructor|].
  inversion Hrows as [|? ? E Hrest]; subst. constructor.
  - apply Forall_forall. intros c Hc. apply in_map_iff in Hc.
    destruct Hc as [x [E _]]. left. symmetry. exact E.
  - rewrite (pct_rows_flat base rest Hb Hrest).
    apply Forall_forall. intros r Hr. apply repeat_spec in Hr. subst r.
    apply Forall_forall. intros c Hc. apply in_map_iff in Hc.
    destruct Hc as [x [E _]]. right. symmetry. exact E.
Qed.

(** X3.  On flat prices the objective handed to the solver is undefined at
    every point: the expected returns and the covariances are zero (or
    undefined, with fewer than three rows), and the ratio is 0/0. *)
Theorem flat_prices_objective_undefined {I} (df : DataFrame I string) :
  flat_prices df -> columns df <> [] ->
  exists p, sharpe_problem df = Ok p /\ forall w, objective p w = NaN.
Proof.
  intros Hflat Hcols. unfold sharpe_problem.
  destruct (length (columns df)) as [|n] eqn:Hn;
    [destruct (columns df); [contradiction | discriminate]|].
  change (py_div 1 (S n)) with (@Ok cell (Fin (1 / INR (S n)))).
  cbn [rbind]. eexists. split; [reflexivity|].
  cbn [objective]. intros w.
  pose proof (flat_pct_change_cells df Hflat) as Hcells.
  apply negative_sharpe_undefined.
  - unfold expected_returns, df_mean. rewrite smap_values, agg_values, map_map.
    apply Forall_forall. intros c Hc. apply in_map_iff in Hc.
    destruct Hc as [j [E _]]. subst c.
    apply zero_or_nan_mul_l, nanmean_zero_or_nan, col_zero_or_nan, Hcells.
  - unfold covariance, df_cov. apply Forall_forall. intros row Hrow.
    apply in_map_iff in Hrow. destruct Hrow as [row' [E Hrow']]. subst row.
    apply in_map_iff in Hrow'. destruct Hrow' as [i [E _]]. subst row'.
    apply Forall_forall. intros c Hc. apply in_map_iff in Hc.
    destruct Hc as [c' [E Hc']]. subst c. apply in_map_iff in Hc'.
    destruct Hc' as [j [E _]]. subst c'.
    apply zero_or_nan_mul_l, nancov_zero_or_nan;
      apply col_zero_or_nan, Hcells.
Qed.

Lemma flat_prices_objective_undefined_witness :
  exists p, sharpe_problem flat_hundred = Ok p /\
            objective p [Fin (1 / 2); Fin (1 / 2)] = NaN.
Proof.
  destruct (flat_prices_objective_undefined flat_hundred flat_hundred_flat
              ltac:(discriminate)) as [p [Hp Hobj]].
  exists p. split; [exact Hp | apply Hobj].
Defined.

(** * Draws of the simulator *)

Section Draws.

Variable rng : Type.
Variable normal : cell -> cell -> rng -> cell * rng.

Lemma counted_walk (days : nat) (mr mv p : cell) (g : rng) (k : nat) :
  spec_walk (counted normal) days mr mv p (g, k)
  = (fst (spec_walk normal days mr mv p g),
     (snd (spec_walk normal days mr mv p g), (k + days)%nat)).
Proof.
  revert p g k. induction days as [|days IH]; intros p g k.
  - cbn [spec_walk fst snd]. rewrite Nat.add_0_r. reflexivity.
  - cbn [spec_walk]. unfold counted at 1. cbn [fst snd].
    destruct (normal mr mv g) as [shock g'].
    rewrite IH.
    destruct (spec_walk normal days mr mv (cmul p (cadd (Fin 1) shock)) g')
      as [rest g''].
    cbn [fst snd].
    replace (S k + days)%nat with (k + S days)%nat by lia. reflexivity.
Qed.

Lemma counted_path (start mr mv : cell) (days : nat) (g : rng) (k : nat) :
  spec_path (counted normal) start mr mv days (g, k)
  = (fst (spec_path normal start mr mv days g),
     (snd (spec_path normal start mr mv days g), (k + S days)%nat)).
Proof.
  unfold spec_path. unfold counted at 1. cbn [fst snd].
  destruct (normal (Fin 0) mv g) as [shock g'].
  rewrite counted_walk.
  destruct (spec_walk normal days mr mv (cmul start (cadd (Fin 1) shock)) g')
    as [rest g''].
  cbn [fst snd].
  replace (S k + days)%nat with (k + S days)%nat by lia. reflexivity.
Qed.

Lemma counted_paths (n : nat) (start mr mv : cell) (days : nat) (g : rng)
      (k : nat) :
  spec_paths (counted normal) n start mr mv days (g, k)
  = (fst (spec_paths normal n start mr mv days g),
     (snd (spec_paths normal n start mr mv days g),
      (k + n * S days)%nat)).
Proof.
  revert g k. induction n as [|n IH]; intros g k.
  - cbn [spec_paths fst snd]. rewrite Nat.add_0_r. reflexivity.
  - cbn [spec_paths]. rewrite counted_path.
    destruct (spec_path normal start mr mv days g) as [path g'].
    cbn [fst snd]. rewrite IH.
    destruct (spec_paths normal n start mr mv days g') as [rest g''].
    cbn [fst snd].
    replace (k + S days + n * S days)%nat with (k + S n * S days)%nat
      by lia.
    reflexivity.
Qed.

End Draws.

(** X4.  When [run_monte_carlo] returns it has made exactly N * (D + 1)
    draws from the generator: run on a generator that counts its draws,
    it returns the same frame and leaves the counter advanced by that
    number.  When it raises, it raises the same exception on the
    counting generator. *)
Theorem run_monte_carlo_draws {rng : Type}
        (normal : cell -> cell -> rng -> cell * rng)
        {I L} (df : DataFrame I L) (N D : nat) (g : rng) (k : nat) :
  match run_monte_carlo normal df N D g with
  | Ok (sim, g') =>
      run_monte_carlo (counted normal) df N D (g, k)
      = Ok (sim, (g', (k + N * (D + 1))%nat))
  | Raise e =>
      run_monte_carlo (counted normal) df N D (g, k) = Raise e
  end.
Proof.
  destruct (values df) as [|r0 rest] eqn:Hv.
  { unfold run_monte_carlo, last_price_of, iloc_last. rewrite Hv.
    reflexivity. }
  assert (Hne : values df <> []) by (rewrite Hv; discriminate).
  rewrite (run_monte_carlo_paths rng normal df N D g Hne).
  rewrite (run_monte_carlo_paths _ (counted normal) df N D (g, k) Hne).
  rewrite counted_paths. cbn [fst snd].
  replace (D + 1)%nat with (S D) by lia. reflexivity.
Qed.

(** * The simulation on flat prices *)

Lemma map_const_seq {A} (f : nat -> A) (c : A) (a n : nat) :
  (forall j, (a <= j < a + n)%nat -> f j = c) ->
  map f (seq a n) = repeat c n.
Proof.
  revert a. induction n as [|n IH]; intros a H; [reflexivity|].
  cbn [seq map repeat]. rewrite H by lia. rewrite IH; [reflexivity|].
  intros j Hj. apply H. lia.
Qed.

Lemma flat_simulation_scalars {I L} (df : DataFrame I L) :
  wf df -> columns df <> [] -> flat_prices df -> (3 <= nrows df)%nat ->
  spec_mean_daily_return df = Fin 0 /\ spec_mean_daily_vol df = Fin 0.
Proof.
  intros Hwf Hcols Hflat Hn.
  destruct (values df) as [|r0 rest] eqn:Hv.
  { destruct Hwf as [Hl _]. unfold nrows in Hn. rewrite Hv in Hl.
    simpl in Hl. lia. }
  destruct (flat_returns df r0 rest Hwf Hcols Hflat Hv) as [_ Hcol].
  assert (Hlen : (2 <= length rest)%nat).
  { destruct Hwf as [Hl _]. unfold nrows in Hn. rewrite Hv in Hl.
    simpl in Hl. lia. }
  assert (Hc : (1 <= ncols df)%nat).
  { unfold ncols. destruct (columns df); [contradiction | simpl; lia]. }
  unfold spec_mean_daily_return, spec_mean_daily_vol, spec_per_ticker.
  split.
  - rewrite (map_const_seq _ (Fin 0)).
    + rewrite <- (map_repeat 0 (ncols df) Fin). apply nanmean_identical, Hc.
    + intros j Hj. rewrite Hcol by lia. apply nanmean_identical. lia.
  - rewrite (map_const_seq _ (Fin 0)).
    + rewrite <- (map_repeat 0 (ncols df) Fin). apply nanmean_identical, Hc.
    + intros j Hj. rewrite Hcol by lia. apply nanstd_identical, Hlen.
Qed.

Section FlatWalk.

Variable rng : Type.
Variable normal : cell -> cell -> rng -> cell * rng.

(** A draw of scale zero is the mean, as [loc + 0 * z] is. *)
Hypothesis degenerate_draw :
  forall loc g, fst (normal loc (Fin 0) g) = loc.

Lemma flat_step (l : R) : cmul (Fin l) (cadd (Fin 1) (Fin 0)) = Fin l.
Proof. simpl. f_equal. lra. Qed.

Lemma flat_walk (days : nat) (l : R) (g : rng) :
  Forall (fun c => c = Fin l)
         (fst (spec_walk normal days (Fin 0) (Fin 0) (Fin l) g)).
Proof.
  revert g. induction days as [|days IH]; intros g; [constructor|].
  cbn [spec_walk]. pose proof (degenerate_draw (Fin 0) g) as Hd.
  destruct (normal (Fin 0) (Fin 0) g) as [shock g']. cbn [fst] in Hd.
  subst shock. rewrite flat_step. specialize (IH g').
  destruct (spec_walk normal days (Fin 0) (Fin 0) (Fin l) g') as [rest g''].
  cbn [fst] in *. constructor; [reflexivity | exact IH].
Qed.

Lemma flat_path (days : nat) (l : R) (g : rng) :
  Forall (fun c => c = Fin l)
         (fst (spec_path normal (Fin l) (Fin 0) (Fin 0) days g)).
Proof.
  unfold spec_path. pose proof (degenerate_draw (Fin 0) g) as Hd.
  destruct (normal (Fin 0) (Fin 0) g) as [shock g']. cbn [fst] in Hd.
  subst shock. rewrite flat_step. pose proof (flat_walk days l g') as H.
  destruct (spec_walk normal days (Fin 0) (Fin 0) (Fin l) g') as [rest g''].
  cbn [fst] in *. constructor; [reflexivity | exact H].
Qed.

Lemma flat_paths (n days : nat) (l : R) (g : rng) :
  Forall (Forall (fun c => c = Fin l))
         (fst (spec_paths normal n (Fin l) (Fin 0) (Fin 0) days g)).
Proof.
  revert g. induction n as [|n IH]; intros g; [constructor|].
  cbn [spec_paths]. pose proof (flat_path days l g) as Hp.
  destruct (spec_path normal (Fin l) (Fin 0) (Fin 0) days g) as [path g'].
  specialize (IH g').
  destruct (spec_paths normal n (Fin l) (Fin 0) (Fin 0) days g')
    as [rest g''].
  cbn [fst] in *. constructor; assumption.
Qed.

End FlatWalk.

Lemma paths_frame_cells (days : nat) (paths : list (list cell)) (c : cell) :
  Forall (fun p => length p = S days) paths ->
  Forall (Forall (fun x => x = c)) paths ->
  Forall (Forall (fun x => x = c)) (values (paths_frame days paths)).
Proof.
  intros Hlen Hall. destruct paths as [|p ps]; [constructor|].
  unfold paths_frame. cbn [values]. apply Forall_forall. intros row Hrow.
  apply in_map_iff in Hrow. destruct Hrow as [t [E Ht]]. subst row.
  apply in_seq in Ht. apply Forall_forall. intros x Hx.
  apply in_map_iff in Hx. destruct Hx as [path [E Hpath]]. subst x.
  rewrite Forall_forall in Hlen, Hall.
  specialize (Hlen path Hpath). specialize (Hall path Hpath).
  rewrite Forall_forall in Hall. apply Hall. apply nth_In. lia.
Qed.

Lemma last_cons_in {A} (a d : A) (l : list A) : In (last (a :: l) d) (a :: l).
Proof.
  revert a. induction l as [|b l IH]; intros a; [left; reflexivity|].
  change (last (a :: b :: l) d) with (last (b :: l) d). right. apply IH.
Qed.

Lemma nanmean_positive (base : list cell) :
  Forall positive_price base -> base <> [] ->
  exists l, nanmean base = Fin l.
Proof.
  intros Hb Hne.
  assert (Hfin : exists rs, base = map Fin rs).
  { clear Hne. induction Hb as [|c base [x [Hc _]] _ [rs IH]].
    - exists []. reflexivity.
    - exists (x :: rs). subst. reflexivity. }
  destruct Hfin as [rs Hrs]. subst base. rewrite nanmean_fin.
  unfold spec_mean. rewrite csum_fin, length_map.
  rewrite cdiv_fin; [eexists; reflexivity|].
  apply INR_pos_neq. destruct rs; [contradiction | simpl; lia].
Qed.

(** X5.  On flat prices with at least three rows, and with draws of scale
    zero returning their mean, every simulated price of every run equals
    the mean of the latest prices: the simulation is flat as well. *)
Theorem flat_prices_flat_simulation {rng : Type}
        (normal : cell -> cell -> rng -> cell * rng)
        {I L} (df : DataFrame I L) (N D : nat) (g : rng) :
  (forall loc g, fst (normal loc (Fin 0) g) = loc) ->
  wf df -> columns df <> [] -> flat_prices df -> (3 <= nrows df)%nat ->
  exists sim g' l,
    run_monte_carlo normal df N D g = Ok (sim, g') /\
    last_price_of df = Ok (Fin l) /\
    Forall (Forall (fun c => c = Fin l)) (values sim).
Proof.
  intros Hdeg Hwf Hcols Hflat Hn.
  assert (Hne : values df <> []).
  { destruct Hwf as [Hl _]. unfold nrows in Hn. intros E. rewrite E in Hl.
    simpl in Hl. lia. }
  rewrite (run_monte_carlo_paths rng normal df N D g Hne).
  rewrite (last_price_spec df Hne).
  destruct (flat_simulation_scalars df Hwf Hcols Hflat Hn) as [Hr Hv].
  rewrite Hr, Hv.
  assert (Hstart : exists l, spec_start_price df = Fin l).
  { unfold spec_start_price. destruct Hflat as [base [Hb Hrows]].
    destruct Hwf as [_ Hlens].
    destruct (values df) as [|r rs]; [contradiction|].
    assert (Hlast : last (r :: rs) [] = base)
      by (rewrite Forall_forall in Hrows; apply Hrows, last_cons_in).
    pose proof (Forall_inv Hrows) as Hr0. cbn beta in Hr0.
    pose proof (Forall_inv Hlens) as Hl0. cbn beta in Hl0.
    rewrite Hlast. apply nanmean_positive; [exact Hb|].
    intros E. rewrite Hr0, E in Hl0.
    destruct (columns df); [contradiction | discriminate Hl0]. }
  destruct Hstart as [l Hl]. rewrite Hl.
  eexists. eexists. exists l. split; [reflexivity|]. split; [reflexivity|].
  apply paths_frame_cells.
  - apply spec_paths_lengths.
  - apply flat_paths. exact Hdeg.
Qed.

Lemma counting_normal_degenerate (loc : cell) (g : nat) :
  fst (counting_normal loc (Fin 0) g) = loc.
Proof.
  unfold counting_normal. cbn [fst]. destruct loc as [|s|x]; simpl;
    try reflexivity. f_equal. lra.
Qed.

Lemma flat_prices_flat_simulation_witness :
  exists sim g' l,
    run_monte_carlo counting_normal flat_hundred 2 1 O = Ok (sim, g') /\
    last_price_of flat_hundred = Ok (Fin l) /\
    Forall (Forall (fun c => c = Fin l)) (values sim).
Proof.
  exact (flat_prices_flat_simulation counting_normal flat_hundred 2 1 O
           counting_normal_degenerate flat_hundred_wf ltac:(discriminate)
           flat_hundred_flat ltac:(unfold nrows; simpl; lia)).
Defined.

(** * The pivot *)

Lemma same_key_spec (a b : QueryRow) :
  same_key a b = true <-> fst a = fst b.
Proof.
  destruct a as [[s d] c], b as [[s' d'] c']. unfold same_key. cbn [fst snd].
  rewrite andb_true_iff, String.eqb_eq, Z.eqb_eq.
  split; [intros [H1 H2]; subst; reflexivity|].
  intros H. injection H as H1 H2. auto.
Qed.

Lemma no_duplicate_cons (r : QueryRow) (rows : list QueryRow) :
  has_duplicate_key (r :: rows) = false ->
  (forall r', In r' rows -> fst r' <> fst r) /\
  has_duplicate_key rows = false.
Proof.
  cbn [has_duplicate_key]. intros H. apply orb_false_iff in H.
  destruct H as [H1 H2]. split; [|exact H2].
  intros r' Hin E.
  assert (Hex : existsb (same_key r) rows = true).
  { apply existsb_exists. exists r'. split; [exact Hin|].
    apply same_key_spec. symmetry. exact E. }
  rewrite Hex in H1. discriminate.
Qed.

(** Looking up a stored record gives back its close. *)
Lemma lookup_stored (rows : list QueryRow) (s : string) (d : date) (c : cell) :
  has_duplicate_key rows = false -> In (s, d, c) rows ->
  lookup_close rows d s = c.
Proof.
  induction rows as [|r rows IH]; intros Hdup Hin; [contradiction|].
  destruct (no_duplicate_cons r rows Hdup) as [Hfresh Hrest].
  unfold lookup_close. cbn [find].
  destruct (same_key r (s, d, NaN)) eqn:Hk.
  - apply same_key_spec in Hk. cbn [fst] in Hk.
    destruct Hin as [Hin|Hin]; [subst r; reflexivity|].
    exfalso. apply (Hfresh _ Hin). symmetry. exact Hk.
  - destruct Hin as [Hin|Hin].
    + subst r. assert (Ht : same_key (s, d, c) (s, d, NaN) = true)
        by (apply same_key_spec; reflexivity).
      rewrite Ht in Hk. discriminate.
    + apply (IH Hrest Hin).
Qed.

(** A lookup that finds a defined close found a stored record. *)
Lemma lookup_defined (rows : list QueryRow) (s : string) (d : date) :
  lookup_close rows d s <> NaN ->
  In (s, d, lookup_close rows d s) rows.
Proof.
  unfold lookup_close.
  destruct (find (fun r => same_key r (s, d, NaN)) rows) as [r|] eqn:Hf;
    [|intros H; contradiction].
  intros _. apply find_some in Hf. destruct Hf as [Hin Hk].
  apply same_key_spec in Hk. cbn [fst] in Hk.
  destruct r as [k c]. cbn [fst snd] in *. subst k. exact Hin.
Qed.

Lemma pivot_shape (rows : list QueryRow) (df : PriceMatrix) :
  pivot rows = Ok df ->
  has_duplicate_key rows = false /\
  index df = sort_uniq Z.compare (map (fun r => snd (fst r)) rows) /\
  columns df = sort_uniq String.compare (map (fun r => fst (fst r)) rows) /\
  values df = map (fun d => map (fun s => lookup_close rows d s) (columns df))
                  (index df).
Proof.
  unfold pivot. destruct (has_duplicate_key rows); [discriminate|].
  intros H. injection H as H. subst df. repeat split.
Qed.

Lemma In_dates (l : list Z) (d : Z) :
  In d (sort_uniq Z.compare l) <-> In d l.
Proof.
  apply (sort_uniq_In Z Z.compare). exact Z.compare_eq_iff.
Qed.

Lemma In_symbols (l : list string) (s : string) :
  In s (sort_uniq String.compare l) <-> In s l.
Proof.
  apply (sort_uniq_In string String.compare). exact String_as_OT.cmp_eq.
Qed.

Lemma query_recorded (stocks : list StockRow) (prices : list PriceRow)
      (s : string) (d : date) (c : cell) :
  In (s, d, c) (query stocks prices) <-> recorded (Tables stocks prices) s d c.
Proof.
  unfold query, recorded. rewrite in_flat_map. split.
  - intros [p [Hp Hin]]. apply in_map_iff in Hin.
    destruct Hin as [st [E Hst]]. apply filter_In in Hst.
    destruct Hst as [Hst Hk]. apply Z.eqb_eq in Hk.
    injection E as E1 E2 E3. exists p, st. auto 10.
  - intros [p [st [Hp [Hst [Hk [E1 [E2 E3]]]]]]]. exists p. split; [exact Hp|].
    apply in_map_iff. exists st. split; [subst; reflexivity|].
    apply filter_In. split; [exact Hst | apply Z.eqb_eq; exact Hk].
Qed.

Lemma In_combine_map {A B} (f : A -> B) (l : list A) (a : A) (b : B) :
  In (a, b) (combine l (map f l)) <-> In a l /\ b = f a.
Proof.
  induction l as [|x l IH]; simpl; [tauto|]. rewrite IH. split.
  - intros [E|[H1 H2]]; [injection E as E1 E2; subst; auto | auto].
  - intros [[E|H1] H2]; [left; subst; reflexivity | right; auto].
Qed.

Lemma pivot_cell (rows : list QueryRow) (df : PriceMatrix) (i j : nat)
      (d : date) (s : string) :
  pivot rows = Ok df ->
  nth_error (index df) i = Some d -> nth_error (columns df) j = Some s ->
  cell_at df i j = lookup_close rows d s.
Proof.
  intros Hp Hi Hj. destruct (pivot_shape rows df Hp) as [_ [_ [_ Hv]]].
  unfold cell_at. rewrite Hv.
  assert (Hrow : nth_error
            (map (fun d => map (fun s => lookup_close rows d s) (columns df))
                 (index df)) i
          = Some (map (fun s => lookup_close rows d s) (columns df)))
    by (rewrite nth_error_map, Hi; reflexivity).
  rewrite (nth_error_nth _ _ [] Hrow).
  apply nth_error_nth. rewrite nth_error_map, Hj. reflexivity.
Qed.

(** X6.  The pivot is a faithful table of the query's records: each record
    is found at the cell of its date and symbol, and each defined cell
    is a record. *)
Theorem pivot_round_trip (rows : list QueryRow) (df : PriceMatrix) :
  pivot rows = Ok df ->
  (forall s d c, In (s, d, c) rows ->
     exists i j, nth_error (index df) i = Some d /\
                 nth_error (columns df) j = Some s /\
                 cell_at df i j = c) /\
  (forall i j d s,
     nth_error (index df) i = Some d -> nth_error (columns df) j = Some s ->
     cell_at df i j <> NaN -> In (s, d, cell_at df i j) rows).
Proof.
  intros Hp. destruct (pivot_shape rows df Hp) as [Hdup [Hidx [Hcols _]]].
  split.
  - intros s d c Hin.
    assert (Hd : In d (index df)).
    { rewrite Hidx. apply In_dates. apply in_map_iff.
      exists (s, d, c). split; [reflexivity | exact Hin]. }
    assert (Hs : In s (columns df)).
    { rewrite Hcols. apply In_symbols. apply in_map_iff.
      exists (s, d, c). split; [reflexivity | exact Hin]. }
    apply In_nth_error in Hd. destruct Hd as [i Hi].
    apply In_nth_error in Hs. destruct Hs as [j Hj].
    exists i, j. split; [exact Hi|]. split; [exact Hj|].
    rewrite (pivot_cell rows df i j d s Hp Hi Hj).
    apply lookup_stored; assumption.
  - intros i j d s Hi Hj Hc.
    rewrite (pivot_cell rows df i j d s Hp Hi Hj) in *.
    apply lookup_defined. exact Hc.
Qed.

Lemma pivot_round_trip_witness :
  exists i j, nth_error [1%Z; 2%Z] i = Some 2%Z /\
              nth_error ["A"%string; "B"%string] j = Some "A"%string /\
              cell_at (mkDF [1%Z; 2%Z] ["A"%string; "B"%string]
                            [[Fin 1; Fin 3]; [Fin 2; NaN]]) i j = Fin 2.
Proof.
  exact (proj1 (pivot_round_trip
                  [("A"%string, 1%Z, Fin 1); ("A"%string, 2%Z, Fin 2);
                   ("B"%string, 1%Z, Fin 3)]
                  (mkDF [1%Z; 2%Z] ["A"%string; "B"%string]
                        [[Fin 1; Fin 3]; [Fin 2; NaN]])
                  eq_refl)
               "A"%string 2%Z (Fin 2) (or_intror (or_introl eq_refl))).
Defined.

Lemma notna_true (c : cell) : notna c = true <-> c <> NaN.
Proof. destruct c; simpl; split; intros H; congruence. Qed.

Lemma complete_row_lookups (f : string -> cell) (cols : list string) :
  complete_row (map f cols) = true <-> forall s, In s cols -> f s <> NaN.
Proof.
  unfold complete_row. rewrite forallb_forall. split.
  - intros H s Hs. apply notna_true. apply H. apply in_map. exact Hs.
  - intros H c Hc. apply in_map_iff in Hc. destruct Hc as [s [E Hs]].
    subst c. apply notna_true. apply H. exact Hs.
Qed.

Lemma dropna_index_In {I L} (df : DataFrame I L) (d : I) :
  In d (index (dropna df)) <->
  exists r, In (d, r) (combine (index df) (values df)) /\
            complete_row r = true.
Proof.
  unfold dropna. cbn [index]. rewrite in_map_iff. split.
  - intros [[d' r] [E H]]. cbn [fst] in E. subst d'.
    apply filter_In in H. cbn [snd] in H. exists r. exact H.
  - intros [r H]. exists (d, r). split; [reflexivity|].
    apply filter_In. exact H.
Qed.

Lemma dropna_row_at {I L} (df : DataFrame I L) (i : nat) (d : I) :
  nth_error (index (dropna df)) i = Some d ->
  exists r, nth_error (values (dropna df)) i = Some r /\
            In (d, r) (combine (index df) (values df)) /\
            complete_row r = true.
Proof.
  unfold dropna. cbn [index values]. rewrite nth_error_map.
  destruct (nth_error _ i) as [[d' r]|] eqn:Hn; [|discriminate].
  cbn [option_map fst]. intros E. injection E as E. subst d'.
  exists r. rewrite nth_error_map, Hn. split; [reflexivity|].
  apply nth_error_In in Hn. apply filter_In in Hn. exact Hn.
Qed.

Lemma load_data_content (db : Store) (df : PriceMatrix) :
  load_data db = Ok df ->
  (forall s, In s (columns df) <-> exists d c, recorded db s d c) /\
  (forall d, In d (index df) <->
     (exists s c, recorded db s d c) /\
     (forall s, In s (columns df) ->
        exists c, recorded db s d c /\ c <> NaN)) /\
  (forall i j d s,
     nth_error (index df) i = Some d -> nth_error (columns df) j = Some s ->
     cell_at df i j <> NaN /\ recorded db s d (cell_at df i j) /\
     (forall c, recorded db s d c -> c = cell_at df i j)).
Proof.
  destruct db as [|stocks prices]; [discriminate|].
  unfold load_data, read_sql. cbn [rbind].
  destruct (pivot (query stocks prices)) as [piv|e] eqn:Hp; [|discriminate].
  intros E. injection E as E. subst df.
  destruct (pivot_shape _ _ Hp) as [Hdup [Hidx [Hcols Hv]]].
  set (q := query stocks prices) in *.
  assert (Hrec : forall s d c, In (s, d, c) q <->
                               recorded (Tables stocks prices) s d c)
    by (intros; apply query_recorded).
  assert (Hcol : forall s, In s (columns piv) <-> exists d c, In (s, d, c) q).
  { intros s. rewrite Hcols, In_symbols, in_map_iff. split.
    - intros [[[s' d] c] [E H]]. cbn in E. subst s'. exists d, c. exact H.
    - intros [d [c H]]. exists (s, d, c). split; [reflexivity | exact H]. }
  assert (Hdate : forall d, In d (index piv) <-> exists s c, In (s, d, c) q).
  { intros d. rewrite Hidx, In_dates, in_map_iff. split.
    - intros [[[s d'] c] [E H]]. cbn in E. subst d'. exists s, c. exact H.
    - intros [s [c H]]. exists (s, d, c). split; [reflexivity | exact H]. }
  assert (Hrow : forall d r,
            In (d, r) (combine (index piv) (values piv)) <->
            In d (index piv) /\
            r = map (fun s => lookup_close q d s) (columns piv)).
  { intros d r. rewrite Hv at 1.
    apply (In_combine_map
             (fun d => map (fun s => lookup_close q d s) (columns piv))). }
  split; [|split].
  - intros s. rewrite dropna_columns, Hcol. split.
    + intros [d [c H]]. exists d, c. apply Hrec. exact H.
    + intros [d [c H]]. exists d, c. apply Hrec. exact H.
  - intros d. rewrite dropna_columns, dropna_index_In. split.
    + intros [r [Hin Hc]]. apply Hrow in Hin. destruct Hin as [Hd Hr].
      subst r. split.
      * apply Hdate in Hd. destruct Hd as [s [c H]]. exists s, c.
        apply Hrec. exact H.
      * intros s Hs. exists (lookup_close q d s).
        pose proof (proj1 (complete_row_lookups _ _) Hc s Hs) as Hn.
        split; [|exact Hn]. apply Hrec. apply lookup_defined. exact Hn.
    + intros [[s [c H]] Hall].
      exists (map (fun s => lookup_close q d s) (columns piv)). split.
      * apply Hrow. split; [|reflexivity]. apply Hdate. exists s, c.
        apply Hrec. exact H.
      * apply complete_row_lookups. intros s' Hs'.
        destruct (Hall s' Hs') as [c' [Hc' Hn]]. apply Hrec in Hc'.
        rewrite (lookup_stored q s' d c' Hdup Hc'). exact Hn.
  - intros i j d s Hi Hj. rewrite dropna_columns in Hj.
    destruct (dropna_row_at piv i d Hi) as [r [Hr [Hin Hc]]].
    apply Hrow in Hin. destruct Hin as [Hd E]. subst r.
    assert (Hcell : cell_at (dropna piv) i j = lookup_close q d s).
    { unfold cell_at. rewrite (nth_error_nth _ _ [] Hr).
      apply nth_error_nth. rewrite nth_error_map, Hj. reflexivity. }
    rewrite Hcell.
    assert (Hn : lookup_close q d s <> NaN).
    { apply (proj1 (complete_row_lookups _ _) Hc).
      apply nth_error_In in Hj. exact Hj. }
    split; [exact Hn|]. split.
    + apply Hrec. apply lookup_defined. exact Hn.
    + intros c H. apply Hrec in H. symmetry.
      apply lookup_stored; assumption.
Qed.

(** X7.  What [load_data] returns, in terms of the store's content: a
    ticker is a column exactly when a close is recorded for it, a date is
    a row exactly when every such ticker has a defined close recorded on
    it, and every cell is the one close recorded for its ticker and
    date. *)
Theorem load_data_contract (db : Store) (df : PriceMatrix) :
  load_data db = Ok df ->
  (forall s, In s (columns df) <-> exists d c, recorded db s d c) /\
  (forall d, In d (index df) <->
     (exists s c, recorded db s d c) /\
     (forall s, In s (columns df) ->
        exists c, recorded db s d c /\ c <> NaN)) /\
  (forall i j d s,
     nth_error (index df) i = Some d -> nth_error (columns df) j = Some s ->
     cell_at df i j <> NaN /\ recorded db s d (cell_at df i j) /\
     (forall c, recorded db s d c -> c = cell_at df i j)).
Proof. exact (load_data_content db df). Qed.

Lemma load_data_contract_witness :
  cell_at (mkDF [1%Z] ["A"%string; "B"%string] [[Fin 100; Fin 50]]) 0 1
  <> NaN.
Proof.
  exact (proj1 (proj2 (proj2 (load_data_contract sample_store _
                                load_data_sample_store))
                      0%nat 1%nat 1%Z "B"%string eq_refl eq_refl)).
Defined.

(** * The dashboard's selection *)

Lemma label_position_some (s : string) (ls : list string) (j : nat) :
  label_position s ls = Some j -> nth_error ls j = Some s.
Proof.
  revert j. induction ls as [|l ls IH]; intros j; simpl; [discriminate|].
  destruct (String.eqb l s) eqn:E.
  - intros H. injection H as H. subst j. apply String.eqb_eq in E.
    subst l. reflexivity.
  - destruct (label_position s ls) as [k|]; [|discriminate].
    intros H. injection H as H. subst j. simpl. apply IH. reflexivity.
Qed.

Lemma label_position_none (s : string) (ls : list string) :
  label_position s ls = None <-> ~ In s ls.
Proof.
  induction ls as [|l ls IH]; simpl; [tauto|].
  destruct (String.eqb l s) eqn:E.
  - apply String.eqb_eq in E. split; [discriminate | intros H; tauto].
  - apply String.eqb_neq in E.
    destruct (label_position s ls) as [k|].
    + split; [discriminate|]. intros H. exfalso. apply H. right.
      destruct (in_dec string_dec s ls) as [Hin|Hn]; [exact Hin|].
      apply IH in Hn. discriminate.
    + split; [|reflexivity]. intros _ [H|H]; [contradiction|].
      apply (proj1 IH); [reflexivity | exact H].
Qed.

Lemma positions_ok (sel cols : list string) (js : list nat) :
  positions sel cols = Ok js ->
  Forall2 (fun s j => nth_error cols j = Some s) sel js.
Proof.
  revert js. induction sel as [|s sel IH]; intros js; simpl.
  - intros H. injection H as H. subst js. constructor.
  - destruct (label_position s cols) as [j|] eqn:Hj; simpl; [|discriminate].
    destruct (positions sel cols) as [js'|e]; simpl; [|discriminate].
    intros H. injection H as H. subst js. constructor.
    + apply label_position_some. exact Hj.
    + apply IH. reflexivity.
Qed.

Lemma positions_raise (sel cols : list string) (e : exn) :
  positions sel cols = Raise e ->
  e = KeyError /\ Exists (fun s => ~ In s cols) sel.
Proof.
  induction sel as [|s sel IH]; simpl; [discriminate|].
  destruct (label_position s cols) as [j|] eqn:Hj; simpl.
  - destruct (positions sel cols) as [js'|e']; simpl; [discriminate|].
    intros H. injection H as H. subst e'.
    destruct (IH eq_refl) as [He Hex]. split; [exact He|].
    apply Exists_cons_tl. exact Hex.
  - intros H. injection H as H. split; [auto|].
    apply Exists_cons_hd. apply label_position_none. exact Hj.
Qed.

Lemma positions_total (sel cols : list string) :
  Forall (fun s => In s cols) sel -> exists js, positions sel cols = Ok js.
Proof.
  intros H. destruct (positions sel cols) as [js|e] eqn:Hp;
    [exists js; reflexivity|].
  apply positions_raise in Hp. destruct Hp as [_ Hex].
  apply Exists_exists in Hex. destruct Hex as [s [Hs Hn]].
  rewrite Forall_forall in H. exfalso. exact (Hn (H s Hs)).
Qed.

Lemma filter_combine_fst {A B} (p : A -> bool) (xs : list A) (ys : list B) :
  length ys = length xs ->
  map fst (filter (fun ir => p (fst ir)) (combine xs ys)) = filter p xs.
Proof.
  revert ys. induction xs as [|x xs IH]; intros [|y ys] Hlen; simpl in *;
    try discriminate; try reflexivity.
  destruct (p x); simpl; rewrite IH by lia; reflexivity.
Qed.

Lemma filter_sorted (p : Z -> bool) (l : list Z) :
  StronglySorted Z.lt l -> StronglySorted Z.lt (filter p l).
Proof.
  induction 1 as [|a l Hs IH Ha]; simpl; [constructor|].
  destruct (p a); [|exact IH]. constructor; [exact IH|].
  rewrite Forall_forall in *. intros x Hx. apply filter_In in Hx.
  apply Ha. apply Hx.
Qed.

Lemma Forall2_nth_error {A B} (R : A -> B -> Prop) (l : list A) (l' : list B)
      (j : nat) (a : A) :
  Forall2 R l l' -> nth_error l j = Some a ->
  exists b, nth_error l' j = Some b /\ R a b.
Proof.
  intros H. revert j. induction H as [|x y l l' Hxy H IH]; intros j.
  - destruct j; discriminate.
  - destruct j as [|j]; simpl.
    + intros E. injection E as E. subst x. exists y. auto.
    + apply IH.
Qed.

(** X8.  The dashboard's selection [loc] succeeds when every selected ticker
    is a column of the frame; when it fails, it fails with KeyError on a
    selected ticker that is no column. *)
Theorem loc_key_error (df : PriceMatrix) (d0 d1 : date) (sel : list string) :
  (Forall (fun s => In s (columns df)) sel ->
   exists out, loc df d0 d1 sel = Ok out) /\
  (forall e, loc df d0 d1 sel = Raise e ->
     e = KeyError /\ Exists (fun s => ~ In s (columns df)) sel).
Proof.
  unfold loc. split.
  - intros H. destruct (positions_total sel (columns df) H) as [js Hjs].
    rewrite Hjs. cbn [rbind]. eexists. reflexivity.
  - intros e. destruct (positions sel (columns df)) as [js|e'] eqn:Hp;
      cbn [rbind]; [discriminate|].
    intros H. injection H as H. subst e'. apply positions_raise. exact Hp.
Qed.

Lemma loc_keeps (df : PriceMatrix) (d0 d1 : date) (sel : list string)
      (out : PriceMatrix) :
  wf df -> loc df d0 d1 sel = Ok out ->
  wf out /\ columns out = sel /\
  index out = filter (fun d => Z.leb d0 d && Z.leb d d1) (index df) /\
  (no_missing df = true -> no_missing out = true) /\
  (StronglySorted Z.lt (index df) -> StronglySorted Z.lt (index out)) /\
  (forall i j d s,
     nth_error (index out) i = Some d -> nth_error sel j = Some s ->
     exists i' j', nth_error (index df) i' = Some d /\
                   nth_error (columns df) j' = Some s /\
                   cell_at out i j = cell_at df i' j').
Proof.
  intros [Hlen Hrows] Hloc. unfold loc in Hloc.
  destruct (positions sel (columns df)) as [js|e] eqn:Hp; cbn [rbind] in Hloc;
    [|discriminate].
  injection Hloc as Hout. apply positions_ok in Hp.
  set (keep := fun ir : date * list cell =>
                 Z.leb d0 (fst ir) && Z.leb (fst ir) d1) in *.
  set (kept := filter keep (combine (index df) (values df))) in *.
  assert (Hidx : map fst kept
                 = filter (fun d => Z.leb d0 d && Z.leb d d1) (index df))
    by (apply (filter_combine_fst (fun d => Z.leb d0 d && Z.leb d d1));
        exact Hlen).
  assert (Hjs : length js = length sel)
    by (symmetry; eapply Forall2_length; exact Hp).
  assert (Hkept : forall ir, In ir kept ->
                             In ir (combine (index df) (values df)))
    by (intros ir H; apply filter_In in H; apply H).
  subst out. unfold wf, cell_at. cbn [index columns values].
  fold keep. fold kept. repeat split.
  - rewrite !length_map. reflexivity.
  - apply Forall_forall. intros r Hr. apply in_map_iff in Hr.
    destruct Hr as [ir [E _]]. subst r. rewrite length_map. exact Hjs.
  - exact Hidx.
  - intros Hnm. unfold no_missing in *. cbn [values].
    rewrite forallb_forall in *. intros r Hr. apply in_map_iff in Hr.
    destruct Hr as [[d row] [E Hin]]. subst r. cbn [snd].
    apply Hkept in Hin. apply in_combine_r in Hin.
    pose proof (Hnm row Hin) as Hrow. rewrite forallb_forall in *.
    intros c Hc. apply in_map_iff in Hc. destruct Hc as [j [E Hj]]. subst c.
    rewrite Forall_forall in Hrows. pose proof (Hrows row Hin) as Hl.
    apply In_nth_error in Hj. destruct Hj as [k Hk].
    assert (Hlt : (j < length (columns df))%nat).
    { clear - Hp Hk. revert k Hk. induction Hp as [|s j' sel js Hs Hp IH];
        intros k Hk; [destruct k; discriminate|].
      destruct k as [|k]; simpl in Hk.
      - injection Hk as Hk. subst j'. apply nth_error_Some. congruence.
      - exact (IH k Hk). }
    apply Hrow. apply nth_In. lia.
  - intros Hs. change (StronglySorted Z.lt (map fst kept)). rewrite Hidx. revert Hs. apply filter_sorted.
  - intros i j d s Hi Hj.
    change (nth_error (map fst kept) i = Some d) in Hi.
    rewrite nth_error_map in Hi.
    destruct (nth_error kept i) as [[d' row]|] eqn:Hk; [|discriminate].
    cbn [option_map fst] in Hi. injection Hi as Hi. subst d'.
    destruct (Forall2_nth_error _ _ _ j s Hp Hj) as [j' [Hj' Hcol]].
    pose proof (nth_error_In _ _ Hk) as Hin. apply Hkept in Hin.
    apply In_nth_error in Hin. destruct Hin as [i' Hi'].
    exists i', j'.
    assert (Hd : nth_error (index df) i' = Some d /\
                 nth_error (values df) i' = Some row).
    { clear - Hi'. revert Hi'. generalize (index df) (values df).
      induction i' as [|i' IH]; intros [|x xs] [|y ys]; simpl;
        try discriminate.
      - intros E. injection E as E1 E2. subst. auto.
      - apply IH. }
    destruct Hd as [Hd Hv]. split; [exact Hd|]. split; [exact Hcol|].
    change (nth j (nth i (map (fun ir : date * list cell =>
                   map (fun j => nth j (snd ir) NaN) js) kept) []) NaN
            = nth j' (nth i' (values df) []) NaN).
    assert (Hr : nth_error (map (fun ir : date * list cell =>
                   map (fun j => nth j (snd ir) NaN) js) kept) i
                 = Some (map (fun j => nth j row NaN) js))
      by (rewrite nth_error_map, Hk; reflexivity).
    rewrite (nth_error_nth _ _ [] Hr), (nth_error_nth _ _ [] Hv).
    apply nth_error_nth. rewrite nth_error_map, Hj'. reflexivity.
Qed.

(** X9.  What the dashboard's selection keeps of a frame: the selected
    columns in the order selected, the dates of the range in their
    order, and at each kept date and ticker the cell the frame has
    there; a frame without a missing cell stays so. *)
Theorem loc_result (df : PriceMatrix) (d0 d1 : date) (sel : list string)
        (out : PriceMatrix) :
  wf df -> loc df d0 d1 sel = Ok out ->
  wf out /\ columns out = sel /\
  index out = filter (fun d => Z.leb d0 d && Z.leb d d1) (index df) /\
  (no_missing df = true -> no_missing out = true) /\
  (StronglySorted Z.lt (index df) -> StronglySorted Z.lt (index out)) /\
  (forall i j d s,
     nth_error (index out) i = Some d -> nth_error sel j = Some s ->
     exists i' j', nth_error (index df) i' = Some d /\
                   nth_error (columns df) j' = Some s /\
                   cell_at out i j = cell_at df i' j').
Proof. exact (loc_keeps df d0 d1 sel out). Qed.

Lemma loc_result_witness :
  index (mkDF [2%Z; 3%Z] ["B"%string] [[Fin 100]; [Fin 100]])
  = filter (fun d => Z.leb 2 d && Z.leb d 3) (index flat_hundred).
Proof.
  exact (proj1 (proj2 (proj2
           (loc_result flat_hundred 2%Z 3%Z ["B"%string]
              (mkDF [2%Z; 3%Z] ["B"%string] [[Fin 100]; [Fin 100]])
              flat_hundred_wf eq_refl)))).
Defined.

Lemma loc_key_error_witness :
  exists out, loc flat_hundred 1%Z 3%Z ["B"%string; "A"%string] = Ok out.
Proof.
  apply (proj1 (loc_key_error flat_hundred 1%Z 3%Z ["B"%string; "A"%string])).
  constructor; [right; left; reflexivity|].
  constructor; [left; reflexivity | constructor].
Defined.

(** X10.  The frame the dashboard hands to the analytics, cut from a loaded
    store: it is well formed, has no missing cell, its dates increase
    strictly, and each of its cells is the close the store records for
    that ticker on that date. *)
Theorem dashboard_inputs (db : Store) (df filtered_prices : PriceMatrix)
        (d0 d1 : date) (sel : list string) :
  load_data db = Ok df -> loc df d0 d1 sel = Ok filtered_prices ->
  wf filtered_prices /\
  no_missing filtered_prices = true /\
  StronglySorted Z.lt (index filtered_prices) /\
  Forall (fun d => (d0 <= d <= d1)%Z) (index filtered_prices) /\
  (forall i j d s,
     nth_error (index filtered_prices) i = Some d ->
     nth_error (columns filtered_prices) j = Some s ->
     recorded db s d (cell_at filtered_prices i j)).
Proof.
  intros Hload Hloc.
  pose proof (load_data_content db df Hload) as [_ [_ Hcells]].
  assert (Hdf : wf df /\ no_missing df = true /\
                StronglySorted Z.lt (index df)).
  { destruct db as [|stocks prices]; [discriminate|].
    unfold load_data, read_sql in Hload. cbn [rbind] in Hload.
    destruct (pivot (query stocks prices)) as [piv|e] eqn:Hp; [|discriminate].
    injection Hload as Hload. subst df.
    pose proof (pivot_wf _ _ Hp) as Hwf.
    split; [apply dropna_wf, Hwf|].
    split; [apply dropna_no_missing, Hwf|].
    apply dropna_index_sorted. apply (pivot_labels _ _ Hp). }
  destruct Hdf as [Hwf [Hnm Hs]].
  destruct (loc_keeps df d0 d1 sel filtered_prices Hwf Hloc)
    as [Hwf' [Hcols [Hidx [Hnm' [Hs' Hc]]]]].
  split; [exact Hwf'|]. split; [exact (Hnm' Hnm)|].
  split; [exact (Hs' Hs)|]. split.
  - rewrite Hidx. apply Forall_forall. intros d Hd.
    apply filter_In in Hd. destruct Hd as [_ Hd].
    apply andb_true_iff in Hd. destruct Hd as [H0 H1].
    apply Z.leb_le in H0, H1. lia.
  - intros i j d s Hi Hj. rewrite Hcols in Hj.
    destruct (Hc i j d s Hi Hj) as [i' [j' [Hi' [Hj' E]]]].
    rewrite E. apply (Hcells i' j' d s Hi' Hj').
Qed.

Lemma dashboard_inputs_witness :
  no_missing (mkDF [1%Z] ["B"%string] [[Fin 50]]) = true.
Proof.
  exact (proj1 (proj2
           (dashboard_inputs sample_store _
              (mkDF [1%Z] ["B"%string] [[Fin 50]]) 1%Z 2%Z ["B"%string]
              load_data_sample_store eq_refl))).
Defined.

(** * The ratings tab *)

Lemma zip_keyed {L A B C} (k : A -> B -> C) (ls : list L) (a : list A)
      (b : list B) :
  length a = length ls -> length b = length ls ->
  map (fun p => (fst (fst p), k (snd (fst p)) (snd (snd p))))
      (combine (combine ls a) (combine ls b))
  = combine ls (map (fun p => k (fst p) (snd p)) (combine a b)).
Proof.
  revert a b. induction ls as [|l ls IH]; intros [|x a] [|y b] Ha Hb;
    simpl in *; try discriminate; try reflexivity.
  rewrite IH by lia. reflexivity.
Qed.

Lemma smap_combine {L} (g : cell -> cell) (ls : list L) (vs : list cell) :
  smap g (combine ls vs) = combine ls (map g vs).
Proof.
  unfold smap.
  revert vs. induction ls as [|l ls IH]; intros [|v vs]; simpl;
    try reflexivity.
  rewrite IH. reflexivity.
Qed.

Lemma combine_maps_seq {A B} (f : nat -> A) (g : nat -> B) (l : list nat) :
  combine (map f l) (map g l) = map (fun j => (f j, g j)) l.
Proof. induction l; simpl; [reflexivity | rewrite IHl; reflexivity]. Qed.

Lemma sharpe_ratio_form {I L} (returns : DataFrame I L) :
  sharpe_ratio returns
  = combine (columns returns)
      (map (fun j => cdiv (cmul (nanmean (col j (values returns))) (Fin 252))
                          (cmul (nanstd (col j (values returns))) sqrt252))
           (seq 0 (length (columns returns)))).
Proof.
  unfold sharpe_ratio, series_zip, df_mean, df_std, agg.
  rewrite !smap_combine.
  rewrite (zip_keyed cdiv) by (rewrite !length_map, length_seq; reflexivity).
  rewrite !map_map, combine_maps_seq, map_map. reflexivity.
Qed.

Lemma get_rating_sell (row : AiRow) :
  fst (get_rating row) = "SELL ⚠️"%string <->
  cgtb (Sharpe_Ratio row) (Fin 0) = false.
Proof.
  unfold get_rating. cbv zeta.
  destruct (Sharpe_Ratio row) as [|s|x]; simpl.
  - split; reflexivity.
  - destruct s; simpl; split; (reflexivity || discriminate).
  - destruct (Rlt_dec 2 x), (Rlt_dec 1 x), (Rlt_dec 0 x); simpl;
      split; try reflexivity; try discriminate; lra.
Qed.

Lemma get_rating_nan (row : AiRow) :
  Sharpe_Ratio row = NaN -> fst (get_rating row) = "SELL ⚠️"%string.
Proof. intros H. apply get_rating_sell. rewrite H. reflexivity. Qed.

Lemma nth_error_combine {A B} (ls : list A) (vs : list B) (j : nat)
      (l : A) (v : B) :
  nth_error ls j = Some l -> nth_error vs j = Some v ->
  nth_error (combine ls vs) j = Some (l, v).
Proof.
  revert vs j. induction ls as [|x ls IH]; intros [|y vs] [|j]; simpl;
    try discriminate.
  - intros E1 E2. injection E1 as E1. injection E2 as E2. subst.
    reflexivity.
  - apply IH.
Qed.

Lemma nth_error_seq_map {A} (f : nat -> A) (n j : nat) :
  (j < n)%nat -> nth_error (map f (seq 0 n)) j = Some (f j).
Proof.
  intros H. rewrite nth_error_map.
  rewrite (nth_error_nth' (seq 0 n) O) by (rewrite length_seq; exact H).
  rewrite seq_nth by exact H. reflexivity.
Qed.

Lemma momentum_form {I L} (df : DataFrame I L) :
  wf df -> values df <> [] ->
  exists ms, momentum df = Ok (combine (columns df) ms) /\
             length ms = length (columns df).
Proof.
  intros [_ Hrows] Hne. unfold momentum, iloc_last, iloc_first.
  destruct (values df) as [|r rest] eqn:Hv; [contradiction|].
  cbn [rbind]. eexists. split; [reflexivity|].
  rewrite length_map, length_combine.
  rewrite Forall_forall in Hrows.
  assert (Hr : length r = length (columns df))
    by (apply Hrows; left; reflexivity).
  assert (Hl : length (last rest r) = length (columns df)).
  { apply Hrows. destruct rest as [|r' rest']; [left; reflexivity|].
    right. apply last_cons_in. }
  lia.
Qed.

Lemma ratings_at {I L} (df : DataFrame I L) :
  wf df -> values df <> [] ->
  exists rs, ratings df = Ok rs /\ map fst rs = columns df /\
    forall j s, nth_error (columns df) j = Some s ->
      exists mom,
        nth_error rs j
        = Some (s, get_rating
                     (mkAiRow
                        (cdiv (cmul (nanmean (col j (ReturnsMatrix df)))
                                    (Fin 252))
                              (cmul (nanstd (col j (ReturnsMatrix df)))
                                    sqrt252))
                        mom)).
Proof.
  intros Hwf Hne. destruct (momentum_form df Hwf Hne) as [ms [Hm Hlen]].
  unfold ratings, ai_df. rewrite Hm. cbn [rbind]. rewrite sharpe_ratio_form.
  change (columns (fst (calculate_metrics df))) with (columns df).
  change (values (fst (calculate_metrics df))) with (ReturnsMatrix df).
  rewrite map_map. cbn [fst snd].
  rewrite (zip_keyed (fun s m => get_rating (mkAiRow s m)))
    by (rewrite ?length_map, ?length_seq; auto).
  eexists. split; [reflexivity|]. split.
  - apply map_fst_combine.
    rewrite length_map, length_combine, length_map, length_seq. lia.
  - intros j s Hj.
    assert (Hlt : (j < length (columns df))%nat)
      by (apply nth_error_Some; congruence).
    destruct (nth_error ms j) as [mom|] eqn:Hmom;
      [|apply nth_error_None in Hmom; lia].
    exists mom. apply nth_error_combine; [exact Hj|].
    rewrite nth_error_map.
    rewrite (nth_error_combine _ _ j _ mom
               (nth_error_seq_map _ _ j Hlt) Hmom).
    reflexivity.
Qed.

Lemma returns_nrows {I L} (df : DataFrame I L) :
  wf df -> columns df <> [] ->
  (length (ReturnsMatrix df) <= nrows df - 1)%nat.
Proof.
  intros Hwf Hcols.
  change (ReturnsMatrix df) with (values (dropna (pct_change df))).
  pose proof (pct_change_wf df Hwf) as Hwp.
  destruct (dropna_wf _ Hwp) as [Hl _]. rewrite Hl. unfold nrows.
  destruct (index df) as [|i0 idx] eqn:Hidx.
  - unfold dropna, pct_change. cbn [index]. rewrite Hidx. simpl. lia.
  - rewrite (returns_drop_first df i0 idx Hwf Hcols Hidx).
    set (rest := mkDF idx (columns df) (tl (values (pct_change df)))).
    assert (Hlen : length (values rest) = length (index rest)).
    { unfold rest. cbn [values index]. destruct Hwp as [Hl' _].
      change (index (pct_change df)) with (index df) in Hl'.
      rewrite Hidx in Hl'. cbn [length] in Hl'.
      destruct (values (pct_change df)); cbn [tl length] in *;
        [discriminate | injection Hl' as Hl'; exact Hl']. }
    pose proof (dropna_index_length rest Hlen) as H.
    change (length (index rest)) with (length idx) in H.
    cbn [length]. lia.
Qed.

Lemma cdiv_nan_r (a : cell) : cdiv a NaN = NaN.
Proof. destruct a; reflexivity. Qed.

(** X11.  With at most two price rows there is at most one return per ticker,
    the sample standard deviation is undefined, and so is the Sharpe
    ratio: every ticker is rated SELL, whatever its prices did. *)
Theorem short_history_rated_sell {I L} (df : DataFrame I L) :
  wf df -> (1 <= nrows df <= 2)%nat ->
  exists rs, ratings df = Ok rs /\ map fst rs = columns df /\
             Forall (fun kv => fst (snd kv) = "SELL ⚠️"%string) rs.
Proof.
  intros Hwf Hshort.
  assert (Hne : values df <> []).
  { intros E. destruct Hwf as [Hl _]. rewrite E in Hl. unfold nrows in Hshort.
    simpl in Hl. lia. }
  destruct (ratings_at df Hwf Hne) as [rs [Hrs [Hlab Hat]]].
  exists rs. split; [exact Hrs|]. split; [exact Hlab|].
  apply Forall_forall. intros kv Hkv.
  apply In_nth_error in Hkv. destruct Hkv as [j Hj].
  assert (Hs : nth_error (columns df) j = Some (fst kv))
    by (rewrite <- Hlab, nth_error_map, Hj; reflexivity).
  destruct (Hat j (fst kv) Hs) as [mom Hr]. rewrite Hj in Hr.
  injection Hr as Hr. rewrite Hr. cbn [snd].
  apply get_rating_nan. cbn [Sharpe_Ratio].
  assert (Hcols : columns df <> [])
    by (intros E; rewrite E in Hs; destruct j; discriminate).
  rewrite nanstd_short; [apply cdiv_nan_r|].
  pose proof (returns_nrows df Hwf Hcols) as Hn.
  pose proof (filter_length_le notna (col j (ReturnsMatrix df))) as Hf.
  rewrite length_col in Hf. lia.
Qed.

Lemma short_history_rated_sell_witness :
  exists rs, ratings two_days = Ok rs /\ map fst rs = columns two_days /\
             Forall (fun kv => fst (snd kv) = "SELL ⚠️"%string) rs.
Proof.
  apply (short_history_rated_sell two_days).
  - split; [reflexivity | repeat constructor].
  - unfold nrows. simpl. lia.
Defined.

Lemma cgtb_zero_quotient (m y : R) :
  0 <= y ->
  cgtb (cdiv (Fin (m * 252)) (Fin (y * sqrt 252))) (Fin 0) = false <-> m <= 0.
Proof.
  intros Hy. pose proof sqrt252_pos as Hs.
  destruct (Req_dec_T y 0) as [E|E].
  - subst y. replace (0 * sqrt 252) with 0 by lra. cbn [cdiv].
    rewrite Rzero_true.
    destruct (Req_dec_T m 0) as [Em|Em].
    + subst m. replace (0 * 252) with 0 by lra. rewrite Rzero_true.
      simpl. split; [lra | reflexivity].
    + rewrite Rzero_false by lra.
      destruct (Rlt_dec m 0) as [Hm|Hm].
      * rewrite Rneg_true by lra. simpl. split; [lra | reflexivity].
      * rewrite Rneg_false by lra. simpl. split; [discriminate | lra].
  - assert (Hpos : 0 < y * sqrt 252) by (apply Rmult_lt_0_compat; lra).
    rewrite cdiv_fin by lra. cbn [cgtb].
    destruct (Rlt_dec 0 (m * 252 / (y * sqrt 252))) as [Hq|Hq].
    + split; [discriminate|]. intros Hm. exfalso.
      assert (m * 252 / (y * sqrt 252) <= 0); [|lra].
      unfold Rdiv. pose proof (Rinv_0_lt_compat _ Hpos) as Hi.
      set (i := / (y * sqrt 252)) in *. nra.
    + split; [|reflexivity]. intros _.
      destruct (Rle_dec m 0) as [Hm|Hm]; [exact Hm|]. exfalso. apply Hq.
      unfold Rdiv. apply Rmult_lt_0_compat; [lra|].
      apply Rinv_0_lt_compat. exact Hpos.
Qed.

(** X12.  On at least three rows of finite non-zero prices, every selected
    ticker is rated, and a ticker is rated SELL exactly when the mean of
    its daily returns is not positive. *)
Theorem rated_sell_iff_mean {I L} (df : DataFrame I L) :
  wf df -> finite_nonzero df -> (3 <= nrows df)%nat ->
  exists rs, ratings df = Ok rs /\ map fst rs = columns df /\
    forall j s, nth_error (columns df) j = Some s ->
      exists m rating reason,
        nth_error rs j = Some (s, (rating, reason)) /\
        nanmean (col j (ReturnsMatrix df)) = Fin m /\
        (rating = "SELL ⚠️"%string <-> m <= 0).
Proof.
  intros Hwf Hfin Hrows.
  destruct (values df) as [|r0 rest] eqn:Hv.
  { destruct Hwf as [Hl _]. rewrite Hv in Hl. unfold nrows in Hrows.
    simpl in Hl. lia. }
  assert (Hne : values df <> []) by (rewrite Hv; discriminate).
  assert (Hrest : (2 <= length rest)%nat).
  { destruct Hwf as [Hl _]. rewrite Hv in Hl. unfold nrows in Hrows.
    simpl in Hl. lia. }
  destruct (ratings_at df Hwf Hne) as [rs [Hrs [Hlab Hat]]].
  exists rs. split; [exact Hrs|]. split; [exact Hlab|].
  intros j s Hj.
  assert (Hlt : (j < ncols df)%nat)
    by (unfold ncols; apply nth_error_Some; congruence).
  assert (Hcols : columns df <> [])
    by (intros E; rewrite E in Hj; destruct j; discriminate).
  destruct (returns_finite df r0 rest Hwf Hfin Hcols Hv) as [HR Hcol].
  destruct (Hcol j Hlt) as [xs [Hxs Hlen]].
  destruct (Hat j s Hj) as [mom Hr].
  rewrite HR, Hxs in *.
  destruct (nanstd_fin xs ltac:(lia)) as [y [Hstd Hy]].
  assert (Hmean : nanmean (map Fin xs) = Fin (Rsum xs / INR (length xs))).
  { rewrite nanmean_fin. unfold spec_mean. rewrite csum_fin, length_map.
    apply cdiv_fin. apply not_0_INR. lia. }
  rewrite Hstd, Hmean, sqrt252_fin in Hr. cbn [cmul] in Hr.
  set (m := Rsum xs / INR (length xs)) in *.
  set (row := mkAiRow (cdiv (Fin (m * 252)) (Fin (y * sqrt 252))) mom) in *.
  exists m, (fst (get_rating row)), (snd (get_rating row)).
  split; [rewrite Hr; destruct (get_rating row); reflexivity|].
  split; [exact Hmean|].
  rewrite get_rating_sell. apply cgtb_zero_quotient. exact Hy.
Qed.

Lemma rated_sell_iff_mean_witness :
  exists rs, ratings three_days = Ok rs /\ map fst rs = columns three_days /\
    forall j s, nth_error (columns three_days) j = Some s ->
      exists m rating reason,
        nth_error rs j = Some (s, (rating, reason)) /\
        nanmean (col j (ReturnsMatrix three_days)) = Fin m /\
        (rating = "SELL ⚠️"%string <-> m <= 0).
Proof.
  apply (rated_sell_iff_mean three_days).
  - exact three_days_wf.
  - exact three_days_finite.
  - unfold nrows. simpl. lia.
Defined.

(** * The allocation chart *)

Lemma clean_w_split (ws : dict) :
  Forall (fun c => exists x, c = Fin x /\ 0 <= x <= 1) (map snd ws) ->
  exists xs ks,
    map snd ws = map Fin xs /\ map snd (clean_w ws) = map Fin ks /\
    (length ks <= length xs)%nat /\
    Rsum xs - INR (length xs - length ks) / 100 <= Rsum ks <= Rsum xs /\
    Forall (fun k => 1 / 100 < k <= 1) ks.
Proof.
  induction ws as [|[l c] ws IH]; intros H.
  - exists [], []. simpl. repeat split; try lra; try lia. constructor.
  - cbn [map snd] in H. inversion H as [|? ? [x [Hc Hx]] Hrest]; subst.
    destruct (IH Hrest) as [xs [ks [Hxs [Hks [Hlen [Hsum Hall]]]]]].
    unfold clean_w in *. cbn [filter snd cgtb].
    destruct (Rlt_dec (1 / 100) x) as [Hk|Hk].
    + exists (x :: xs), (x :: ks). cbn [map snd length].
      rewrite Hxs, Hks. repeat split; try lia.
      * change (Rsum (x :: xs)) with (x + Rsum xs).
        change (Rsum (x :: ks)) with (x + Rsum ks).
        replace (S (length xs) - S (length ks))%nat
          with (length xs - length ks)%nat by lia. lra.
      * change (Rsum (x :: xs)) with (x + Rsum xs).
        change (Rsum (x :: ks)) with (x + Rsum ks). lra.
      * constructor; [lra | exact Hall].
    + exists (x :: xs), ks. cbn [map snd length].
      rewrite Hxs, Hks. repeat split; try lia; try exact Hall.
      * change (Rsum (x :: xs)) with (x + Rsum xs).
        replace (S (length xs) - length ks)%nat
          with (S (length xs - length ks)) by lia.
        rewrite S_INR. lra.
      * change (Rsum (x :: xs)) with (x + Rsum xs). lra.
Qed.

(** X13.  When the solver's point meets the bounds and the constraint it was
    handed and fewer than 100 tickers are selected, the allocation chart
    is not empty: the weights above 0.01 that it keeps are entries of the
    result, each in (0.01, 1], and they sum to at most 1 and to no less
    than 1 minus 0.01 per dropped ticker. *)
Theorem allocation_chart_weights {I} (minimize : problem -> list cell)
        (df : DataFrame I string) (p : problem) :
  NoDup (columns df) -> sharpe_problem df = Ok p ->
  feasible p (minimize p) -> (ncols df < 100)%nat ->
  exists opt_w total,
    optimize_portfolio minimize df = Ok opt_w /\
    clean_w opt_w <> [] /\
    incl (clean_w opt_w) opt_w /\
    Forall (fun kv => exists x, snd kv = Fin x /\ 1 / 100 < x <= 1)
           (clean_w opt_w) /\
    csum (map snd (clean_w opt_w)) = Fin total /\
    1 - INR (length opt_w - length (clean_w opt_w)) / 100 <= total <= 1.
Proof.
  intros Hnd Hp Hfeas Hn.
  destruct (feasible_result_weights minimize df p Hnd Hp Hfeas)
    as [opt_w [Hopt [Hkeys [Hsum Hunit]]]].
  destruct (clean_w_split opt_w Hunit)
    as [xs [ks [Hxs [Hks [Hlen [Hbound Hall]]]]]].
  assert (Hlx : length xs = length opt_w)
    by (rewrite <- (length_map Fin xs), <- Hxs, length_map; reflexivity).
  assert (Hlk : length ks = length (clean_w opt_w))
    by (rewrite <- (length_map Fin ks), <- Hks, length_map; reflexivity).
  assert (Hone : Rsum xs = 1).
  { rewrite Hxs, csum_fin in Hsum. injection Hsum as Hsum. exact Hsum. }
  assert (Hlw : length opt_w = ncols df)
    by (unfold ncols; rewrite <- Hkeys, length_map; reflexivity).
  exists opt_w, (Rsum ks). split; [exact Hopt|]. split; [|split; [|split]].
  - intros E. rewrite E in Hlk. cbn [length] in Hlk.
    destruct ks; [|discriminate]. cbn [Rsum fold_right length] in Hbound.
    rewrite Nat.sub_0_r, Hlx, Hlw, Hone in Hbound.
    assert (INR (ncols df) < 100).
    { replace 100 with (INR 100) by (simpl; lra). apply lt_INR. exact Hn. }
    lra.
  - intros kv Hkv. unfold clean_w in Hkv. apply filter_In in Hkv. apply Hkv.
  - apply Forall_forall. intros kv Hkv.
    assert (Hin : In (snd kv) (map Fin ks))
      by (rewrite <- Hks; apply in_map; exact Hkv).
    apply in_map_iff in Hin. destruct Hin as [k [Ek Hk]].
    rewrite Forall_forall in Hall. exists k. split; [auto | apply Hall, Hk].
  - split; [rewrite Hks; apply csum_fin|].
    rewrite <- Hlx, <- Hlk, <- Hone. exact Hbound.
Qed.

Lemma allocation_chart_weights_witness :
  exists opt_w total,
    optimize_portfolio idle_minimize three_days = Ok opt_w /\
    clean_w opt_w <> [] /\
    incl (clean_w opt_w) opt_w /\
    Forall (fun kv => exists x, snd kv = Fin x /\ 1 / 100 < x <= 1)
           (clean_w opt_w) /\
    csum (map snd (clean_w opt_w)) = Fin total /\
    1 - INR (length opt_w - length (clean_w opt_w)) / 100 <= total <= 1.
Proof.
  eapply (allocation_chart_weights idle_minimize three_days _ _ eq_refl).
  - split.
    + cbn. repeat constructor; simpl; lra.
    + cbn. repeat constructor. unfold satisfies. cbn. f_equal. lra.
  - unfold ncols. simpl. lia.
  Unshelve.
  repeat constructor; simpl; intuition discriminate.
Defined.

(** * The growth chart *)

Lemma norm_same_row (r0 : list cell) :
  Forall positive_price r0 ->
  map (fun pq => cmul (cdiv (fst pq) (snd pq)) (Fin 100)) (combine r0 r0)
  = map (fun _ => Fin 100) r0.
Proof.
  induction 1 as [|c r0 [x [Hc Hx]] _ IH]; [reflexivity|].
  cbn [combine map fst snd]. rewrite IH. subst c.
  rewrite cdiv_fin by exact Hx. cbn [cmul]. do 2 f_equal. field. exact Hx.
Qed.

(** X14.  The growth chart's frame is the price frame rebased on its first
    row: it keeps dates, tickers and shape, and when the first prices
    are finite and non-zero its first row is 100 for every ticker.  On a
    frame without rows the rebasing raises IndexError. *)
Theorem norm_df_base {I L} (df : DataFrame I L) :
  (values df = [] -> norm_df df = Raise IndexError) /\
  (wf df -> (1 <= nrows df)%nat ->
   Forall positive_price (nth 0 (values df) []) ->
   exists out, norm_df df = Ok out /\ wf out /\
               index out = index df /\ columns out = columns df /\
               nth 0 (values out) [] = repeat (Fin 100) (ncols df)).
Proof.
  unfold norm_df, iloc_first. split.
  - intros E. rewrite E. reflexivity.
  - intros [Hlen Hrows] Hn Hpos.
    destruct (values df) as [|r0 rest] eqn:Hv.
    { unfold nrows in Hn. rewrite <- Hlen in Hn. simpl in Hn. lia. }
    cbn [rbind]. eexists. split; [reflexivity|].
    cbn [index columns values nth] in *.
    pose proof (Forall_inv Hrows) as Hr0. cbn beta in Hr0.
    split; [split|].
    + cbn [index values]. rewrite length_map. exact Hlen.
    + cbn [values columns]. apply Forall_forall. intros r Hr.
      apply in_map_iff in Hr. destruct Hr as [r' [E Hin]]. subst r.
      rewrite length_map, length_combine.
      rewrite Forall_forall in Hrows. rewrite (Hrows r' Hin), Hr0. lia.
    + split; [reflexivity|]. split; [reflexivity|].
      cbn [map nth]. rewrite (norm_same_row r0 Hpos).
      unfold ncols. rewrite <- Hr0. clear.
      induction r0; simpl; [reflexivity | rewrite IHr0; reflexivity].
Qed.

Lemma norm_df_base_witness :
  exists out, norm_df three_days = Ok out /\ wf out /\
              index out = index three_days /\
              columns out = columns three_days /\
              nth 0 (values out) [] = repeat (Fin 100) (ncols three_days).
Proof.
  apply (proj2 (norm_df_base three_days)).
  - exact three_days_wf.
  - unfold nrows. simpl. lia.
  - simpl. repeat constructor; eexists; (split; [reflexivity | lra]).
Defined.

(** * The ingestion job *)

Lemma find_stock_some (symbol : string) (stocks : list Stock) (s : Stock) :
  find_stock symbol stocks = Some s -> In s stocks /\ st_symbol s = symbol.
Proof.
  unfold find_stock. intros H. apply find_some in H.
  destruct H as [Hin E]. apply String.eqb_eq in E. auto.
Qed.

Lemma find_stock_none (symbol : string) (stocks : list Stock) :
  find_stock symbol stocks = None <-> ~ In symbol (map st_symbol stocks).
Proof.
  unfold find_stock. split.
  - intros H Hin. apply in_map_iff in Hin. destruct Hin as [s [E Hs]].
    pose proof (find_none _ _ H s Hs) as Hn. cbn beta in Hn.
    rewrite E, String.eqb_refl in Hn. discriminate.
  - intros H. destruct (find _ stocks) as [s|] eqn:Hf; [|reflexivity].
    apply find_some in Hf. destruct Hf as [Hin E]. apply String.eqb_eq in E.
    exfalso. apply H. rewrite <- E. apply in_map. exact Hin.
Qed.

Lemma find_stock_app (symbol : string) (stocks more : list Stock) :
  find_stock symbol (stocks ++ more)
  = match find_stock symbol stocks with
    | Some s => Some s
    | None => find_stock symbol more
    end.
Proof.
  unfold find_stock. induction stocks as [|s stocks IH]; simpl;
    [reflexivity|].
  destruct (String.eqb (st_symbol s) symbol); [reflexivity | exact IH].
Qed.

Lemma find_stock_found (symbol : string) (stocks : list Stock) :
  In symbol (map st_symbol stocks) ->
  exists s, find_stock symbol stocks = Some s.
Proof.
  intros H. destruct (find_stock symbol stocks) as [s|] eqn:Hf;
    [exists s; reflexivity|].
  apply find_stock_none in Hf. contradiction.
Qed.

Lemma max_le_fold (keys : list Z) (k : Z) :
  In k keys -> (k <= fold_right Z.max 0 keys)%Z.
Proof.
  induction keys as [|a keys IH]; intros H; [contradiction|].
  simpl. destruct H as [H|H]; [subst; lia|]. specialize (IH H). lia.
Qed.

Lemma next_key_fresh (keys : list Z) : ~ In (next_key keys) keys.
Proof.
  intros H. apply max_le_fold in H. unfold next_key in H. lia.
Qed.

Lemma NoDup_app_one {A} (l : list A) (a : A) :
  NoDup l -> ~ In a l -> NoDup (l ++ [a]).
Proof.
  intros Hl Ha. induction Hl as [|x l Hx Hl IH]; simpl.
  - constructor; [intros [] | constructor].
  - constructor.
    + rewrite in_app_iff. intros [H|[H|[]]]; [contradiction|].
      subst. apply Ha. left. reflexivity.
    + apply IH. intros H. apply Ha. right. exact H.
Qed.

Lemma get_or_create_stock_facts (symbol name sector : string)
      (stocks : list Stock) (prices : list StockPrice) :
  exists stock stocks',
    get_or_create_stock symbol name sector (Db stocks prices)
    = (Ok stock, Db stocks' prices) /\
    st_symbol stock = symbol /\
    find_stock symbol stocks' = Some stock /\
    (forall s, find_stock symbol stocks = Some s ->
               stock = s /\ stocks' = stocks) /\
    (find_stock symbol stocks = None ->
     stocks' = stocks ++ [stock] /\ st_name stock = name /\
     st_sector stock = sector /\ ~ In (st_id stock) (map st_id stocks)) /\
    (forall other s, find_stock other stocks = Some s ->
                     find_stock other stocks' = Some s) /\
    (forall name' sector',
       get_or_create_stock symbol name' sector' (Db stocks' prices)
       = (Ok stock, Db stocks' prices)) /\
    (consistent (Db stocks prices) -> consistent (Db stocks' prices)).
Proof.
  unfold get_or_create_stock.
  destruct (find_stock symbol stocks) as [s|] eqn:Hf.
  - exists s, stocks. destruct (find_stock_some _ _ _ Hf) as [Hin E].
    split; [reflexivity|]. split; [exact E|]. split; [exact Hf|].
    split; [intros s' H'; injection H' as H'; auto|].
    split; [discriminate|].
    split; [intros other s' H'; exact H'|].
    split; [intros name' sector'; rewrite Hf; reflexivity|].
    intros H'. exact H'.
  - set (stock := mkStockRecord (next_key (map st_id stocks))
                                symbol name sector).
    assert (Hnew : find_stock symbol (stocks ++ [stock]) = Some stock).
    { rewrite find_stock_app, Hf. unfold find_stock. cbn [find st_symbol stock].
      rewrite String.eqb_refl. reflexivity. }
    exists stock, (stocks ++ [stock]).
    split; [reflexivity|]. split; [reflexivity|]. split; [exact Hnew|].
    split; [discriminate|].
    split.
    { intros _. split; [reflexivity|]. split; [reflexivity|].
      split; [reflexivity | apply next_key_fresh]. }
    split; [intros other s H'; rewrite find_stock_app, H'; reflexivity|].
    split; [intros name' sector'; rewrite Hnew; reflexivity|].
    intros [Hid [Hsym Hp]]. split; [|split; [|exact Hp]].
    + rewrite map_app. apply NoDup_app_one; [exact Hid|].
      apply next_key_fresh.
    + rewrite map_app. apply NoDup_app_one; [exact Hsym|].
      apply find_stock_none. exact Hf.
Qed.

(** X15.  [get_or_create_stock] returns the row of the symbol, which a lookup
    then finds.  A symbol already stored keeps its row as it is, name
    and sector included, and nothing is written; a new symbol is
    appended under a fresh key.  Rows of other symbols and the prices
    are untouched, a second call changes nothing, and the uniqueness of
    keys and symbols is kept. *)
Theorem get_or_create_stock_spec (symbol name sector : string)
        (stocks : list Stock) (prices : list StockPrice) :
  exists stock stocks',
    get_or_create_stock symbol name sector (Db stocks prices)
    = (Ok stock, Db stocks' prices) /\
    st_symbol stock = symbol /\
    find_stock symbol stocks' = Some stock /\
    (forall s, find_stock symbol stocks = Some s ->
               stock = s /\ stocks' = stocks) /\
    (find_stock symbol stocks = None ->
     stocks' = stocks ++ [stock] /\ st_name stock = name /\
     st_sector stock = sector /\ ~ In (st_id stock) (map st_id stocks)) /\
    (forall other s, find_stock other stocks = Some s ->
                     find_stock other stocks' = Some s) /\
    (forall name' sector',
       get_or_create_stock symbol name' sector' (Db stocks' prices)
       = (Ok stock, Db stocks' prices)) /\
    (consistent (Db stocks prices) -> consistent (Db stocks' prices)).
Proof. exact (get_or_create_stock_facts symbol name sector stocks prices). Qed.

Lemma new_records_raise (k : Z) (data : list Bar) (e : exn) :
  new_records k data = Raise e ->
  e = ValueError /\ Exists (fun row => bar_volume row = None) data.
Proof.
  induction data as [|row data IH]; simpl; [discriminate|].
  destruct (bar_volume row) as [v|] eqn:Hv; simpl.
  - destruct (new_records k data) as [recs|e']; simpl; [discriminate|].
    intros H. injection H as H. subst e'. destruct (IH eq_refl) as [E Hex].
    split; [exact E | apply Exists_cons_tl; exact Hex].
  - intros H. injection H as H. split; [auto | apply Exists_cons_hd; exact Hv].
Qed.

Lemma new_records_missing (k : Z) (data : list Bar) :
  Exists (fun row => bar_volume row = None) data ->
  new_records k data = Raise ValueError.
Proof.
  induction 1 as [row data Hv | row data _ IH]; simpl.
  - rewrite Hv. reflexivity.
  - rewrite IH. destruct (bar_volume row); reflexivity.
Qed.

Lemma new_records_total (k : Z) (data : list Bar) :
  Forall (fun row => bar_volume row <> None) data ->
  exists recs, new_records k data = Ok recs.
Proof.
  intros H. destruct (new_records k data) as [recs|e] eqn:Hr;
    [exists recs; reflexivity|].
  apply new_records_raise in Hr. destruct Hr as [_ Hex].
  apply Exists_exists in Hex. destruct Hex as [row [Hin Hv]].
  rewrite Forall_forall in H. exfalso. exact (H row Hin Hv).
Qed.

(** The rows an insert adds: one per downloaded row, in order, with the
    stock's key, the row's date and its prices, each under a fresh
    key. *)
Lemma insert_records (k : Z) (data : list Bar)
      (recs : list (Z -> StockPrice)) (prices : list StockPrice) :
  new_records k data = Ok recs ->
  exists added,
    add_all prices recs = prices ++ added /\
    map (fun p => (sp_stock_id p, sp_date p)) added
    = map (fun row => (k, bar_date row)) data /\
    map sp_close added = map bar_close data /\
    map (fun p => Some (sp_volume p)) added = map bar_volume data /\
    (NoDup (map sp_id prices) -> NoDup (map sp_id (prices ++ added))).
Proof.
  revert recs prices. induction data as [|row data IH]; intros recs prices.
  - simpl. intros H. injection H as H. subst recs. exists [].
    rewrite app_nil_r. repeat split; auto.
  - simpl. destruct (bar_volume row) as [v|] eqn:Hv; simpl; [|discriminate].
    destruct (new_records k data) as [rest|e] eqn:Hr; simpl; [|discriminate].
    intros H. injection H as H. subst recs.
    set (p := mkStockPrice (next_key (map sp_id prices)) k (bar_date row)
                (bar_open row) (bar_high row) (bar_low row) (bar_close row) v).
    destruct (IH rest (prices ++ [p]) eq_refl)
      as [added [Hadd [Hkeys [Hclose [Hvol Hnd]]]]].
    exists (p :: added). unfold add_all in *. cbn [fold_left].
    fold p. rewrite Hadd, <- app_assoc. cbn [app map].
    rewrite Hkeys, Hclose, Hvol. repeat split; auto.
    intros H. specialize (Hnd ltac:(rewrite map_app; apply NoDup_app_one;
                                     [exact H | apply next_key_fresh])).
    rewrite <- app_assoc in Hnd. exact Hnd.
Qed.

Lemma fold_max_ge (ds : list Z) (d : Z) :
  (d <= fold_left Z.max ds d)%Z /\
  forall x, In x ds -> (x <= fold_left Z.max ds d)%Z.
Proof.
  revert d. induction ds as [|a ds IH]; intros d; simpl.
  - split; [lia | intros x []].
  - destruct (IH (Z.max d a)) as [H1 H2]. split; [lia|].
    intros x [E|H]; [subst; lia | apply H2, H].
Qed.

Lemma max_date_none (k : Z) (prices : list StockPrice) :
  max_date k prices = None ->
  forall p, In p prices -> sp_stock_id p <> k.
Proof.
  unfold max_date. intros H p Hin E.
  assert (Hf : In (sp_date p)
                  (map sp_date (filter (fun p => Z.eqb (sp_stock_id p) k)
                                       prices))).
  { apply in_map. apply filter_In. split; [exact Hin|].
    apply Z.eqb_eq. exact E. }
  destruct (map sp_date _); [contradiction | discriminate].
Qed.

Lemma max_date_some (k : Z) (prices : list StockPrice) (d : date) :
  max_date k prices = Some d ->
  forall p, In p prices -> sp_stock_id p = k -> (sp_date p <= d)%Z.
Proof.
  unfold max_date. intros H p Hin E.
  assert (Hf : In (sp_date p)
                  (map sp_date (filter (fun p => Z.eqb (sp_stock_id p) k)
                                       prices))).
  { apply in_map. apply filter_In. split; [exact Hin|].
    apply Z.eqb_eq. exact E. }
  destruct (map sp_date _) as [|d0 ds]; [discriminate|].
  injection H as H. subst d. destruct (fold_max_ge ds d0) as [H1 H2].
  destruct Hf as [Hf|Hf]; [subst; exact H1 | apply H2, Hf].
Qed.

Section Update.

Variable download : string -> date -> list Bar.
Variable now : date.

Lemma update_price_history_eq (symbol : string) (stocks : list Stock)
      (prices : list StockPrice) :
  update_price_history download now symbol (Db stocks prices)
  = match find_stock symbol stocks with
    | None => (Ok tt, Db stocks prices)
    | Some stock =>
        match download symbol (start_date_for now stock prices) with
        | [] => (Ok tt, Db stocks prices)
        | row :: rest =>
            match new_records (st_id stock)
                    (download symbol (start_date_for now stock prices)) with
            | Raise e => (Raise e, Db stocks prices)
            | Ok records => (Ok tt, Db stocks (add_all prices records))
            end
        end
    end.
Proof. reflexivity. Qed.

Lemma update_price_history_facts (symbol : string) (stocks : list Stock)
      (prices : list StockPrice) :
  exists r added,
    update_price_history download now symbol (Db stocks prices)
    = (r, Db stocks (prices ++ added)) /\
    (r = Ok tt \/ r = Raise ValueError /\ added = []) /\
    (find_stock symbol stocks = None -> r = Ok tt /\ added = []) /\
    (forall stock, find_stock symbol stocks = Some stock ->
       let data := download symbol (start_date_for now stock prices) in
       (r = Raise ValueError <->
        Exists (fun row => bar_volume row = None) data) /\
       (r = Ok tt ->
        map (fun p => (sp_stock_id p, sp_date p)) added
        = map (fun row => (st_id stock, bar_date row)) data /\
        map sp_close added = map bar_close data /\
        map (fun p => Some (sp_volume p)) added = map bar_volume data)) /\
    (NoDup (map sp_id prices) -> NoDup (map sp_id (prices ++ added))).
Proof.
  rewrite update_price_history_eq.
  destruct (find_stock symbol stocks) as [stock|] eqn:Hf.
  2:{ exists (Ok tt), []. rewrite app_nil_r.
      split; [reflexivity|]. split; [left; reflexivity|].
      split; [auto|]. split; [discriminate|]. auto. }
  remember (download symbol (start_date_for now stock prices)) as data
    eqn:Hd.
  assert (Hstock : forall (P : Stock -> Prop),
            P stock -> forall stock', Some stock = Some stock' -> P stock')
    by (intros P HP stock' E; injection E as E; subst; exact HP).
  destruct (new_records (st_id stock) data) as [recs|e] eqn:Hr.
  - destruct (insert_records _ _ _ prices Hr)
      as [added [Hadd [Hkeys [Hclose [Hvol Hnd]]]]].
    destruct data as [|row data'].
    + injection Hr as Hr. subst recs. simpl in Hadd.
      assert (added = []) by
        (destruct added; [reflexivity|];
         apply (f_equal (@length _)) in Hadd;
         rewrite length_app in Hadd; simpl in Hadd; lia).
      subst added.
      exists (Ok tt), []. rewrite app_nil_r.
      split; [reflexivity|]. split; [left; reflexivity|].
      split; [discriminate|]. split; [|auto].
      apply Hstock. cbv zeta. rewrite <- Hd. split.
      * split; [discriminate | intros H; inversion H].
      * intros _. repeat split.
    + exists (Ok tt), added. rewrite Hadd.
      split; [reflexivity|]. split; [left; reflexivity|].
      split; [discriminate|]. split; [|exact Hnd].
      apply Hstock. cbv zeta. rewrite <- Hd. split.
      * split; [discriminate|]. intros Hex.
        rewrite (new_records_missing _ _ Hex) in Hr. discriminate.
      * intros _. auto.
  - destruct (new_records_raise _ _ _ Hr) as [E Hex]. subst e.
    destruct data as [|row data']; [inversion Hex|].
    exists (Raise ValueError), []. rewrite app_nil_r.
    split; [reflexivity|]. split; [right; auto|].
    split; [discriminate|]. split; [|auto].
    apply Hstock. cbv zeta. rewrite <- Hd.
    split; [split; auto | discriminate].
Qed.

End Update.

(** * From the tables to the loader *)

Lemma has_duplicate_key_NoDup (rows : list QueryRow) :
  has_duplicate_key rows = false <-> NoDup (map fst rows).
Proof.
  induction rows as [|r rows IH]; simpl.
  - split; [intros _; constructor | reflexivity].
  - rewrite orb_false_iff, IH, NoDup_cons_iff.
    assert (Hex : existsb (same_key r) rows = false <->
                  ~ In (fst r) (map fst rows)).
    { split.
      - intros H Hin. apply in_map_iff in Hin. destruct Hin as [r' [E Hr']].
        assert (Ht : existsb (same_key r) rows = true).
        { apply existsb_exists. exists r'. split; [exact Hr'|].
          apply same_key_spec. symmetry. exact E. }
        rewrite Ht in H. discriminate.
      - intros H. destruct (existsb (same_key r) rows) eqn:Hx; [|reflexivity].
        apply existsb_exists in Hx. destruct Hx as [r' [Hr' Hk]].
        apply same_key_spec in Hk. exfalso. apply H. rewrite Hk.
        apply in_map. exact Hr'. }
    rewrite Hex. reflexivity.
Qed.

Lemma NoDup_map_inj {A B} (f : A -> B) (l : list A) (a b : A) :
  NoDup (map f l) -> In a l -> In b l -> f a = f b -> a = b.
Proof.
  induction l as [|x l IH]; intros Hnd Ha Hb E; [contradiction|].
  simpl in Hnd. apply NoDup_cons_iff in Hnd. destruct Hnd as [Hx Hnd].
  destruct Ha as [Ha|Ha], Hb as [Hb|Hb]; subst.
  - reflexivity.
  - exfalso. apply Hx. rewrite E. apply in_map. exact Hb.
  - exfalso. apply Hx. rewrite <- E. apply in_map. exact Ha.
  - apply IH; assumption.
Qed.

Lemma filter_keeps_distinct {A B} (keep : A -> bool) (key : A -> B)
      (rows : list A) :
  NoDup (map key rows) -> NoDup (map key (filter keep rows)).
Proof.
  intros Hnd. induction rows as [|x rows IH]; [constructor|].
  simpl in Hnd. apply NoDup_cons_iff in Hnd. destruct Hnd as [Hx Hnd].
  simpl. destruct (keep x); simpl; [|apply IH, Hnd].
  constructor; [|apply IH, Hnd].
  intros Hin. apply Hx. apply in_map_iff in Hin.
  destruct Hin as [y [E Hy]]. apply filter_In in Hy.
  rewrite <- E. apply in_map. apply Hy.
Qed.

Lemma NoDup_map_pair {A B C} (f : A -> B) (c : C) (l : list A) :
  NoDup (map f l) -> NoDup (map (fun a => (f a, c)) l).
Proof.
  induction l as [|x l IH]; simpl; intros H; [constructor|].
  apply NoDup_cons_iff in H. destruct H as [Hx H].
  constructor; [|apply IH, H].
  intros Hin. apply Hx. apply in_map_iff in Hin.
  destruct Hin as [y [E Hy]]. injection E as E. rewrite <- E.
  apply in_map. exact Hy.
Qed.

Lemma NoDup_map_pair_l {A B C} (f : A -> B) (c : C) (l : list A) :
  NoDup (map f l) -> NoDup (map (fun a => (c, f a)) l).
Proof.
  induction l as [|x l IH]; simpl; intros H; [constructor|].
  apply NoDup_cons_iff in H. destruct H as [Hx H].
  constructor; [|apply IH, H].
  intros Hin. apply Hx. apply in_map_iff in Hin.
  destruct Hin as [y [E Hy]]. injection E as E. rewrite <- E.
  apply in_map. exact Hy.
Qed.

(** With symbols that are not repeated and one price per stock and
    date, the query's records have distinct keys. *)
Lemma query_keys_distinct (stocks : list StockRow) (prices : list PriceRow) :
  NoDup (map symbol stocks) ->
  NoDup (map (fun p => (stock_id p, price_date p)) prices) ->
  NoDup (map fst (query stocks prices)).
Proof.
  intros Hsym. unfold query.
  induction prices as [|p prices IH]; intros Hp; [constructor|].
  simpl in Hp. apply NoDup_cons_iff in Hp. destruct Hp as [Hfresh Hp].
  cbn [flat_map]. rewrite map_app. apply NoDup_app.
  - rewrite map_map. cbn [fst].
    apply (NoDup_map_pair symbol (price_date p)).
    apply filter_keeps_distinct. exact Hsym.
  - apply IH. exact Hp.
  - intros [sym d] H1 H2.
    apply in_map_iff in H1. destruct H1 as [[[sym1 d1] c1] [E1 H1]].
    cbn [fst] in E1. injection E1 as ? ?. subst sym1 d1.
    apply in_map_iff in H1. destruct H1 as [s [Es Hs]].
    injection Es as Es1 Es2 _. apply filter_In in Hs.
    destruct Hs as [Hs Hk]. apply Z.eqb_eq in Hk.
    apply in_map_iff in H2. destruct H2 as [[[sym2 d2] c2] [E2 H2]].
    cbn [fst] in E2. injection E2 as ? ?. subst sym2 d2.
    apply in_flat_map in H2. destruct H2 as [p' [Hp' H2]].
    apply in_map_iff in H2. destruct H2 as [s' [Es' Hs']].
    injection Es' as Es1' Es2' _. apply filter_In in Hs'.
    destruct Hs' as [Hs' Hk']. apply Z.eqb_eq in Hk'.
    assert (s = s')
      by (apply (NoDup_map_inj symbol stocks); congruence).
    subst s'. apply Hfresh. apply in_map_iff. exists p'.
    split; [|exact Hp']. f_equal; congruence.
Qed.

Lemma consistent_keys (db : Database) :
  consistent db ->
  exists stocks prices,
    store_of db = Tables stocks prices /\
    has_duplicate_key (query stocks prices) = false.
Proof.
  destruct db as [|stocks prices]; [intros []|].
  intros [_ [Hsym [_ Hkeys]]]. cbn [store_of]. eexists _, _.
  split; [reflexivity|]. apply has_duplicate_key_NoDup.
  apply query_keys_distinct; rewrite map_map; cbn [symbol stock_id price_date];
    assumption.
Qed.

Lemma consistent_loads (db : Database) :
  consistent db -> exists df, load_data (store_of db) = Ok df.
Proof.
  intros H. destruct (consistent_keys db H) as [stocks [prices [E Hk]]].
  rewrite E. unfold load_data, read_sql, pivot. cbn [rbind]. rewrite Hk.
  cbn [rbind]. eexists. reflexivity.
Qed.

Section Consistency.

Variable download : string -> date -> list Bar.
Variable now : date.
Hypothesis provider : honours_start download.

Lemma update_price_history_keeps (symbol : string) (db : Database) :
  consistent db ->
  consistent (snd (update_price_history download now symbol db)).
Proof.
  destruct db as [|stocks prices]; [intros []|].
  intros [Hid [Hsym [Hpid Hkeys]]].
  destruct (update_price_history_facts download now symbol stocks prices)
    as [r [added [Hrun [Hr [Hnone [Hsome Hfresh]]]]]].
  rewrite Hrun. cbn [snd consistent].
  split; [exact Hid|]. split; [exact Hsym|]. split; [exact (Hfresh Hpid)|].
  destruct (find_stock symbol stocks) as [stock|] eqn:Hf.
  2:{ destruct (Hnone eq_refl) as [_ E]. subst added.
      rewrite app_nil_r. exact Hkeys. }
  destruct (Hsome stock eq_refl) as [_ Hok].
  destruct Hr as [Hr|[_ E]];
    [|subst added; rewrite app_nil_r; exact Hkeys].
  destruct (Hok Hr) as [Hadded _].
  destruct (provider symbol (start_date_for now stock prices))
    as [Hdays Hfrom].
  rewrite map_app. apply NoDup_app; [exact Hkeys | |].
  - rewrite Hadded. apply (NoDup_map_pair_l bar_date). exact Hdays.
  - intros [k d] Hold Hnew. rewrite Hadded in Hnew.
    apply in_map_iff in Hnew. destruct Hnew as [row [E Hrow]].
    injection E as Ek Ed. subst k d.
    apply in_map_iff in Hold. destruct Hold as [p [E Hp]].
    injection E as Ek Ed.
    rewrite Forall_forall in Hfrom. pose proof (Hfrom row Hrow) as Hge.
    unfold start_date_for in Hge.
    destruct (max_date (st_id stock) prices) as [m|] eqn:Hm.
    + pose proof (max_date_some _ _ _ Hm p Hp Ek). lia.
    + exact (max_date_none _ _ Hm p Hp Ek).
Qed.

End Consistency.

(** * What one update does *)

(** X16.  [update_price_history] only appends to [stock_prices] and leaves
    [stocks] alone.  For a symbol without a row it does nothing.
    Otherwise it asks the provider for the days from the start date on
    and stores one row per downloaded row, in order, under the stock's
    key; if one of the downloaded volumes is missing it raises
    ValueError and stores none of them, and it raises in no other
    case. *)
Theorem update_price_history_spec (download : string -> date -> list Bar)
        (now : date) (symbol : string) (stocks : list Stock)
        (prices : list StockPrice) :
  exists r added,
    update_price_history download now symbol (Db stocks prices)
    = (r, Db stocks (prices ++ added)) /\
    (r = Ok tt \/ r = Raise ValueError /\ added = []) /\
    (find_stock symbol stocks = None -> r = Ok tt /\ added = []) /\
    (forall stock, find_stock symbol stocks = Some stock ->
       let data := download symbol (start_date_for now stock prices) in
       (r = Raise ValueError <->
        Exists (fun row => bar_volume row = None) data) /\
       (r = Ok tt ->
        map (fun p => (sp_stock_id p, sp_date p)) added
        = map (fun row => (st_id stock, bar_date row)) data /\
        map sp_close added = map bar_close data /\
        map (fun p => Some (sp_volume p)) added = map bar_volume data)) /\
    (NoDup (map sp_id prices) -> NoDup (map sp_id (prices ++ added))).
Proof.
  exact (update_price_history_facts download now symbol stocks prices).
Qed.

Lemma daily_provider_honours : honours_start daily_provider.
Proof.
  intros symbol start. unfold daily_provider. cbn [map bar_date]. split.
  - constructor; [|constructor; [intros [] | constructor]].
    intros [H|[]]. lia.
  - repeat constructor; cbn [bar_date]; lia.
Qed.

Lemma one_stock_consistent : consistent one_stock.
Proof.
  unfold one_stock. cbn. repeat split; repeat constructor; intros [].
Qed.

(** X17.  When the provider returns each day once and none before the start
    it is asked for, an update keeps the tables consistent: the day
    after the last stored date is where it resumes, so no stock gets two
    prices for one date, and [load_data] reads the result without
    raising. *)
Theorem update_price_history_consistent
        (download : string -> date -> list Bar) (now : date)
        (symbol : string) (db : Database) :
  honours_start download -> consistent db ->
  consistent (snd (update_price_history download now symbol db)) /\
  exists df,
    load_data (store_of (snd (update_price_history download now symbol db)))
    = Ok df.
Proof.
  intros Hp Hc.
  pose proof (update_price_history_keeps download now Hp symbol db Hc) as H.
  split; [exact H | apply consistent_loads, H].
Qed.

Lemma update_price_history_consistent_witness :
  consistent (snd (update_price_history daily_provider 2000%Z "A" one_stock)) /\
  exists df,
    load_data
      (store_of (snd (update_price_history daily_provider 2000%Z "A" one_stock)))
    = Ok df.
Proof.
  exact (update_price_history_consistent daily_provider 2000%Z "A" one_stock
           daily_provider_honours one_stock_consistent).
Defined.

Lemma NoDup_app_common {A} (l1 l2 : list A) (x : A) :
  In x l1 -> In x l2 -> ~ NoDup (l1 ++ l2).
Proof.
  intros H1 H2 Hnd. induction l1 as [|a l1 IH]; [contradiction|].
  simpl in Hnd. apply NoDup_cons_iff in Hnd. destruct Hnd as [Ha Hnd].
  destruct H1 as [E|H1]; [|exact (IH H1 Hnd)].
  subst a. apply Ha. apply in_or_app. right. exact H2.
Qed.




(** * The whole run *)

Lemma grows_refl (db : Database) : grows db db.
Proof. split; exists []; rewrite app_nil_r; reflexivity. Qed.

Lemma grows_trans (a b c : Database) : grows a b -> grows b c -> grows a c.
Proof.
  intros [[m1 H1] [p1 H1']] [[m2 H2] [p2 H2']]. split.
  - exists (m1 ++ m2). rewrite H2, H1, app_assoc. reflexivity.
  - exists (p1 ++ p2). rewrite H2', H1', app_assoc. reflexivity.
Qed.

Lemma grows_find (db db' : Database) (symbol : string) (s : Stock) :
  grows db db' -> find_stock symbol (stocks_of db) = Some s ->
  find_stock symbol (stocks_of db') = Some s.
Proof.
  intros [[more H] _] Hf. rewrite H, find_stock_app, Hf. reflexivity.
Qed.

Section Run.

Variable download : string -> date -> list Bar.
Variable now : date.
Hypothesis provider : honours_start download.

Lemma ingest_symbol_facts (sector symbol : string) (db : Database) :
  consistent db ->
  step_ok download (fun s => st_symbol s = symbol /\ st_name s = symbol /\
                    st_sector s = sector)
          [symbol] db
          (fst (ingest_symbol download now sector symbol db))
          (snd (ingest_symbol download now sector symbol db)).
Proof.
  destruct db as [|stocks prices]; [intros []|]. intros Hc.
  unfold step_ok, ingest_symbol, jbind.
  destruct (get_or_create_stock_facts symbol symbol sector stocks prices)
    as [stock [stocks' [Hrun [Hsym [Hfind [Hold [Hnew [Hkeep [_ Hcons]]]]]]]]].
  rewrite Hrun.
  destruct (update_price_history_facts download now symbol stocks' prices)
    as [r [added [Hup [Hr [_ [Hsome _]]]]]].
  pose proof (update_price_history_keeps download now provider symbol
                (Db stocks' prices) (Hcons Hc)) as Hc'.
  rewrite Hup in *. cbn [fst snd] in *.
  assert (Hmore : exists more, stocks' = stocks ++ more /\
            forall s, In s more ->
              st_symbol s = symbol /\ st_name s = symbol /\
              st_sector s = sector).
  { destruct (find_stock symbol stocks) as [s0|] eqn:Hf.
    - destruct (Hold s0 eq_refl) as [_ E]. exists []. rewrite app_nil_r.
      split; [exact E | intros s []].
    - destruct (Hnew eq_refl) as [E [Hn [Hs _]]]. exists [stock].
      split; [exact E|]. intros s [Es|[]]. subst s. auto. }
  destruct Hmore as [more [Emore Hlisted]].
  split; [exact Hc'|]. split; [|split; [|split; [|split]]].
  - split; [exists more; exact Emore | exists added; reflexivity].
  - destruct Hr as [Hr|[Hr _]]; auto.
  - intros Hvol. destruct Hr as [Hr|[Hr _]]; [exact Hr|].
    destruct (Hsome stock Hfind) as [Hraise _]. cbv zeta in Hraise.
    apply Hraise in Hr. apply Exists_exists in Hr.
    destruct Hr as [row [Hrow Hn]].
    pose proof (Hvol symbol (start_date_for now stock prices)) as Hall.
    rewrite Forall_forall in Hall. exfalso. exact (Hall row Hrow Hn).
  - intros _ symbol' [E|[]]. subst symbol'. exists stock. exact Hfind.
  - cbn [stocks_of]. intros s Hs. rewrite Emore in Hs.
    apply in_app_or in Hs. destruct Hs as [Hs|Hs]; [left; exact Hs|].
    right. apply Hlisted, Hs.
Qed.

Lemma ingest_tickers_facts (sector : string) (tickers : list string)
      (db : Database) :
  consistent db ->
  step_ok download (fun s => In (st_symbol s) tickers /\ st_name s = st_symbol s /\
                    st_sector s = sector)
          tickers db
          (fst (ingest_tickers download now sector tickers db))
          (snd (ingest_tickers download now sector tickers db)).
Proof.
  unfold step_ok in *.
  revert db. induction tickers as [|symbol rest IH]; intros db Hc.
  - cbn [ingest_tickers fst snd]. split; [exact Hc|].
    split; [apply grows_refl|]. split; [left; reflexivity|].
    split; [reflexivity|]. split; [intros _ s []|]. intros s Hs. left.
    exact Hs.
  - cbn [ingest_tickers]. unfold jbind.
    destruct (ingest_symbol_facts sector symbol db Hc)
      as [Hc1 [Hg1 [Hr1 [Hv1 [Hf1 Hl1]]]]].
    destruct (ingest_symbol download now sector symbol db) as [r1 db1].
    cbn [fst snd] in *.
    destruct r1 as [[]|e].
    + destruct (IH db1 Hc1) as [Hc2 [Hg2 [Hr2 [Hv2 [Hf2 Hl2]]]]].
      destruct (ingest_tickers download now sector rest db1) as [r2 db2].
      cbn [fst snd] in *.
      split; [exact Hc2|]. split; [exact (grows_trans _ _ _ Hg1 Hg2)|].
      split; [exact Hr2|]. split; [exact Hv2|]. split.
      * intros Hok symbol' [E|Hin].
        -- subst symbol'. destruct (Hf1 eq_refl symbol (or_introl eq_refl))
             as [s Hs]. exists s. exact (grows_find _ _ _ _ Hg2 Hs).
        -- exact (Hf2 Hok symbol' Hin).
      * intros s Hs. destruct (Hl2 s Hs) as [H|[H1 [H2 H3]]].
        -- destruct (Hl1 s H) as [H'|[H1 [H2 H3]]]; [left; exact H'|].
           right. split; [left; auto|]. split; congruence.
        -- right. split; [right; exact H1 | auto].
    + cbn [fst snd]. split; [exact Hc1|]. split; [exact Hg1|].
      split; [exact Hr1|]. split; [exact Hv1|]. split.
      * intros H. destruct Hr1 as [H1|H1]; discriminate.
      * intros s Hs. destruct (Hl1 s Hs) as [H'|[H1 [H2 H3]]];
          [left; exact H'|].
        right. split; [left; auto|]. split; congruence.
Qed.

Lemma ingest_sectors_facts (secs : list (string * list string))
      (db : Database) :
  consistent db ->
  step_ok download (fun s => exists sector tickers,
                      In (sector, tickers) secs /\
                      In (st_symbol s) tickers /\
                      st_name s = st_symbol s /\ st_sector s = sector)
          (flat_map snd secs) db
          (fst (ingest_sectors download now secs db))
          (snd (ingest_sectors download now secs db)).
Proof.
  unfold step_ok in *.
  revert db. induction secs as [|[sector tickers] rest IH]; intros db Hc.
  - cbn [ingest_sectors fst snd]. split; [exact Hc|].
    split; [apply grows_refl|]. split; [left; reflexivity|].
    split; [reflexivity|]. split; [intros _ s []|]. intros s Hs. left.
    exact Hs.
  - cbn [ingest_sectors]. unfold jbind.
    destruct (ingest_tickers_facts sector tickers db Hc)
      as [Hc1 [Hg1 [Hr1 [Hv1 [Hf1 Hl1]]]]].
    destruct (ingest_tickers download now sector tickers db) as [r1 db1].
    cbn [fst snd] in *.
    destruct r1 as [[]|e].
    + destruct (IH db1 Hc1) as [Hc2 [Hg2 [Hr2 [Hv2 [Hf2 Hl2]]]]].
      destruct (ingest_sectors download now rest db1) as [r2 db2].
      cbn [fst snd] in *.
      split; [exact Hc2|]. split; [exact (grows_trans _ _ _ Hg1 Hg2)|].
      split; [exact Hr2|]. split; [exact Hv2|]. split.
      * intros Hok symbol' Hin. cbn [flat_map snd] in Hin.
        apply in_app_or in Hin. destruct Hin as [Hin|Hin].
        -- destruct (Hf1 eq_refl symbol' Hin) as [s Hs]. exists s.
           exact (grows_find _ _ _ _ Hg2 Hs).
        -- exact (Hf2 Hok symbol' Hin).
      * intros s Hs.
        destruct (Hl2 s Hs) as [H|[sec [ts [H1 [H2 [H3 H4]]]]]].
        -- destruct (Hl1 s H) as [H'|[H1 [H2 H3]]]; [left; exact H'|].
           right. exists sector, tickers.
           split; [left; reflexivity | auto].
        -- right. exists sec, ts. split; [right; exact H1 | auto].
    + cbn [fst snd]. split; [exact Hc1|]. split; [exact Hg1|].
      split; [exact Hr1|]. split; [exact Hv1|]. split.
      * intros H. destruct Hr1 as [H1|H1]; discriminate.
      * intros s Hs. destruct (Hl1 s Hs) as [H'|[H1 [H2 H3]]];
          [left; exact H'|].
        right. exists sector, tickers. split; [left; reflexivity | auto].
Qed.

End Run.

Lemma sectors_listed_once :
  NoDup (flat_map snd sectors).
Proof.
  assert (E : nodup string_dec (flat_map snd sectors) = flat_map snd sectors)
    by (vm_compute; reflexivity).
  rewrite <- E. apply NoDup_nodup.
Qed.

Lemma listed_once (secs : list (string * list string))
      (sec sec' : string) (ts ts' : list string) (symbol : string) :
  NoDup (flat_map snd secs) ->
  In (sec, ts) secs -> In (sec', ts') secs ->
  In symbol ts -> In symbol ts' -> sec = sec'.
Proof.
  induction secs as [|[s0 t0] secs IH]; intros Hnd H1 H2 Hs Hs';
    [contradiction|].
  cbn [flat_map snd] in Hnd.
  assert (Hrest : forall s t, In (s, t) secs -> In symbol t ->
                              In symbol (flat_map snd secs)).
  { intros s t Hin Hsym. apply in_flat_map. exists (s, t). auto. }
  destruct H1 as [E1|H1], H2 as [E2|H2].
  - congruence.
  - injection E1 as ? ?. subst s0 t0. exfalso.
    apply (NoDup_app_common _ _ symbol Hs (Hrest _ _ H2 Hs') Hnd).
  - injection E2 as ? ?. subst s0 t0. exfalso.
    apply (NoDup_app_common _ _ symbol Hs' (Hrest _ _ H1 Hs) Hnd).
  - apply IH; auto. apply NoDup_app_remove_l in Hnd. exact Hnd.
Qed.

(** X19.  A run of the job over consistent tables, with a provider that
    returns each day once and none before the start it is asked for:
    the tables stay consistent and only grow, [load_data] reads them
    without raising, and the run raises nothing but ValueError, and
    nothing at all when every volume is known.  After a normal end every
    listed symbol has its row, and a symbol that had none before the run
    is stored under its own name and the sector it is listed in. *)
Theorem main_run (download : string -> date -> list Bar) (now : date)
        (db : Database) :
  honours_start download -> consistent db ->
  exists r db',
    main download now db = (r, db') /\
    consistent db' /\ grows db db' /\
    (exists df, load_data (store_of db') = Ok df) /\
    (r = Ok tt \/ r = Raise ValueError) /\
    (knows_volumes download -> r = Ok tt) /\
    (r = Ok tt ->
     forall sector tickers symbol,
       In (sector, tickers) sectors -> In symbol tickers ->
       exists s, find_stock symbol (stocks_of db') = Some s /\
                 (find_stock symbol (stocks_of db) = None ->
                  st_name s = symbol /\ st_sector s = sector)).
Proof.
  intros Hp Hc. unfold main.
  destruct (ingest_sectors_facts download now Hp sectors db Hc)
    as [Hc' [Hg [Hr [Hv [Hf Hl]]]]].
  destruct (ingest_sectors download now sectors db) as [r db'].
  cbn [fst snd] in *. exists r, db'.
  split; [reflexivity|]. split; [exact Hc'|]. split; [exact Hg|].
  split; [apply consistent_loads, Hc'|]. split; [exact Hr|].
  split; [exact Hv|].
  intros Hok sector tickers symbol Hsec Hsym.
  assert (Hin : In symbol (flat_map snd sectors))
    by (apply in_flat_map; exists (sector, tickers); auto).
  destruct (Hf Hok symbol Hin) as [s Hs]. exists s. split; [exact Hs|].
  intros Hnone. destruct (find_stock_some _ _ _ Hs) as [Hs_in Hs_sym].
  destruct (Hl s Hs_in) as [Hold|[sec [ts [H1 [H2 [H3 H4]]]]]].
  - exfalso. apply find_stock_none in Hnone. apply Hnone.
    rewrite <- Hs_sym. apply in_map. exact Hold.
  - split; [congruence|]. rewrite H4. rewrite Hs_sym in H2.
    exact (listed_once sectors sec sector ts tickers symbol
             sectors_listed_once H1 Hsec H2 Hsym).
Qed.

Lemma empty_tables_consistent : consistent (Db [] []).
Proof. cbn. repeat split; constructor. Qed.

Lemma main_run_witness :
  exists r db',
    main daily_provider 2000%Z (Db [] []) = (r, db') /\
    consistent db' /\ grows (Db [] []) db' /\
    (exists df, load_data (store_of db') = Ok df) /\
    (r = Ok tt \/ r = Raise ValueError) /\
    (knows_volumes daily_provider -> r = Ok tt) /\
    (r = Ok tt ->
     forall sector tickers symbol,
       In (sector, tickers) sectors -> In symbol tickers ->
       exists s, find_stock symbol (stocks_of db') = Some s /\
                 (find_stock symbol (stocks_of (Db [] [])) = None ->
                  st_name s = symbol /\ st_sector s = sector)).
Proof.
  exact (main_run daily_provider 2000%Z (Db [] [])
           daily_provider_honours empty_tables_consistent).
Defined.

(** * First use *)

Lemma daily_provider_volumes : knows_volumes daily_provider.
Proof.
  intros symbol start. unfold daily_provider.
  repeat constructor; discriminate.
Qed.

(** X20.  On a database without tables the job raises OperationalError at its
    first query and the dashboard shows its database error.  Once
    [create_database] has made the tables, a run with a provider that
    returns each day once, none before the requested start, and knows
    every volume ends normally: the sector map the dashboard reads holds
    exactly the listed symbols, each with the sector it is listed under,
    [load_data] reads the prices without raising, and the dashboard does
    not show its database error. *)
Theorem fresh_install (download : string -> date -> list Bar) (now : date) :
  honours_start download -> knows_volumes download ->
  main download now NoTables = (Raise OperationalError, NoTables) /\
  (forall sidebar,
     app (store_of NoTables) sidebar = [StError database_error_msg; StStop]) /\
  exists db' sector_map df,
    main download now (create_database NoTables) = (Ok tt, db') /\
    consistent db' /\
    get_sector_map (store_of db') = Ok sector_map /\
    (forall symbol sector,
       In (symbol, sector) sector_map <->
       exists tickers, In (sector, tickers) sectors /\ In symbol tickers) /\
    load_data (store_of db') = Ok df /\
    (forall sidebar,
       ~ In (StError database_error_msg) (app (store_of db') sidebar)).
Proof.
  intros Hp Hv. split; [reflexivity|]. split; [reflexivity|].
  cbn [create_database]. unfold main.
  destruct (ingest_sectors_facts download now Hp sectors (Db [] [])
              empty_tables_consistent)
    as [Hc [Hg [_ [Hok [Hfound Hlisted]]]]].
  destruct (ingest_sectors download now sectors (Db [] [])) as [r db'].
  cbn [fst snd] in *. specialize (Hok Hv). subst r.
  destruct db' as [|stocks prices]; [destruct Hc|].
  destruct (consistent_loads _ Hc) as [df Hload].
  exists (Db stocks prices), (map (fun s => (symbol s, sector s))
           (map (fun s => mkStock (st_id s) (st_symbol s) (st_sector s))
                stocks)), df.
  split; [reflexivity|]. split; [exact Hc|]. split; [reflexivity|].
  split; [|split; [exact Hload|]].
  - intros sym sec. rewrite map_map. cbn [symbol sector].
    rewrite in_map_iff. split.
    + intros [s [E Hs]]. injection E as E1 E2.
      destruct (Hlisted s Hs) as [[]|[sec' [ts [H1 [H2 [_ H4]]]]]].
      exists ts. subst sym sec. rewrite H4. auto.
    + intros [ts [Hsec Hsym]].
      assert (Hin : In sym (flat_map snd sectors))
        by (apply in_flat_map; exists (sec, ts); auto).
      destruct (Hfound eq_refl sym Hin) as [s Hs]. cbn [stocks_of] in Hs.
      destruct (find_stock_some _ _ _ Hs) as [Hs_in Hs_sym].
      exists s. split; [|exact Hs_in]. f_equal; [exact Hs_sym|].
      destruct (Hlisted s Hs_in) as [[]|[sec' [ts' [H1 [H2 [_ H4]]]]]].
      rewrite H4. rewrite Hs_sym in H2.
      exact (listed_once sectors sec' sec ts' ts sym
               sectors_listed_once H1 Hsec H2 Hsym).
  - intros sidebar. apply (app_no_database_error _ df). exact Hload.
Qed.

Lemma fresh_install_witness :
  main daily_provider 2000%Z NoTables = (Raise OperationalError, NoTables) /\
  (forall sidebar,
     app (store_of NoTables) sidebar = [StError database_error_msg; StStop]) /\
  exists db' sector_map df,
    main daily_provider 2000%Z (create_database NoTables) = (Ok tt, db') /\
    consistent db' /\
    get_sector_map (store_of db') = Ok sector_map /\
    (forall symbol sector,
       In (symbol, sector) sector_map <->
       exists tickers, In (sector, tickers) sectors /\ In symbol tickers) /\
    load_data (store_of db') = Ok df /\
    (forall sidebar,
       ~ In (StError database_error_msg) (app (store_of db') sidebar)).
Proof.
  exact (fresh_install daily_provider 2000%Z
           daily_provider_honours daily_provider_volumes).
Defined.
